(** * Libauth: BTL compiler, BCH orchestrator and Bech32 helpers

    A shallow embedding of the parts of libauth that the specification
    talks about, and the properties the specification states of them.

    Part I embeds the sources:
    - [src/lib/address/bech32.ts]                   (modules [Bech32], [Bech32Codec]),
    - [src/lib/auth/templates/language/reduce.ts]   (modules [Ranges], [Reduce]),
    - [src/lib/template/language/resolve.ts]        (module [Resolve]),
    - [src/lib/auth/instruction-sets/bch/bch-instruction-sets.ts]
                                                    (module [BCH]).
    Functions that these files import from files that are not at hand are
    parameters of the embedding; the few that are modelled instead carry a
    comment that says from which section of the specification. Module
    [Compile] models the compiler entry point that [resolve.ts] calls,
    module [Collaborators] gives concrete stand-ins for the parameters, and
    module [Scenarios] the concrete inputs of the examples.

    Conventions. JavaScript numbers that hold integers are [Z], and the
    bitwise operators wrap to 32 bits as in module [JS]. [Uint8Array]s are
    [list byte]. JavaScript arrays are lists in array order, so the top of
    a stack is the LAST element. Objects used as dictionaries are plain
    objects: a [gmap] holds their own properties, and indexing them
    ([Resolve.getProperty]) also finds the members that a plain object
    inherits from [Object.prototype]. [undefined] is [None]. A function
    that can throw a [TypeError] returns an [option], [None] standing for
    the throw. Loops and recursions that need not end take fuel.

    Part II states and proves the properties. *)

From Stdlib Require Import ZArith Lia Bool List String Ascii Permutation DecimalString.
From Stdlib.Strings Require Import Byte.
From stdpp Require Import base option list gmap strings.

Set Warnings "-register-all".
Local Open Scope Z_scope.

(** * Part I: the embedding *)

(** ** ECMAScript 32-bit integer operators *)

Module JS.

(** [ToInt32]: wrap an integer into the signed 32-bit range. *)
Definition toInt32 (x : Z) : Z := (x + 2 ^ 31) mod 2 ^ 32 - 2 ^ 31.

(** The shift count of [<<] and [>>] is taken modulo 32. *)
Definition shiftCount (n : Z) : Z := n mod 32.

(** [a << n] *)
Definition shl (a n : Z) : Z := toInt32 (Z.shiftl (toInt32 a) (shiftCount n)).

(** [a >> n] (sign-propagating) *)
Definition sar (a n : Z) : Z := Z.shiftr (toInt32 a) (shiftCount n).

(** [a & b] *)
Definition and (a b : Z) : Z := Z.land (toInt32 a) (toInt32 b).

(** [a | b] *)
Definition or (a b : Z) : Z := Z.lor (toInt32 a) (toInt32 b).

(** [Number(v)] followed by a bitwise operator, for a possibly [undefined]
    [v]: [Number(undefined)] is [NaN], and [ToInt32(NaN)] is [0]. *)
Definition toInt32_undefinable (v : option Z) : Z :=
  match v with
  | Some n => toInt32 n
  | None => 0
  end.

(** [str[i]] on a string: [undefined] when [i] is out of range. *)
Definition charAt (str : string) (i : nat) : option ascii := String.get i str.

(** [ToUint8], the conversion of [Uint8Array.from]: wrap into one byte. *)
Definition toUint8 (x : Z) : byte :=
  default Byte.x00 (Byte.of_N (Z.to_N (x mod 256))).

(** An array element used as the operand of [<], [>>] or [|]: [undefined]
    compares as [NaN] (never below zero) and converts to [0] in the bitwise
    operators, so it behaves as [0] in all three. *)
Definition bitOperand (v : option Z) : Z := default 0 v.

End JS.

(** ** [src/lib/address/bech32.ts] *)

Module Bech32.

Definition bech32CharacterSet : string := "qpzry9x8gf2tvdw0s3jn54khce6mua7l".

(** [bech32CharacterSetIndex[key]]: the object maps each of the 32 symbols
    to its index; every other key, and the key made from [undefined], is
    not a property of the object. *)
Definition bech32CharacterSetIndex (key : option ascii) : option Z :=
  match key with
  | None => None
  | Some c =>
      match c with
      | "q" => Some 0 | "p" => Some 1 | "z" => Some 2 | "r" => Some 3
      | "y" => Some 4 | "9" => Some 5 | "x" => Some 6 | "8" => Some 7
      | "g" => Some 8 | "f" => Some 9 | "2" => Some 10 | "t" => Some 11
      | "v" => Some 12 | "d" => Some 13 | "w" => Some 14 | "0" => Some 15
      | "s" => Some 16 | "3" => Some 17 | "j" => Some 18 | "n" => Some 19
      | "5" => Some 20 | "4" => Some 21 | "k" => Some 22 | "h" => Some 23
      | "c" => Some 24 | "e" => Some 25 | "6" => Some 26 | "m" => Some 27
      | "u" => Some 28 | "a" => Some 29 | "7" => Some 30 | "l" => Some 31
      | _ => None
      end%char
  end.

Inductive BitRegroupingError : Set :=
| integerOutOfRange
| hasDisallowedPadding
| requiresDisallowedPadding.

(** The inner [while (bits >= resultWordLength)] loop of [regroupBits].
    [None] means that the fuel ran out before the loop condition failed. *)
Fixpoint regroupBits_while (fuel : nat) (accumulator resultWordLength maxResultInt : Z)
    (bits : Z) (result : list Z) : option (Z * list Z) :=
  if bits >=? resultWordLength then
    match fuel with
    | O => None
    | S fuel' =>
        let bits' := bits - resultWordLength in
        regroupBits_while fuel' accumulator resultWordLength maxResultInt bits'
          (result ++ [JS.and (JS.sar accumulator bits') maxResultInt])
    end
  else Some (bits, result).

(** The [for] loop of [regroupBits] over [bin]; the state is
    [(accumulator, bits, result)]. [Some (inl e)] is the early [return] of
    an error, [None] is fuel exhaustion of the inner loop. *)
Fixpoint regroupBits_for (fuel : nat) (bin : list Z)
    (sourceWordLength resultWordLength maxResultInt : Z)
    (accumulator bits : Z) (result : list Z)
  : option (BitRegroupingError + (Z * Z * list Z)) :=
  match bin with
  | [] => Some (inr (accumulator, bits, result))
  | value :: rest =>
      if (value <? 0) || negb (JS.sar value sourceWordLength =? 0) then
        Some (inl integerOutOfRange)
      else
        let accumulator' := JS.or (JS.shl accumulator sourceWordLength) value in
        let bits' := bits + sourceWordLength in
        match regroupBits_while fuel accumulator' resultWordLength maxResultInt
                bits' result with
        | None => None
        | Some (bits'', result') =>
            regroupBits_for fuel rest sourceWordLength resultWordLength
              maxResultInt accumulator' bits'' result'
        end
  end.

(** [regroupBits(bin, sourceWordLength, resultWordLength, padding)].
    [fuel] bounds the number of iterations of each run of the inner loop. *)
Definition regroupBits (fuel : nat) (bin : list Z)
    (sourceWordLength resultWordLength : Z) (padding : bool)
  : option (BitRegroupingError + list Z) :=
  let maxResultInt := JS.shl 1 resultWordLength - 1 in
  match regroupBits_for fuel bin sourceWordLength resultWordLength
          maxResultInt 0 0 [] with
  | None => None
  | Some (inl e) => Some (inl e)
  | Some (inr (accumulator, bits, result)) =>
      if padding then
        if bits >? 0 then
          Some (inr (result ++
            [JS.and (JS.shl accumulator (resultWordLength - bits)) maxResultInt]))
        else Some (inr result)
      else if bits >=? sourceWordLength then
        Some (inl hasDisallowedPadding)
      else if JS.and (JS.shl accumulator (resultWordLength - bits)) maxResultInt >? 0 then
        Some (inl requiresDisallowedPadding)
      else Some (inr result)
  end.

(** [nonBech32Characters.test(str)]: some character of [str] is outside the
    character set. *)
Definition nonBech32Characters_test (str : string) : bool :=
  existsb
    (fun c => negb (existsb (Ascii.eqb c) (list_ascii_of_string bech32CharacterSet)))
    (list_ascii_of_string str).

Definition base32WordLength : Z := 5.
Definition base256WordLength : Z := 8.
Definition zero : Z := 0.

Definition isBech32 (maybeBech32 : string) : bool :=
  let expectedPadding :=
    (Z.of_nat (String.length maybeBech32) * base32WordLength) mod base256WordLength in
  let last5Bits :=
    bech32CharacterSetIndex (JS.charAt maybeBech32 (String.length maybeBech32)) in
  let onlyBech32Characters := negb (nonBech32Characters_test maybeBech32) in
  let noExcessivePadding := expectedPadding <? base32WordLength in
  let mask := JS.shl 1 expectedPadding - 1 in
  let expectedPaddingIsZeroFilled :=
    Z.land (JS.toInt32_undefinable last5Bits) (JS.toInt32 mask) =? zero in
  onlyBech32Characters && noExcessivePadding && expectedPaddingIsZeroFilled.

End Bech32.

(** ** Source ranges and [mergeRanges] ([reduce.ts], [resolve.ts]) *)

Module Ranges.

Record Range : Set := mkRange {
  endColumn : Z;
  endLineNumber : Z;
  startColumn : Z;
  startLineNumber : Z
}.

Record StartPosition : Set := mkStartPosition {
  sp_startColumn : Z;
  sp_startLineNumber : Z
}.

Record EndPosition : Set := mkEndPosition {
  ep_endColumn : Z;
  ep_endLineNumber : Z
}.

Definition pluckStartPosition (range : Range) : StartPosition :=
  {| sp_startColumn := startColumn range;
     sp_startLineNumber := startLineNumber range |}.

Definition pluckEndPosition (range : Range) : EndPosition :=
  {| ep_endColumn := endColumn range;
     ep_endLineNumber := endLineNumber range |}.

(** The object literal [{ ...start, ...end }]. *)
Definition spreadPositions (s : StartPosition) (e : EndPosition) : Range :=
  {| endColumn := ep_endColumn e;
     endLineNumber := ep_endLineNumber e;
     startColumn := sp_startColumn s;
     startLineNumber := sp_startLineNumber s |}.

(** The callback given to [ranges.reduce] in [mergeRanges]. *)
Definition mergeRanges_step (merged range : Range) : Range :=
  spreadPositions
    (if startLineNumber range <? startLineNumber merged then
       pluckStartPosition range
     else if (startLineNumber range =? startLineNumber merged)
             && (startColumn range <? startColumn merged) then
       pluckStartPosition range
     else pluckStartPosition merged)
    (if endLineNumber range >? endLineNumber merged then
       pluckEndPosition range
     else if (endLineNumber range =? endLineNumber merged)
             && (endColumn range >? endColumn merged) then
       pluckEndPosition range
     else pluckEndPosition merged).

(** [mergeRanges(ranges)]. The reduction starts from [ranges[0]] and visits
    every element, the first one included. On the empty array
    [ranges[0]] is [undefined], [reduce] returns it untouched and
    [pluckStartPosition(undefined)] throws: the result is [None]. *)
Definition mergeRanges (ranges : list Range) : option Range :=
  match ranges with
  | [] => None
  | first :: _ =>
      let unsortedMerged := fold_left mergeRanges_step ranges first in
      Some (spreadPositions (pluckStartPosition unsortedMerged)
                            (pluckEndPosition unsortedMerged))
  end.

End Ranges.

(** ** Instructions and program states (collaborators of the files above) *)

Module Instructions.

Abbreviation bytes := (list byte).

Definition byteToZ (b : byte) : Z := Z.of_N (Byte.to_N b).

(** [array[i]] for a number [i]: [undefined] when [i] is negative or past
    the end. *)
Definition index {A : Type} (l : list A) (i : Z) : option A :=
  if i <? 0 then None else l !! Z.to_nat i.

(** [array.length] as a number. *)
Definition len {A : Type} (l : list A) : Z := Z.of_nat (length l).

(** Modelled from the spec: the instruction record produced by the absent
    [parseBytecode], section 3: [{opcode: byte, data?: bytes}], data present
    for push opcodes only; section 4.6: a final instruction whose declared
    payload exceeds the remaining bytes carries a malformed marker. *)
Record AuthenticationInstruction : Set := mkInstruction {
  opcode : byte;
  data : option bytes;
  malformed : bool
}.

(** Modelled from the spec: the absent
    [authenticationInstructionsAreMalformed], section 4.6: the last element
    of the list carries the malformed marker. *)
Definition authenticationInstructionsAreMalformed
    (instructions : list AuthenticationInstruction) : bool :=
  match last instructions with
  | Some i => malformed i
  | None => false
  end.

(** Modelled from the spec: the absent [flattenBinArray] of
    [utils/utils], the concatenation of a list of byte arrays
    (section 4.5: the parent's bytecode is the concatenation of the
    children's bytecode). *)
Definition flattenBinArray (array : list bytes) : bytes := concat array.

End Instructions.

(** ** [src/lib/address/bech32.ts], continued: the codec *)

Module Bech32Codec.
Import Bech32 Instructions.

(** [bech32CharacterSet[i]] for a number [i]: [undefined] outside the 32
    symbols. *)
Definition characterAt (i : Z) : option ascii :=
  if i <? 0 then None else String.get (Z.to_nat i) bech32CharacterSet.

(** [result += c]: an [undefined] operand appends the text
    [undefined]. *)
Definition appendCharacter (result : string) (c : option ascii) : string :=
  match c with
  | Some c => (result ++ String c EmptyString)%string
  | None => (result ++ "undefined")%string
  end.

Definition encodeBech32 (base32IntegerArray : list Z) : string :=
  fold_left (fun result v => appendCharacter result (characterAt v))
    base32IntegerArray EmptyString.

(** [decodeBech32]: one entry per character, [undefined] for a character
    outside the character set. *)
Definition decodeBech32 (validBech32 : string) : list (option Z) :=
  List.map (fun c => bech32CharacterSetIndex (Some c))
    (list_ascii_of_string validBech32).

Inductive Bech32DecodingError : Set := notBech32Padded.

(** [bech32PaddedToBin]: an error message of either enumeration, or the
    bytes. [fuel] is handed to [regroupBits]. *)
Definition bech32PaddedToBin (fuel : nat) (bech32Padded : string)
  : option ((BitRegroupingError + Bech32DecodingError) + bytes) :=
  if isBech32 bech32Padded then
    match regroupBits fuel (List.map JS.bitOperand (decodeBech32 bech32Padded))
            base32WordLength base256WordLength false with
    | None => None
    | Some (inl e) => Some (inl (inl e))
    | Some (inr result) => Some (inr (List.map JS.toUint8 result))
    end
  else Some (inl (inr notBech32Padded)).

(** The messages of [BitRegroupingError]. *)
Definition regroupingMessage (e : BitRegroupingError) : string :=
  match e with
  | integerOutOfRange =>
      "An integer provided in the source array is out of the range of the specified source word length."
  | hasDisallowedPadding => "Encountered padding when padding was disallowed."
  | requiresDisallowedPadding =>
      "Encoding requires padding while padding is disallowed."
  end.

(** [bech32CharacterSet[c]] for a one-character string [c], as happens
    when [encodeBech32] is handed a string: a decimal digit is an index,
    every other character is no property of the string. *)
Definition characterAtKey (c : ascii) : option ascii :=
  let n := Z.of_nat (nat_of_ascii c) in
  if (48 <=? n) && (n <=? 57) then characterAt (n - 48) else None.

(** [binToBech32Padded]. The result of [regroupBits] is cast to
    [number[]]; were it an error message, [encodeBech32] would walk the
    characters of the message. *)
Definition binToBech32Padded (fuel : nat) (bin : bytes) : option string :=
  match regroupBits fuel (List.map byteToZ bin)
          base256WordLength base32WordLength true with
  | None => None
  | Some (inr words) => Some (encodeBech32 words)
  | Some (inl e) =>
      Some (fold_left (fun result c => appendCharacter result (characterAtKey c))
              (list_ascii_of_string (regroupingMessage e)) EmptyString)
  end.

End Bech32Codec.

(** ** [src/lib/auth/templates/language/reduce.ts] and the resolved tree of
    [resolve.ts] *)

Module Reduce.
Import Ranges Instructions.

Record ErrorInformation : Set := mkErrorInformation {
  error : string;
  ei_range : Range
}.

Inductive LiteralType : Set := BigIntLiteral | HexLiteral | UTF8Literal.

(** [ResolvedSegment] of [resolve.ts]; a [ResolvedScript] is a list of
    segments. The four shapes of a ['bytecode'] segment are separate
    constructors. *)
Inductive ResolvedSegment : Set :=
| SegmentPush (range : Range) (value : list ResolvedSegment)
| SegmentEvaluation (range : Range) (value : list ResolvedSegment)
| SegmentLiteralBytecode (range : Range) (literalType : LiteralType) (value : bytes)
| SegmentOpcodeBytecode (range : Range) (opcode : string) (value : bytes)
| SegmentVariableBytecode (range : Range) (variable : string) (value : bytes)
| SegmentScriptBytecode (range : Range) (script : string)
    (source : list ResolvedSegment) (value : bytes)
| SegmentComment (range : Range) (value : string)
| SegmentError (range : Range) (value : string).

Abbreviation ResolvedScript := (list ResolvedSegment).

(** What the reducer needs from a program state:
    [StackState & { error?: string }]. *)
Class StackState (ProgramState : Type) := {
  stack : ProgramState -> list bytes;
  stateError : ProgramState -> option string
}.

(** The one method of [AuthenticationVirtualMachine] the reducer calls. *)
Record AuthenticationVirtualMachine (ProgramState : Type) := mkVM {
  stateDebug : ProgramState -> list ProgramState
}.
Arguments stateDebug {ProgramState} _ _.

Section WithProgramState.

Context {ProgramState : Type} `{StackState ProgramState}.

(** Collaborators imported from ['../../auth'], absent from the sources at
    hand and taken as parameters. *)
Variable parseBytecode : bytes -> list AuthenticationInstruction.
Variable authenticationInstructionsAreNotMalformed :
  list AuthenticationInstruction -> bool.
Variable disassembleBytecode : bytes -> string.
Variable encodeDataPush : bytes -> bytes.

(** [EvaluationSample]: [state] may be [undefined]. *)
Record EvaluationSample := mkSample {
  sample_range : Range;
  sample_state : option ProgramState
}.

(** [ScriptReductionTraceChildNode] in all its shapes: [errors], [source]
    and [samples] are optional properties. *)
Inductive ScriptReductionTraceNode :=
| mkNode (bytecode : bytes) (errors : option (list ErrorInformation))
    (range : Range) (source : option (list ScriptReductionTraceNode))
    (samples : option (list EvaluationSample)).

Definition bytecode (n : ScriptReductionTraceNode) : bytes :=
  match n with mkNode b _ _ _ _ => b end.
Definition errors (n : ScriptReductionTraceNode) : option (list ErrorInformation) :=
  match n with mkNode _ e _ _ _ => e end.
Definition range (n : ScriptReductionTraceNode) : Range :=
  match n with mkNode _ _ r _ _ => r end.
Definition source (n : ScriptReductionTraceNode)
  : option (list ScriptReductionTraceNode) :=
  match n with mkNode _ _ _ s _ => s end.
Definition samples (n : ScriptReductionTraceNode) : option (list EvaluationSample) :=
  match n with mkNode _ _ _ _ s => s end.

Definition emptyReductionTraceNode (range : Range) : ScriptReductionTraceNode :=
  mkNode [] None range None None.

Record InstructionAggregation : Set := mkAggregation {
  instructions : list AuthenticationInstruction;
  lastIp : Z;
  ag_range : Range
}.

(** [InstructionAggregationResult]: [success] is [false] exactly when the
    remaining bytecode and range are present. *)
Record InstructionAggregationResult : Set := mkAggregationResult {
  aggregations : list InstructionAggregation;
  remaining : option (bytes * Range)
}.

Definition ar_success (r : InstructionAggregationResult) : bool :=
  match remaining r with None => true | Some _ => false end.

(** The [for (const node of nodes)] loop of
    [aggregatedParseReductionTraceNodes]; the state is
    [(aggregations, ip, incomplete)]. *)
Fixpoint aggregatedParse_loop (nodes : list ScriptReductionTraceNode)
    (aggs : list InstructionAggregation) (ip : Z)
    (incomplete : option (bytes * Range))
  : option (list InstructionAggregation * Z * option (bytes * Range)) :=
  match nodes with
  | [] => Some (aggs, ip, incomplete)
  | node :: rest =>
      let bytecode' :=
        match incomplete with
        | None => bytecode node
        | Some (b, _) => flattenBinArray [b; bytecode node]
        end in
      range' ← match incomplete with
               | None => Some (range node)
               | Some (_, r) => mergeRanges [r; range node]
               end;
      let parsed := parseBytecode bytecode' in
      if len parsed =? 0 then
        aggregatedParse_loop rest
          (aggs ++ [mkAggregation [] ip range']) ip None
      else if authenticationInstructionsAreNotMalformed parsed then
        let ip' := ip + len parsed in
        aggregatedParse_loop rest
          (aggs ++ [mkAggregation parsed ip' range']) ip' None
      else
        aggregatedParse_loop rest aggs ip (Some (bytecode', range'))
  end.

Definition aggregatedParseReductionTraceNodes
    (nodes : list ScriptReductionTraceNode) : option InstructionAggregationResult :=
  '(aggs, _, incomplete) ← aggregatedParse_loop nodes [] 0 None;
  Some (mkAggregationResult aggs incomplete).

(** [InstructionAggregationEvaluationResult]. *)
Inductive InstructionAggregationEvaluationResult :=
| EvaluationSuccess (samples : list EvaluationSample)
| EvaluationError (errors : list ErrorInformation) (samples : list EvaluationSample).

Definition er_success (r : InstructionAggregationEvaluationResult) : bool :=
  match r with EvaluationSuccess _ => true | EvaluationError _ _ => false end.

Definition er_samples (r : InstructionAggregationEvaluationResult)
  : list EvaluationSample :=
  match r with EvaluationSuccess s => s | EvaluationError _ s => s end.

(** [samples.findIndex(sample => sample.state === undefined)]. *)
Fixpoint findIndex_undefined (samples : list EvaluationSample) (i : Z) : Z :=
  match samples with
  | [] => -1
  | s :: rest =>
      match sample_state s with
      | None => i
      | Some _ => findIndex_undefined rest (i + 1)
      end
  end.

(** The template literal [`${state.error}`] of a possibly [undefined]
    string. *)
Definition showError (e : option string) : string :=
  match e with Some s => s | None => "undefined" end.

Definition evaluateInstructionAggregations
    (aggregations : list InstructionAggregation)
    (vm : AuthenticationVirtualMachine ProgramState)
    (getState : list AuthenticationInstruction -> ProgramState)
  : InstructionAggregationEvaluationResult :=
  let nonEmptyAggregations :=
    List.filter (fun aggregation => len (instructions aggregation) >? 0)
      aggregations in
  let evaluationPlan :=
    fold_left
      (fun plan aggregation =>
         (fst plan ++ [(lastIp aggregation, ag_range aggregation)],
          snd plan ++ instructions aggregation))
      nonEmptyAggregations ([], []) in
  let trace := stateDebug vm (getState (snd evaluationPlan)) in
  let samples :=
    List.map (fun breakpoint : Z * Range =>
           mkSample (snd breakpoint) (index trace (fst breakpoint - 1)))
      (fst evaluationPlan) in
  let firstInvalidSample := findIndex_undefined samples 0 in
  let errorSample :=
    match index samples (firstInvalidSample - 1) with
    | Some s => Some s
    | None => index samples firstInvalidSample
    end in
  match errorSample with
  | None => EvaluationSuccess samples
  | Some errorSample =>
      EvaluationError
        [mkErrorInformation
           match sample_state errorSample with
           | None =>
               "Failed to reduce evaluation: vm.debug produced no valid program states."
           | Some state =>
               "Failed to reduce evaluation: " ++ showError (stateError state)
           end%string
           (sample_range errorSample)]
        samples
  end.

(** [SampledEvaluationResult]; [se_errors] is present exactly when
    [success] is [false]. *)
Record SampledEvaluationResult := mkSampled {
  se_bytecode : bytes;
  se_errors : option (list ErrorInformation);
  se_samples : list EvaluationSample
}.

Definition se_success (r : SampledEvaluationResult) : bool :=
  match se_errors r with None => true | Some _ => false end.

Definition sampledEvaluateReductionTraceNodes
    (nodes : list ScriptReductionTraceNode)
    (vm : AuthenticationVirtualMachine ProgramState)
    (getState : list AuthenticationInstruction -> ProgramState)
  : option SampledEvaluationResult :=
  parsed ← aggregatedParseReductionTraceNodes nodes;
  let evaluated :=
    evaluateInstructionAggregations (aggregations parsed) vm getState in
  if ar_success parsed && er_success evaluated then
    samples ←
      (if len (er_samples evaluated) >? 0 then Some (er_samples evaluated)
       else
         first ← index (aggregations parsed) 0;
         Some [mkSample (ag_range first) (Some (getState []))]);
    lastSample ← index samples (len samples - 1);
    state ← sample_state lastSample;
    let lastStackItem := index (stack state) (len (stack state) - 1) in
    let evaluationResult :=
      match lastStackItem with
      | None => []
      | Some item => item
      end in
    Some (mkSampled evaluationResult None samples)
  else
    Some (mkSampled []
            (Some
               (match remaining parsed with
                | None => []
                | Some (remainingBytecode, remainingRange) =>
                    [mkErrorInformation
                       ("A sample is malformed and cannot be evaluated: "
                          ++ disassembleBytecode remainingBytecode)%string
                       remainingRange]
                end ++
                match evaluated with
                | EvaluationSuccess _ => []
                | EvaluationError errors _ => errors
                end))
            (er_samples evaluated)).

(** The [source.reduce] of [reduceScript]; the accumulator is
    [{ bytecode, errors?, ranges }]. *)
Definition reduction_step
    (all : list bytes * option (list ErrorInformation) * list Range)
    (segment : ScriptReductionTraceNode)
  : list bytes * option (list ErrorInformation) * list Range :=
  let '(all_bytecode, all_errors, all_ranges) := all in
  (all_bytecode ++ [bytecode segment],
   match all_errors, errors segment with
   | None, None => None
   | _, _ =>
       Some (match all_errors with None => [] | Some e => e end ++
             match errors segment with None => [] | Some e => e end)
   end,
   all_ranges ++ [range segment]).

(** The tail of [reduceScript] once [source] is computed. *)
Definition reduceScript_finish (source : list ScriptReductionTraceNode)
  : option ScriptReductionTraceNode :=
  let '(r_bytecode, r_errors, r_ranges) :=
    fold_left reduction_step source ([], None, []) in
  merged ← mergeRanges r_ranges;
  Some (mkNode (flattenBinArray r_bytecode) r_errors merged (Some source) None).

(** The callback of [compiledScript.map] in [reduceScript], by recursion on
    the segment; [reduceAll value] followed by [reduceScript_finish] is the
    recursive call [reduceScript(segment.value, vm, createState)]. *)
Fixpoint reduceSegment
    (vm : option (AuthenticationVirtualMachine ProgramState))
    (createState : option (list AuthenticationInstruction -> ProgramState))
    (segment : ResolvedSegment) {struct segment}
  : option ScriptReductionTraceNode :=
  let reduceAll :=
    fix reduceAll (script : list ResolvedSegment)
      : option (list ScriptReductionTraceNode) :=
      match script with
      | [] => Some []
      | s :: rest =>
          match reduceSegment vm createState s with
          | None => None
          | Some n =>
              match reduceAll rest with
              | None => None
              | Some ns => Some (n :: ns)
              end
          end
      end in
  match segment with
  | SegmentLiteralBytecode range _ value
  | SegmentOpcodeBytecode range _ value
  | SegmentVariableBytecode range _ value
  | SegmentScriptBytecode range _ _ value =>
      Some (mkNode value None range None None)
  | SegmentPush range value =>
      if len value =? 0 then Some (emptyReductionTraceNode range)
      else
        push ← reduceAll value ≫= reduceScript_finish;
        Some (mkNode (encodeDataPush (bytecode push)) (errors push) range
                (Some [push]) None)
  | SegmentEvaluation range value =>
      if len value =? 0 then Some (emptyReductionTraceNode range)
      else
        match vm, createState with
        | Some vm', Some createState' =>
            reductionTrace ← reduceAll value ≫= reduceScript_finish;
            nodes ← source reductionTrace;
            evaluated ← sampledEvaluateReductionTraceNodes nodes vm' createState';
            let errors' :=
              match errors reductionTrace with None => [] | Some e => e end ++
              match se_errors evaluated with None => [] | Some e => e end in
            Some (if len errors' >? 0 then
                    mkNode [] (Some errors') range (Some [reductionTrace])
                      (Some (se_samples evaluated))
                  else
                    mkNode (se_bytecode evaluated) None range
                      (Some [reductionTrace]) (Some (se_samples evaluated)))
        | _, _ =>
            Some (mkNode []
                    (Some [mkErrorInformation
                       "Both a VM and a createState method are required to reduce evaluations."
                       range])
                    range None None)
        end
  | SegmentComment range _ => Some (emptyReductionTraceNode range)
  | SegmentError range value =>
      Some (mkNode []
              (Some [mkErrorInformation
                 ("Tried to reduce a BTL script with resolution errors: " ++ value)%string
                 range])
              range None None)
  end.

(** [compiledScript.map(...)]. *)
Fixpoint reduceSegments
    (vm : option (AuthenticationVirtualMachine ProgramState))
    (createState : option (list AuthenticationInstruction -> ProgramState))
    (script : ResolvedScript) : option (list ScriptReductionTraceNode) :=
  match script with
  | [] => Some []
  | s :: rest =>
      match reduceSegment vm createState s with
      | None => None
      | Some n =>
          match reduceSegments vm createState rest with
          | None => None
          | Some ns => Some (n :: ns)
          end
      end
  end.

Definition reduceScript (compiledScript : ResolvedScript)
    (vm : option (AuthenticationVirtualMachine ProgramState))
    (createState : option (list AuthenticationInstruction -> ProgramState))
  : option ScriptReductionTraceNode :=
  reduceSegments vm createState compiledScript ≫= reduceScript_finish.

End WithProgramState.

End Reduce.

(** ** [src/lib/auth/instruction-sets/bch/bch-instruction-sets.ts] *)

Module BCH.
Import Instructions.

(** Modelled from the spec: the opcode numbers of the absent
    [bch-opcodes], section 6: [OP_HASH160(0xa9)], [OP_PUSHBYTES_20(0x14)],
    [OP_EQUAL(0x87)], [OP_16(0x60)]. *)
Definition OP_HASH160 : Z := 169.
Definition OP_PUSHBYTES_20 : Z := 20.
Definition OP_EQUAL : Z := 135.
Definition OP_16 : Z := 96.

(** Modelled from the spec: [ConsensusCommon.maximumBytecodeLength],
    section 4.7: max bytecode length 10_000. *)
Definition maximumBytecodeLength : Z := 10000.

(** The members of [AuthenticationErrorCommon] and [AuthenticationErrorBCH]
    that [evaluate] names; [operationError] stands for every error that
    only the operations raise. *)
Inductive AuthenticationErrorBCH : Set :=
| exceededMaximumBytecodeLengthUnlocking
| malformedUnlockingBytecode
| exceededMaximumBytecodeLengthLocking
| malformedLockingBytecode
| requiresPushOnly
| malformedP2shBytecode
| operationError (message : string).

Module PayToScriptHash.
Definition length : Z := 3.
Definition lastElement : Z := 2.
End PayToScriptHash.

Module SegWit.
Definition minimumLength : Z := 4.
Definition maximumLength : Z := 42.
Definition OP_0 : Z := 0.
Definition OP_1 : Z := 81.
Definition OP_16 : Z := 96.
Definition versionAndLengthBytes : Z := 2.
End SegWit.

(** [instructions[i].opcode === code]. The reads are guarded by the length
    test in front of them, so the [undefined] case is never reached. *)
Definition opcodeAt (instructions : list AuthenticationInstruction) (i code : Z)
  : bool :=
  match index instructions i with
  | Some instruction => byteToZ (opcode instruction) =? code
  | None => false
  end.

Definition isPayToScriptHash
    (verificationInstructions : list AuthenticationInstruction) : bool :=
  (len verificationInstructions =? PayToScriptHash.length)
  && opcodeAt verificationInstructions 0 OP_HASH160
  && opcodeAt verificationInstructions 1 OP_PUSHBYTES_20
  && opcodeAt verificationInstructions PayToScriptHash.lastElement OP_EQUAL.

(** [isWitnessProgram]. A comparison with [bytecode[i]] when it is
    [undefined] is [false], and [undefined + 2] is [NaN], never equal to a
    length. *)
Definition isWitnessProgram (bytecode : bytes) : bool :=
  let correctLength :=
    (len bytecode >=? SegWit.minimumLength)
    && (len bytecode <=? SegWit.maximumLength) in
  let validVersionPush :=
    match index bytecode 0 with
    | Some b0 =>
        (byteToZ b0 =? SegWit.OP_0)
        || ((byteToZ b0 >=? SegWit.OP_1) && (byteToZ b0 <=? SegWit.OP_16))
    | None => false
    end in
  let correctLengthByte :=
    match index bytecode 1 with
    | Some b1 => byteToZ b1 + SegWit.versionAndLengthBytes =? len bytecode
    | None => false
    end in
  correctLength && validVersionPush && correctLengthByte.

Definition isPushOperation (opcode : Z) : bool := opcode <? OP_16.

(** The instruction sets and their flags. The [default] branch of the
    [switch] of [getFlagsForInstructionSetBCH] is reached by no member of
    the enumeration. *)
Inductive InstructionSetBCH : Set :=
| BCH_2019_05
| BCH_2019_05_STRICT
| BCH_2019_11_SPEC
| BCH_2019_11_STRICT_SPEC.

Definition instructionSetBCHCurrentStrict : InstructionSetBCH := BCH_2019_05_STRICT.

Record InstructionSetFlags : Set := mkFlags {
  disallowUpgradableNops : bool;
  requireBugValueZero : bool;
  requireMinimalEncoding : bool;
  requireNullSignatureFailures : bool
}.

Definition getFlagsForInstructionSetBCH (instructionSet : InstructionSetBCH)
  : InstructionSetFlags :=
  match instructionSet with
  | BCH_2019_05 =>
      {| disallowUpgradableNops := false;
         requireBugValueZero := false;
         requireMinimalEncoding := false;
         requireNullSignatureFailures := true |}
  | BCH_2019_05_STRICT =>
      {| disallowUpgradableNops := true;
         requireBugValueZero := false;
         requireMinimalEncoding := true;
         requireNullSignatureFailures := true |}
  | BCH_2019_11_SPEC =>
      {| disallowUpgradableNops := false;
         requireBugValueZero := true;
         requireMinimalEncoding := true;
         requireNullSignatureFailures := true |}
  | BCH_2019_11_STRICT_SPEC =>
      {| disallowUpgradableNops := true;
         requireBugValueZero := true;
         requireMinimalEncoding := true;
         requireNullSignatureFailures := true |}
  end.

Record Input : Set := mkInput { unlockingBytecode : bytes }.
Record Output : Set := mkOutput { lockingBytecode : bytes }.
Record Transaction : Set := mkTransaction { inputs : list Input }.

(** The fields of [AuthenticationProgramBCH] that [evaluate] reads. *)
Record AuthenticationProgramBCH : Set := mkProgram {
  inputIndex : Z;
  sourceOutput : Output;
  spendingTransaction : Transaction
}.

Section WithExternalState.

Context {ExternalState : Type}.

(** Modelled from the spec: [AuthenticationProgramStateBCH], section 3:
    [{instructions, ip, stack, alternateStack, executionStack,
    lastCodeSeparator, operationCount, error?, externalState}]. *)
Record AuthenticationProgramStateBCH := mkState {
  instructions : list AuthenticationInstruction;
  ip : Z;
  stack : list bytes;
  alternateStack : list bytes;
  executionStack : list bool;
  lastCodeSeparator : Z;
  operationCount : Z;
  error : option AuthenticationErrorBCH;
  externalState : ExternalState
}.

(** Modelled from the spec: the absent
    [createAuthenticationProgramStateCommon], section 4.8 step 2 and
    section 3 (lifecycle): a fresh state over the given instructions and
    stack, with the external state, nothing executed yet and no error. *)
Definition createAuthenticationProgramStateCommon
    (instructions : list AuthenticationInstruction) (stack : list bytes)
    (externalState : ExternalState) : AuthenticationProgramStateBCH :=
  {| instructions := instructions;
     ip := 0;
     stack := stack;
     alternateStack := [];
     executionStack := [];
     lastCodeSeparator := -1;
     operationCount := 0;
     error := None;
     externalState := externalState |}.

(** Modelled from the spec: the absent [applyError], section 7: errors set
    [state.error]; every other field is kept. *)
Definition applyError (e : AuthenticationErrorBCH)
    (state : AuthenticationProgramStateBCH) : AuthenticationProgramStateBCH :=
  {| instructions := instructions state;
     ip := ip state;
     stack := stack state;
     alternateStack := alternateStack state;
     executionStack := executionStack state;
     lastCodeSeparator := lastCodeSeparator state;
     operationCount := operationCount state;
     error := Some e;
     externalState := externalState state |}.

(** Modelled from the spec: the absent [cloneStack], section 4.8 step 7:
    a copy of the stack; arrays are values here, so the copy is the list
    itself. *)
Definition cloneStack (stack : list bytes) : list bytes := stack.

(** Modelled from the spec: the absent [stackItemIsTruthy], section 4.8:
    truthy = non-empty and not all-zero except an optional negative-zero
    sign bit (0x80 in the last byte). *)
Fixpoint stackItemIsTruthy (item : bytes) : bool :=
  match item with
  | [] => false
  | [b] => negb ((byteToZ b =? 0) || (byteToZ b =? 128))
  | b :: rest => negb (byteToZ b =? 0) || stackItemIsTruthy rest
  end.

(** Collaborators absent from the sources at hand, taken as parameters. *)
Variable parseBytecode : bytes -> list AuthenticationInstruction.
Variable authenticationInstructionsAreMalformed :
  list AuthenticationInstruction -> bool.
Variable createAuthenticationProgramExternalStateCommon :
  AuthenticationProgramBCH -> ExternalState.

(** [continue] *)
Definition continue (state : AuthenticationProgramStateBCH) : bool :=
  match error state with None => true | Some _ => false end
  && (ip state <? len (instructions state)).

(** The constant [unlockingResult] of [evaluate]. *)
Definition unlockingResult
    (stateEvaluate : AuthenticationProgramStateBCH -> AuthenticationProgramStateBCH)
    (unlockingBytecode lockingBytecode : bytes)
    (unlockingInstructions lockingInstructions : list AuthenticationInstruction)
    (initialState : AuthenticationProgramStateBCH)
  : AuthenticationProgramStateBCH :=
  if len unlockingBytecode >? maximumBytecodeLength then
    applyError exceededMaximumBytecodeLengthUnlocking initialState
  else if authenticationInstructionsAreMalformed unlockingInstructions then
    applyError malformedUnlockingBytecode initialState
  else if len lockingBytecode >? maximumBytecodeLength then
    applyError exceededMaximumBytecodeLengthLocking initialState
  else if authenticationInstructionsAreMalformed lockingInstructions then
    applyError malformedLockingBytecode initialState
  else if forallb (fun instruction => isPushOperation (byteToZ (opcode instruction)))
            (instructions initialState) then
    stateEvaluate initialState
  else applyError requiresPushOnly initialState.

(** [evaluate(program, stateEvaluate)]. Destructuring
    [program.spendingTransaction.inputs[program.inputIndex]] throws when
    there is no such input: the result is then [None]. [stateEvaluate] is
    a function on values: it leaves the state it is given, and the stack
    in it, untouched (specification, section 5). [p2shStack.pop()] removes
    and returns the last element; the object literal
    [{ ...lockingResult, error }] is [applyError]. *)
Definition evaluate (program : AuthenticationProgramBCH)
    (stateEvaluate : AuthenticationProgramStateBCH -> AuthenticationProgramStateBCH)
  : option AuthenticationProgramStateBCH :=
  input ← index (inputs (spendingTransaction program)) (inputIndex program);
  let unlockingBytecode := unlockingBytecode input in
  let lockingBytecode := lockingBytecode (sourceOutput program) in
  let unlockingInstructions := parseBytecode unlockingBytecode in
  let lockingInstructions := parseBytecode lockingBytecode in
  let externalState := createAuthenticationProgramExternalStateCommon program in
  let initialState :=
    createAuthenticationProgramStateCommon unlockingInstructions [] externalState in
  let unlockingResult :=
    unlockingResult stateEvaluate unlockingBytecode lockingBytecode
      unlockingInstructions lockingInstructions initialState in
  match error unlockingResult with
  | Some _ => Some unlockingResult
  | None =>
      let lockingResult :=
        stateEvaluate
          (createAuthenticationProgramStateCommon lockingInstructions
             (stack unlockingResult) externalState) in
      if negb (isPayToScriptHash lockingInstructions) then Some lockingResult
      else
        let cloned := cloneStack (stack unlockingResult) in
        let p2shStack := removelast cloned in
        let p2shScript := default [] (last cloned) in
        if (len p2shStack =? 0) && isWitnessProgram p2shScript then
          Some lockingResult
        else
          let p2shInstructions := parseBytecode p2shScript in
          if authenticationInstructionsAreMalformed p2shInstructions then
            Some (applyError malformedP2shBytecode lockingResult)
          else
            Some (stateEvaluate
                    (createAuthenticationProgramStateCommon p2shInstructions
                       p2shStack externalState))
  end.

(** [verify] *)
Definition verify (state : AuthenticationProgramStateBCH) : bool :=
  match error state with None => true | Some _ => false end
  && (len (executionStack state) =? 0)
  && (len (stack state) =? 1)
  && match index (stack state) 0 with
     | Some item => stackItemIsTruthy item
     | None => false
     end.

End WithExternalState.

Arguments AuthenticationProgramStateBCH : clear implicits.

End BCH.

(** ** [src/lib/template/language/resolve.ts] *)

Module Resolve.
Import Ranges Instructions Reduce.

(** [identifier.split('.')]: the pieces between the dots, at least one. *)
Fixpoint split_dot (s : string) : list string :=
  match s with
  | EmptyString => [EmptyString]
  | String c rest =>
      if Ascii.eqb c "."%char then EmptyString :: split_dot rest
      else
        match split_dot rest with
        | [] => [String c EmptyString]
        | piece :: pieces => String c piece :: pieces
        end
  end.

(** [array.join(separator)] on strings. *)
Definition join (separator : string) (pieces : list string) : string :=
  String.concat separator pieces.

(** A piece of text between double quotes, as the messages of the source
    print identifiers. *)
Definition quoted (s : string) : string :=
  (String (ascii_of_nat 34) s ++ String (ascii_of_nat 34) EmptyString)%string.

(** A template literal printing an integer number. *)
Definition showNumber (n : Z) : string :=
  DecimalString.NilZero.string_of_int (Z.to_int n).

(** The members that every plain object inherits from
    [Object.prototype]. *)
Definition objectPrototypeMembers : list string :=
  ["constructor"; "hasOwnProperty"; "isPrototypeOf"; "propertyIsEnumerable";
   "toLocaleString"; "toString"; "valueOf"; "__defineGetter__";
   "__defineSetter__"; "__lookupGetter__"; "__lookupSetter__"; "__proto__"].

Definition isObjectPrototypeMember (key : string) : bool :=
  existsb (String.eqb key) objectPrototypeMembers.

(** What [object[key]] finds on a plain object: a property of its own, or
    else the member of that name inherited from [Object.prototype], which
    is no value of the type the table declares. *)
Inductive Property (T : Type) : Type :=
| Own (value : T)
| Inherited (member : string).
Arguments Own {T} _.
Arguments Inherited {T} _.

(** [object[key]]; [None] is [undefined]. *)
Definition getProperty {T : Type} (object : gmap string T) (key : string)
  : option (Property T) :=
  match object !! key with
  | Some value => Some (Own value)
  | None =>
      if isObjectPrototypeMember key then Some (Inherited key) else None
  end.

(** A result of type [T | string | false]. *)
Inductive Attempt (T : Type) : Type :=
| Resolved (value : T)
| Failed (message : string)
| NotRecognized.
Arguments Resolved {T} _.
Arguments Failed {T} _.
Arguments NotRecognized {T}.

Inductive VariableType : Set := AddressData | HdKey | Key | WalletData.

Record AuthenticationTemplateVariable : Set := mkVariable {
  type : VariableType
}.

(** [matchingOperations]: a single operation or a mapping from operation
    identifiers to operations. *)
Inductive OperationTable (Operation : Type) : Type :=
| SingleOperation (operation : Operation)
| OperationMapping (operations : gmap string Operation).
Arguments SingleOperation {Operation} _.
Arguments OperationMapping {Operation} _.

Record Operations (Operation : Type) : Type := mkOperations {
  currentBlockHeight : option (OperationTable Operation);
  currentBlockTime : option (OperationTable Operation);
  signingSerialization : option (OperationTable Operation);
  addressData : option (OperationTable Operation);
  hdKey : option (OperationTable Operation);
  key : option (OperationTable Operation);
  walletData : option (OperationTable Operation)
}.
Arguments currentBlockHeight {Operation} _.
Arguments currentBlockTime {Operation} _.
Arguments signingSerialization {Operation} _.
Arguments addressData {Operation} _.
Arguments hdKey {Operation} _.
Arguments key {Operation} _.
Arguments walletData {Operation} _.

(** [CompilationEnvironment]: the tables that [resolve.ts] reads.
    [Operation] names the compiler operations; they are applied through
    [applyOperation] below, which receives the environment like the
    functions of the source do. *)
Record CompilationEnvironment (Operation : Type) : Type := mkEnvironment {
  opcodes : option (gmap string bytes);
  operations : option (Operations Operation);
  scripts : gmap string string;
  sourceScriptIds : option (list string);
  variables : option (gmap string AuthenticationTemplateVariable)
}.
Arguments opcodes {Operation} _.
Arguments operations {Operation} _.
Arguments scripts {Operation} _.
Arguments sourceScriptIds {Operation} _.
Arguments variables {Operation} _.

(** The result of the absent [compileScript], as [resolve.ts] reads it:
    [success], then [bytecode] and [resolve], or [errors]. *)
Inductive CompilationResult : Set :=
| CompilationResultSuccess (bytecode : bytes) (resolve : ResolvedScript)
| CompilationResultError (errors : list ErrorInformation).

(** What a compiler operation returns: the bytes or an error string. When
    the operation is a member inherited from [Object.prototype], the
    source returns whatever the call [member(identifier, data,
    environment)] of that built-in function makes (or throws): that value
    is named here and not described further. *)
Inductive OperationResult : Set :=
| OperationBytecode (bytecode : bytes)
| OperationError (message : string)
| OperationInherited (member : string).

(** [IdentifierResolutionFunction]'s four result shapes. *)
Inductive IdentifierResolutionType : Set := type_opcode | type_variable | type_script.
Inductive IdentifierResolutionErrorType : Set :=
  error_unknown | error_variable | error_script.

Inductive IdentifierResolution : Set :=
| ResolutionBytecode (bytecode : bytes)
    (type : IdentifierResolutionType) (source : option ResolvedScript)
| ResolutionError (error : string)
    (type : IdentifierResolutionErrorType) (scriptId : option string).

Definition status (r : IdentifierResolution) : bool :=
  match r with ResolutionBytecode _ _ _ => true | ResolutionError _ _ _ => false end.


(** What the resolver returns at run time: a value of the declared result
    type, or, at an identifier that hits a member inherited from
    [Object.prototype], one of two values outside it:
    [{ bytecode: member, status: true, type: 'opcode' }], whose bytecode is
    the inherited member and no byte array, and the result of the variable
    branch on the call of an inherited member as a compiler operation,
    which depends on what that call returns. *)
Inductive ResolverResult : Set :=
| Declared (resolution : IdentifierResolution)
| InheritedOpcode (member : string)
| InheritedOperation (member : string).


(** The parse tree of the absent [parse.ts], as [resolveScriptSegment]
    reads it: every node is marked with [start] and [end] positions; a
    script segment holds its children in [value]. *)
Record Position : Set := mkPosition { column : Z; line : Z }.

Record MarkedNode : Set := mkMarked { node_end : Position; node_start : Position }.

Inductive BtlChild : Set :=
| Identifier (mark : MarkedNode) (value : string)
| Push (mark : MarkedNode) (segmentMark : MarkedNode) (value : list BtlChild)
| Evaluation (mark : MarkedNode) (segmentMark : MarkedNode) (value : list BtlChild)
| BigIntLiteralNode (mark : MarkedNode) (value : Z)
| HexLiteralNode (mark : MarkedNode) (value : string)
| UTF8LiteralNode (mark : MarkedNode) (value : string)
| CommentNode (mark : MarkedNode) (value : string)
| UnrecognizedNode (mark : MarkedNode) (name : string).

Record BtlScriptSegment : Set := mkSegment {
  segment_mark : MarkedNode;
  segment_value : list BtlChild
}.

Definition pluckRange (node : MarkedNode) : Range :=
  {| endColumn := column (node_end node);
     endLineNumber := line (node_end node);
     startColumn := column (node_start node);
     startLineNumber := line (node_start node) |}.

Module BuiltInVariables.
Definition currentBlockTime : string := "current_block_time".
Definition currentBlockHeight : string := "current_block_height".
Definition signingSerialization : string := "signing_serialization".
End BuiltInVariables.

Section WithOperations.

Context {Operation CompilationData : Type}.

(** Calling a compiler operation:
    [operation(identifier, data, environment)] returns the bytes or an
    error string. *)
Variable applyOperation :
  Operation -> string -> CompilationData -> CompilationEnvironment Operation ->
  bytes + string.

(** Codecs imported by [resolve.ts], absent from the sources at hand. *)
Variable bigIntToScriptNumber : Z -> bytes.
Variable hexToBin : string -> bytes.
Variable utf8ToBin : string -> bytes.

(** The absent [compileScript] that [resolveScriptIdentifier] calls. *)
Variable compileScript :
  string -> CompilationData -> CompilationEnvironment Operation -> CompilationResult.

(** [operation(identifier, data, environment)] for an operation of the
    environment. *)
Definition callOperation (operation : Operation)
    (data : CompilationData) (environment : CompilationEnvironment Operation)
    (identifier : string) : OperationResult :=
  match applyOperation operation identifier data environment with
  | inl bytecode => OperationBytecode bytecode
  | inr message => OperationError message
  end.

Definition attemptCompilerOperation
    (data : CompilationData) (environment : CompilationEnvironment Operation)
    (identifier : string)
    (matchingOperations : option (OperationTable Operation))
    (operationExample : string)
    (operationId : option string) (variableId variableType : string)
  : OperationResult :=
  match matchingOperations with
  | None =>
      OperationError
        ("The " ++ quoted variableId
         ++ " variable type can not be resolved because the "
         ++ quoted variableType
         ++ " operation has not been included in this compiler's CompilationEnvironment.")%string
  | Some (SingleOperation operation) =>
      callOperation operation data environment identifier
  | Some (OperationMapping mapping) =>
      match operationId with
      | None =>
          OperationError
            ("This " ++ quoted variableId
             ++ " variable could not be resolved because this compiler's "
             ++ quoted variableType
             ++ " operations require an operation identifier, e.g. '"
             ++ variableId ++ "." ++ operationExample ++ "'.")%string
      | Some operationId' =>
          match getProperty mapping operationId' with
          | None =>
              OperationError
                ("The identifier " ++ quoted identifier
                 ++ " could not be resolved because the "
                 ++ quoted (variableId ++ "." ++ operationId')
                 ++ " operation is not available to this compiler.")%string
          | Some (Own operation) =>
              callOperation operation data environment identifier
          | Some (Inherited member) => OperationInherited member
          end
      end
  end.

(** The result is [Uint8Array | string | false]; [None] is [false]. At a
    variable identifier that hits a member inherited from
    [Object.prototype], [expectedVariable.type] is [undefined]: the object
    literal indexed by it spreads nothing, so that [matchingOperations] is
    [undefined] and the message prints the variable type [undefined]. *)
Definition resolveVariableIdentifier
    (data : CompilationData) (environment : CompilationEnvironment Operation)
    (identifier : string) : option OperationResult :=
  let pieces := split_dot identifier in
  let variableId := default EmptyString (pieces !! 0%nat) in
  let operationId := pieces !! 1%nat in
  if String.eqb variableId BuiltInVariables.currentBlockHeight then
    Some
      (attemptCompilerOperation data environment identifier
         (operations environment ≫= currentBlockHeight)
         "operation_identifier" operationId variableId "currentBlockHeight")
  else if String.eqb variableId BuiltInVariables.currentBlockTime then
    Some
      (attemptCompilerOperation data environment identifier
         (operations environment ≫= currentBlockTime)
         "operation_identifier" operationId variableId "currentBlockTime")
  else if String.eqb variableId BuiltInVariables.signingSerialization then
    Some
      (attemptCompilerOperation data environment identifier
         (operations environment ≫= signingSerialization)
         "version" operationId variableId "signingSerialization")
  else
    match variables environment ≫= (fun table => getProperty table variableId) with
    | None => None
    | Some (Own expectedVariable) =>
        Some
          match type expectedVariable with
          | AddressData =>
              attemptCompilerOperation data environment identifier
                (operations environment ≫= addressData)
                "operation_identifier" operationId variableId "addressData"
          | HdKey =>
              attemptCompilerOperation data environment identifier
                (operations environment ≫= hdKey)
                "public_key" operationId variableId "hdKey"
          | Key =>
              attemptCompilerOperation data environment identifier
                (operations environment ≫= key)
                "public_key" operationId variableId "key"
          | WalletData =>
              attemptCompilerOperation data environment identifier
                (operations environment ≫= walletData)
                "operation_identifier" operationId variableId "walletData"
          end
    | Some (Inherited _) =>
        Some
          (attemptCompilerOperation data environment identifier None
             "operation_identifier" operationId variableId "undefined")
    end.

(** The message of the circular-dependency error. *)
Definition circularDependencyMessage (identifier : string)
    (sourceScriptIds : list string) : string :=
  ("A circular dependency was encountered. Script " ++ quoted identifier
   ++ " relies on itself to be generated. (Parent scripts: "
   ++ join ", " sourceScriptIds ++ ")")%string.

(** The message that reports the errors of a nested compilation. *)
Definition compilationErrorMessage (identifier : string)
    (errors : list ErrorInformation) : string :=
  ("Compilation error in resolved script, " ++ quoted identifier
   ++ ": "
   ++ join ", "
        (List.map
           (fun e =>
              error e ++ " ["
              ++ showNumber (startLineNumber (ei_range e)) ++ ", "
              ++ showNumber (startColumn (ei_range e)) ++ "]")
           errors))%string.

(** The environment handed to the nested compilation:
    [{ ...environment, sourceScriptIds: [...sourceScriptIds,
    ...parentIdentifier] }]. *)
Definition nestedEnvironment (environment : CompilationEnvironment Operation)
    (parentIdentifier : option string) : CompilationEnvironment Operation :=
  {| opcodes := opcodes environment;
     operations := operations environment;
     scripts := scripts environment;
     sourceScriptIds :=
       Some (match sourceScriptIds environment with
             | None => []
             | Some ids => ids
             end ++
             match parentIdentifier with
             | None => []
             | Some parent => [parent]
             end);
     variables := variables environment |}.

(** The test [environment.scripts[identifier] === undefined] looks at the
    property only: a member inherited from [Object.prototype] is defined,
    and the identifier is then compiled as a script. *)
Definition resolveScriptIdentifier
    (data : CompilationData) (environment : CompilationEnvironment Operation)
    (identifier : string) (parentIdentifier : option string)
  : Attempt (bytes * ResolvedScript) :=
  match getProperty (scripts environment) identifier with
  | None => NotRecognized
  | Some _ =>
      let compiled :=
        match compileScript identifier data
                (nestedEnvironment environment parentIdentifier) with
        | CompilationResultSuccess bytecode resolve =>
            Resolved (bytecode, resolve)
        | CompilationResultError errors =>
            Failed (compilationErrorMessage identifier errors)
        end in
      match parentIdentifier, sourceScriptIds environment with
      | Some parent, Some ids =>
          if existsb (String.eqb parent) ids then
            Failed (circularDependencyMessage identifier ids)
          else compiled
      | _, _ => compiled
      end
  end.

(** [createIdentifierResolver({ data, environment, scriptId })], applied to
    an identifier. *)
Definition createIdentifierResolver
    (data : CompilationData) (environment : CompilationEnvironment Operation)
    (scriptId : option string) (identifier : string) : ResolverResult :=
  match opcodes environment ≫= (fun table => getProperty table identifier) with
  | Some (Own opcodeResult) =>
      Declared (ResolutionBytecode opcodeResult type_opcode None)
  | Some (Inherited member) => InheritedOpcode member
  | None =>
      match resolveVariableIdentifier data environment identifier with
      | Some (OperationError variableResult) =>
          Declared (ResolutionError variableResult error_variable None)
      | Some (OperationBytecode variableResult) =>
          Declared (ResolutionBytecode variableResult type_variable None)
      | Some (OperationInherited member) => InheritedOperation member
      | None =>
          match resolveScriptIdentifier data environment identifier scriptId with
          | Failed scriptResult =>
              Declared
                (ResolutionError scriptResult error_script (Some identifier))
          | Resolved (bytecode, resolve) =>
              Declared (ResolutionBytecode bytecode type_script (Some resolve))
          | NotRecognized =>
              Declared
                (ResolutionError
                   ("Unknown identifier '" ++ identifier ++ "'.")%string
                   error_unknown None)
          end
      end
  end.

(** [resolveScriptSegment(segment, resolveIdentifiers)]: the callback of
    [segment.value.map] by recursion on the child, then the replacement of
    an empty result by one empty comment. *)
Fixpoint resolveChild (resolveIdentifiers : string -> IdentifierResolution)
    (child : BtlChild) {struct child} : ResolvedSegment :=
  let resolveSegment :=
    fun (mark : MarkedNode) (children : list BtlChild) =>
      let resolved :=
        (fix resolveAll (l : list BtlChild) : list ResolvedSegment :=
           match l with
           | [] => []
           | c :: rest => resolveChild resolveIdentifiers c :: resolveAll rest
           end) children in
      if len resolved =? 0 then [SegmentComment (pluckRange mark) EmptyString]
      else resolved in
  match child with
  | Identifier mark identifier =>
      let range := pluckRange mark in
      match resolveIdentifiers identifier with
      | ResolutionBytecode bytecode type_opcode _ =>
          SegmentOpcodeBytecode range identifier bytecode
      | ResolutionBytecode bytecode type_variable _ =>
          SegmentVariableBytecode range identifier bytecode
      | ResolutionBytecode bytecode type_script source =>
          SegmentScriptBytecode range identifier (default [] source) bytecode
      | ResolutionError error _ _ => SegmentError range error
      end
  | Push mark segmentMark value =>
      SegmentPush (pluckRange mark) (resolveSegment segmentMark value)
  | Evaluation mark segmentMark value =>
      SegmentEvaluation (pluckRange mark) (resolveSegment segmentMark value)
  | BigIntLiteralNode mark value =>
      SegmentLiteralBytecode (pluckRange mark) BigIntLiteral
        (bigIntToScriptNumber value)
  | HexLiteralNode mark value =>
      SegmentLiteralBytecode (pluckRange mark) HexLiteral (hexToBin value)
  | UTF8LiteralNode mark value =>
      SegmentLiteralBytecode (pluckRange mark) UTF8Literal (utf8ToBin value)
  | CommentNode mark value => SegmentComment (pluckRange mark) value
  | UnrecognizedNode mark name =>
      SegmentError (pluckRange mark) ("Unrecognized segment: " ++ name)%string
  end.

Definition resolveScriptSegment (segment : BtlScriptSegment)
    (resolveIdentifiers : string -> IdentifierResolution) : ResolvedScript :=
  let resolved := List.map (resolveChild resolveIdentifiers) (segment_value segment) in
  if len resolved =? 0 then
    [SegmentComment (pluckRange (segment_mark segment)) EmptyString]
  else resolved.

End WithOperations.
End Resolve.

(** ** The compiler entry point tying resolution and reduction together *)

Module Compile.
Import Ranges Instructions Reduce Resolve.

Section WithCollaborators.

Context {Operation CompilationData ProgramState : Type}
        `{StackState ProgramState}.

Variable applyOperation :
  Operation -> string -> CompilationData -> CompilationEnvironment Operation ->
  bytes + string.
Variable bigIntToScriptNumber : Z -> bytes.
Variable hexToBin : string -> bytes.
Variable utf8ToBin : string -> bytes.
Variable parseBytecode : bytes -> list AuthenticationInstruction.
Variable authenticationInstructionsAreNotMalformed :
  list AuthenticationInstruction -> bool.
Variable disassembleBytecode : bytes -> string.
Variable encodeDataPush : bytes -> bytes.

(** The BTL parser of the absent [parse.ts]: a script segment, or the
    parse errors. *)
Variable parseScript : string -> BtlScriptSegment + list ErrorInformation.

Variable vm : option (AuthenticationVirtualMachine ProgramState).
Variable createState : option (list AuthenticationInstruction -> ProgramState).

(** The identifiers of a parse tree, in order, at any depth: those that
    the modelled compiler below hands to the resolver. *)
Fixpoint identifiersOf (child : BtlChild) : list string :=
  match child with
  | Identifier _ value => [value]
  | Push _ _ value | Evaluation _ _ value =>
      (fix identifiersOfAll (l : list BtlChild) : list string :=
         match l with
         | [] => []
         | c :: rest => identifiersOf c ++ identifiersOfAll rest
         end) value
  | _ => []
  end.

(** Every identifier of the segment is resolved to a value of the declared
    result type: the test of the modelled compiler below. *)
Definition resolvesAsDeclared (resolver : string -> ResolverResult)
    (segment : BtlScriptSegment) : bool :=
  forallb (fun identifier =>
             match resolver identifier with
             | Declared _ => true
             | InheritedOpcode _ | InheritedOperation _ => false
             end)
    (flat_map identifiersOf (segment_value segment)).

(** The resolver handed to [resolveScriptSegment] once
    [resolvesAsDeclared] holds; the second case is then never reached. *)
Definition declaredResolver (resolver : string -> ResolverResult)
    (identifier : string) : IdentifierResolution :=
  match resolver identifier with
  | Declared resolution => resolution
  | InheritedOpcode _ | InheritedOperation _ =>
      ResolutionError EmptyString error_unknown None
  end.

(** Modelled from the spec: the absent [compileScript] of [compile.ts],
    section 2 (data flow: BTL text, parser, resolver and resolved tree,
    reducer, final bytecode), section 4.3 step 3 (a script identifier
    compiles that script recursively with an extended [sourceScriptIds])
    and section 7 (compilation returns [success: false] with the error
    list). [fuel] bounds the depth of nested script compilations. The spec
    says nothing of the members that the tables inherit from
    [Object.prototype]: a compilation that meets one, as the script to
    compile or as the resolution of one of its identifiers, is not
    described, and like a compilation that runs out of fuel it is made to
    fail with an empty error list. *)
Fixpoint compileScript (fuel : nat) (scriptId : string) (data : CompilationData)
    (environment : CompilationEnvironment Operation) : CompilationResult :=
  match fuel with
  | O => CompilationResultError []
  | S fuel' =>
      match getProperty (scripts environment) scriptId with
      | None =>
          CompilationResultError
            [mkErrorInformation
               ("No script with an ID of '" ++ scriptId ++ "' was provided.")%string
               (mkRange 0 0 0 0)]
      | Some (Inherited _) => CompilationResultError []
      | Some (Own script) =>
          match parseScript script with
          | inr parseErrors => CompilationResultError parseErrors
          | inl segment =>
              let resolver :=
                createIdentifierResolver applyOperation (compileScript fuel')
                  data environment (Some scriptId) in
              if resolvesAsDeclared resolver segment then
                let resolvedScript :=
                  resolveScriptSegment bigIntToScriptNumber hexToBin utf8ToBin
                    segment (declaredResolver resolver) in
                match reduceScript parseBytecode
                        authenticationInstructionsAreNotMalformed
                        disassembleBytecode encodeDataPush
                        resolvedScript vm createState with
                | None => CompilationResultError []
                | Some reduction =>
                    match errors reduction with
                    | Some reductionErrors =>
                        CompilationResultError reductionErrors
                    | None =>
                        CompilationResultSuccess (bytecode reduction)
                          resolvedScript
                    end
                end
              else CompilationResultError []
          end
      end
  end.

End WithCollaborators.
End Compile.

(** ** Collaborators absent from the sources, modelled for concrete runs *)

Module Collaborators.
Import Ranges Instructions Reduce Resolve.

Definition byteOfZ (z : Z) : byte :=
  default Byte.x00 (Byte.of_N (Z.to_N (z mod 256))).

(** Little-endian encoding of [n] in [width] bytes. *)
Fixpoint littleEndian (width : nat) (n : Z) : bytes :=
  match width with
  | O => []
  | S width' => byteOfZ n :: littleEndian width' (n / 256)
  end.

(** Little-endian decoding. *)
Fixpoint fromLittleEndian (b : bytes) : Z :=
  match b with
  | [] => 0
  | x :: rest => byteToZ x + 256 * fromLittleEndian rest
  end.

(** Modelled from the spec: the absent [encodeDataPush], section 4.5: the
    minimal Bitcoin push encoding: 0-byte payload, [OP_0]; 1-byte payload
    [x] with [1 <= x <= 16], [OP_x]; otherwise [OP_PUSHBYTES_len]
    (1..=75), and [OP_PUSHDATA1/2/4] with a little-endian length for
    longer payloads. Section 4.7 lists [OP_1NEGATE] among the pushes: it
    pushes the number -1, the one byte [0x81] of section 4.4, and the
    encoding of that payload, to be minimal (sections 4.5 and 8), is
    [OP_1NEGATE]. *)
Definition encodeDataPush (data : bytes) : bytes :=
  let n := len data in
  match data with
  | [] => [byteOfZ 0]
  | [x] =>
      if (1 <=? byteToZ x) && (byteToZ x <=? 16) then [byteOfZ (80 + byteToZ x)]
      else if byteToZ x =? 129 then [byteOfZ 79]
      else byteOfZ 1 :: data
  | _ =>
      if n <=? 75 then byteOfZ n :: data
      else if n <=? 255 then byteOfZ 76 :: littleEndian 1 n ++ data
      else if n <=? 65535 then byteOfZ 77 :: littleEndian 2 n ++ data
      else byteOfZ 78 :: littleEndian 4 n ++ data
  end.

(** Reading one push of [dataLength] bytes after the opcode (and its length
    bytes) has been consumed. *)
Definition readPush (op : byte) (dataLength : Z) (rest : bytes)
  : AuthenticationInstruction * option bytes :=
  if dataLength <=? len rest then
    (mkInstruction op (Some (take (Z.to_nat dataLength) rest)) false,
     Some (drop (Z.to_nat dataLength) rest))
  else (mkInstruction op (Some rest) true, None).

(** Modelled from the spec: the absent [parseBytecode], section 4.6: walk
    the byte stream; a push opcode declares its payload length, fixed
    (opcodes 0x00 to 0x4b) or read from the next 1, 2 or 4 little-endian
    bytes (0x4c, 0x4d, 0x4e); a payload that exceeds the remaining tail
    gives a final malformed instruction and stops the walk. [fuel] is the
    number of bytes still to walk. *)
Fixpoint parseBytecode_walk (fuel : nat) (bytecode : bytes)
  : list AuthenticationInstruction :=
  match fuel, bytecode with
  | O, _ | _, [] => []
  | S fuel', op :: rest =>
      let o := byteToZ op in
      let lengthBytes :=
        if o <? 76 then 0%nat
        else if o =? 76 then 1%nat
        else if o =? 77 then 2%nat
        else 4%nat in
      if o >? 78 then
        mkInstruction op None false :: parseBytecode_walk fuel' rest
      else if Z.of_nat lengthBytes >? len rest then
        [mkInstruction op (Some rest) true]
      else
        let dataLength :=
          if o <? 76 then o else fromLittleEndian (take lengthBytes rest) in
        match readPush op dataLength (drop lengthBytes rest) with
        | (instruction, Some tail) =>
            instruction :: parseBytecode_walk fuel' tail
        | (instruction, None) => [instruction]
        end
  end.

Definition parseBytecode (bytecode : bytes) : list AuthenticationInstruction :=
  parseBytecode_walk (length bytecode) bytecode.

Definition authenticationInstructionsAreNotMalformed
    (instructions : list AuthenticationInstruction) : bool :=
  negb (authenticationInstructionsAreMalformed instructions).

(** A stand-in for [disassembleBytecode]: the messages it feeds are never
    inspected. *)
Definition disassembleBytecode (bytecode : bytes) : string := "<bytecode>".

(** A stand-in virtual machine that executes pushes only: an instruction
    with data pushes it, [OP_1] to [OP_16] and [OP_1NEGATE] push their
    number, any other instruction sets an error. [stateDebug] returns the state after each executed
    instruction and stops after the first error. *)
Definition PushState : Type := BCH.AuthenticationProgramStateBCH unit.

(** Modelled from the spec: what an instruction pushes, sections 4.5 to
    4.7: a push opcode with a payload pushes its data; [OP_1] to [OP_16]
    push the one byte of their number and [OP_1NEGATE] the byte [0x81] of
    the number -1; any other opcode pushes nothing. *)
Definition pushedItem (instruction : AuthenticationInstruction) : option bytes :=
  match data instruction with
  | Some d => Some d
  | None =>
      let o := byteToZ (opcode instruction) in
      if (81 <=? o) && (o <=? 96) then Some [byteOfZ (o - 80)]
      else if o =? 79 then Some [byteOfZ 129]
      else None
  end.

Definition pushStep (state : PushState) (instruction : AuthenticationInstruction)
  : PushState :=
  match pushedItem instruction with
  | Some d =>
      @BCH.mkState unit (BCH.instructions state) (BCH.ip state + 1)
        (BCH.stack state ++ [d]) (BCH.alternateStack state)
        (BCH.executionStack state) (BCH.lastCodeSeparator state)
        (BCH.operationCount state) None tt
  | None =>
      BCH.applyError (BCH.operationError "unsupported opcode")
        (@BCH.mkState unit (BCH.instructions state) (BCH.ip state + 1)
           (BCH.stack state) (BCH.alternateStack state)
           (BCH.executionStack state) (BCH.lastCodeSeparator state)
           (BCH.operationCount state) None tt)
  end.

Fixpoint pushTrace (state : PushState)
    (instructions : list AuthenticationInstruction) : list PushState :=
  match instructions with
  | [] => []
  | i :: rest =>
      let next := pushStep state i in
      match BCH.error next with
      | Some _ => [next]
      | None => next :: pushTrace next rest
      end
  end.

Definition pushEvaluate (state : PushState) : PushState :=
  default state (last (pushTrace state (BCH.instructions state))).

Definition pushVM : AuthenticationVirtualMachine PushState :=
  mkVM PushState (fun state => pushTrace state (BCH.instructions state)).

Definition pushCreateState (instructions : list AuthenticationInstruction)
  : PushState :=
  BCH.createAuthenticationProgramStateCommon instructions [] tt.

Definition showErrorBCH (e : BCH.AuthenticationErrorBCH) : string :=
  match e with
  | BCH.operationError message => message
  | _ => "consensus error"
  end.

#[export] Instance PushState_StackState : StackState PushState := {
  stack := BCH.stack;
  stateError := fun state => showErrorBCH <$> BCH.error state
}.

(** A stand-in for the BTL parser on scripts made of identifiers and single
    spaces on one line: each identifier becomes an [Identifier] node marked
    with its columns. *)
Fixpoint parseIdentifiers_from (column : Z) (current : option (Z * string))
    (text : string) : list BtlChild :=
  let emit :=
    fun (c : option (Z * string)) (endColumn : Z) =>
      match c with
      | None => []
      | Some (start, name) =>
          [Identifier (mkMarked (mkPosition endColumn 1) (mkPosition start 1)) name]
      end in
  match text with
  | EmptyString => emit current column
  | String c rest =>
      if Ascii.eqb c " "%char then
        emit current column ++ parseIdentifiers_from (column + 1) None rest
      else
        parseIdentifiers_from (column + 1)
          (match current with
           | None => Some (column, String c EmptyString)
           | Some (start, name) => Some (start, (name ++ String c EmptyString)%string)
           end) rest
  end.

Definition parseIdentifiers (text : string)
  : BtlScriptSegment + list ErrorInformation :=
  inl (mkSegment
         (mkMarked (mkPosition (Z.of_nat (String.length text) + 1) 1)
                   (mkPosition 1 1))
         (parseIdentifiers_from 1 None text)).

(** An environment without compiler operations. *)
Definition noOperation : Type := Empty_set.

Definition applyNoOperation (operation : noOperation) (identifier : string)
    (data : unit) (environment : CompilationEnvironment noOperation)
  : bytes + string :=
  match operation with end.

End Collaborators.

(** ** Concrete programs and scripts used in the examples *)

Module Scenarios.
Import Ranges Instructions Reduce Resolve BCH Collaborators.

Definition programOf (unlocking locking : bytes) : AuthenticationProgramBCH :=
  mkProgram 0 (mkOutput locking) (mkTransaction [mkInput unlocking]).

Definition noExternalState (program : AuthenticationProgramBCH) : unit := tt.

(** Scenario 5 of the specification: unlocking [OP_1 OP_2 OP_ADD] against
    locking [OP_3 OP_EQUAL]. *)
Definition unlockingWithAdd : bytes := [Byte.x51; Byte.x52; Byte.x93].
Definition lockingThreeEqual : bytes := [Byte.x53; Byte.x87].

(** Scenario 6 of the specification: a pay-to-script-hash locking script
    and the unlocking script [<OP_1>]. *)
Definition lockingP2SH : bytes :=
  [Byte.xa9; Byte.x14] ++ repeat Byte.x00 20 ++ [Byte.x87].
Definition redeemOne : bytes := [Byte.x51].
Definition unlockingRedeemOne : bytes := Byte.x01 :: redeemOne.

(** A version-0 witness program of 20 bytes, and the unlocking script that
    pushes it. *)
Definition witnessProgram : bytes := [Byte.x00; Byte.x14] ++ repeat Byte.x00 20.
Definition unlockingWitness : bytes := Byte.x16 :: witnessProgram.

(** Scenario 3 of the specification: two scripts that refer to each
    other. *)
Definition scriptsAB : gmap string string := <["a" := "b"]> (<["b" := "a"]> ∅).

(** One script that refers to itself twice. *)
Definition scriptsAA : gmap string string := <["a" := "a a"]> ∅.

Definition environmentOf (scripts : gmap string string)
    (sourceScriptIds : option (list string))
  : CompilationEnvironment noOperation :=
  {| opcodes := Some (<["OP_1" := [Byte.x51]]> ∅);
     operations := None;
     scripts := scripts;
     sourceScriptIds := sourceScriptIds;
     variables := None |}.

(** The modelled compiler with the stand-in parser and virtual machine and
    no literals. *)
Definition compile (fuel : nat) (scriptId : string)
    (environment : CompilationEnvironment noOperation) : CompilationResult :=
  Compile.compileScript (ProgramState := PushState) applyNoOperation
    (fun _ => []) (fun _ => []) (fun _ => [])
    parseBytecode authenticationInstructionsAreNotMalformed
    disassembleBytecode encodeDataPush parseIdentifiers
    (Some pushVM) (Some pushCreateState) fuel scriptId tt environment.

(** A compiler stub that always succeeds with empty bytecode. *)
Definition compileStub (scriptId : string) (data : unit)
    (environment : CompilationEnvironment noOperation) : CompilationResult :=
  CompilationResultSuccess [] [].

Definition rangeAt (startColumn endColumn : Z) : Range :=
  {| endColumn := endColumn; endLineNumber := 1;
     startColumn := startColumn; startLineNumber := 1 |}.

(** Scenario 2 of the specification: [<'abc'>], already resolved. *)
Definition pushABC : ResolvedScript :=
  [SegmentPush (rangeAt 1 8)
     [SegmentLiteralBytecode (rangeAt 2 7) UTF8Literal
        [Byte.x61; Byte.x62; Byte.x63]]].

(** An evaluation of one push, [$(<0x0102>)], already resolved. *)
Definition evaluatedPush : ResolvedScript :=
  [SegmentPush (rangeAt 3 11)
     [SegmentLiteralBytecode (rangeAt 4 10) HexLiteral [Byte.x01; Byte.x02]]].

(** The message wrapped around a resolution error by the reducer. *)
Definition reductionMessage (message : string) : string :=
  ("Tried to reduce a BTL script with resolution errors: " ++ message)%string.


(** A second pay-to-script-hash locking script, with another hash. *)
Definition lockingP2SHOther : bytes :=
  [Byte.xa9; Byte.x14] ++ repeat Byte.xff 20 ++ [Byte.x87].

(** [<'abc'>] followed by a comment, already resolved. *)
Definition commentedPush : ResolvedScript :=
  pushABC ++ [SegmentComment (rangeAt 10 20) "a comment"].

(** A push that holds an unresolved identifier, already resolved. *)
Definition pushOfUnknown : ResolvedSegment :=
  SegmentPush (rangeAt 1 5) [SegmentError (rangeAt 2 4) "Unknown identifier 'x'."].

Definition markAt (startColumn endColumn : Z) : MarkedNode :=
  mkMarked (mkPosition endColumn 1) (mkPosition startColumn 1).

(** The parse trees of [<OP_1>], of [<>] and of [foo]. *)
Definition treePushOne : BtlScriptSegment :=
  mkSegment (markAt 1 7)
    [Push (markAt 1 7) (markAt 2 6) [Identifier (markAt 2 6) "OP_1"]].
Definition treeEmptyPush : BtlScriptSegment :=
  mkSegment (markAt 1 3) [Push (markAt 1 3) (markAt 2 2) []].
Definition treeUnknown : BtlScriptSegment :=
  mkSegment (markAt 1 4) [Identifier (markAt 1 4) "foo"].

(** Resolvers over the two sets of scripts, with the stub compiler. *)
Definition resolverAB : string -> IdentifierResolution :=
  Compile.declaredResolver
    (createIdentifierResolver applyNoOperation compileStub tt
       (environmentOf scriptsAB None) None).
Definition resolverAA : string -> IdentifierResolution :=
  Compile.declaredResolver
    (createIdentifierResolver applyNoOperation compileStub tt
       (environmentOf scriptsAA None) None).

(** Resolution without literals. *)
Definition resolveSegment (segment : BtlScriptSegment)
    (resolveIdentifiers : string -> IdentifierResolution) : ResolvedScript :=
  resolveScriptSegment (fun _ => []) (fun _ => []) (fun _ => []) segment
    resolveIdentifiers.



(** A virtual machine that produces no state. *)
Definition silentVM : AuthenticationVirtualMachine PushState :=
  mkVM PushState (fun _ => []).

(** Two aggregations of one instruction each: [OP_ADD], which the
    stand-in machine does not support, then [OP_1]. *)
Definition aggregationsAddOne : list InstructionAggregation :=
  [mkAggregation [mkInstruction Byte.x93 None false] 1 (rangeAt 1 6);
   mkAggregation [mkInstruction Byte.x51 None false] 2 (rangeAt 8 11)].

End Scenarios.

(** ** Vocabulary of the properties *)

Module Vocabulary.
Import Ranges Instructions.

(** A word of the result of [regroupBits]: between [0] and
    [2 ^ resultWordLength]. *)
Definition resultWord (resultWordLength x : Z) : Prop :=
  0 <= x < 2 ^ resultWordLength.

(** Positions are compared by line, then by column. *)
Definition positionLe (p q : Z * Z) : Prop :=
  fst p < fst q \/ (fst p = fst q /\ snd p <= snd q).

Definition startOf (r : Range) : Z * Z := (startLineNumber r, startColumn r).
Definition endOf (r : Range) : Z * Z := (endLineNumber r, endColumn r).

(** [m] starts at the minimum of the starts of [ranges] and ends at the
    maximum of their ends. *)
Definition MinStartMaxEnd (ranges : list Range) (m : Range) : Prop :=
  (exists r, In r ranges /\ startOf m = startOf r)
  /\ (forall r, In r ranges -> positionLe (startOf m) (startOf r))
  /\ (exists r, In r ranges /\ endOf m = endOf r)
  /\ (forall r, In r ranges -> positionLe (endOf r) (endOf m)).

(** The SegWit program shape: length between 4 and 42, first byte [0x00] or
    between [0x51] and [0x60], second byte plus 2 equal to the length. *)
Definition SegWitShape (script : bytes) : Prop :=
  4 <= len script <= 42
  /\ exists b0 b1 rest,
       script = b0 :: b1 :: rest
       /\ (byteToZ b0 = 0 \/ 81 <= byteToZ b0 <= 96)
       /\ byteToZ b1 + 2 = len script.

(** The locking instructions are exactly
    [OP_HASH160, OP_PUSHBYTES_20, OP_EQUAL]. *)
Definition PayToScriptHashPattern
    (instructions : list AuthenticationInstruction) : Prop :=
  List.map (fun i => byteToZ (opcode i)) instructions = [169; 20; 135].

(** All bytes are zero, except that the last one may also be the sign bit
    alone ([0x80], negative zero). *)
Definition ZeroOrNegativeZero (item : bytes) : Prop :=
  exists zeros lastByte,
    item = zeros ++ [lastByte]
    /\ Forall (fun b => byteToZ b = 0) zeros
    /\ (byteToZ lastByte = 0 \/ byteToZ lastByte = 128).

Definition Truthy (item : bytes) : Prop :=
  item <> [] /\ ~ ZeroOrNegativeZero item.

(** The [range] property of a resolved segment. *)
Definition segmentRange (segment : Reduce.ResolvedSegment) : Range :=
  match segment with
  | Reduce.SegmentPush range _
  | Reduce.SegmentEvaluation range _
  | Reduce.SegmentLiteralBytecode range _ _
  | Reduce.SegmentOpcodeBytecode range _ _
  | Reduce.SegmentVariableBytecode range _ _
  | Reduce.SegmentScriptBytecode range _ _ _
  | Reduce.SegmentComment range _
  | Reduce.SegmentError range _ => range
  end.

(** The in-order concatenation of the errors of the child nodes, when any
    child has errors. *)
Definition childErrors {ProgramState : Type}
    (children : list (@Reduce.ScriptReductionTraceNode ProgramState))
  : option (list Reduce.ErrorInformation) :=
  if forallb (fun n => match Reduce.errors n with None => true | Some _ => false end)
       children
  then None
  else Some (concat (List.map (fun n => default [] (Reduce.errors n)) children)).

(** The top item of a stack: the last element of the array. *)
Definition topStackItem (stack : list bytes) : option bytes := last stack.

(** Joining two optional error lists as the reduction of [reduceScript]
    does. *)
Definition mergeErrors (a b : option (list Reduce.ErrorInformation))
  : option (list Reduce.ErrorInformation) :=
  match a, b with
  | None, None => None
  | _, _ => Some (default [] a ++ default [] b)
  end.

(** The identifier occurs in the parse tree, at any depth. *)
Fixpoint occursIn (identifier : string) (child : Resolve.BtlChild) : bool :=
  match child with
  | Resolve.Identifier _ value => String.eqb value identifier
  | Resolve.Push _ _ value | Resolve.Evaluation _ _ value =>
      (fix occursInAll (l : list Resolve.BtlChild) : bool :=
         match l with
         | [] => false
         | c :: rest => occursIn identifier c || occursInAll rest
         end) value
  | _ => false
  end.



(** The identifier occurs in the parse tree at a place whose resolution
    errors the reducer reports: outside evaluations, or anywhere when the
    reducer is given a virtual machine and a state factory
    ([evaluations]). *)
Fixpoint occursReported (evaluations : bool) (identifier : string)
    (child : Resolve.BtlChild) : bool :=
  match child with
  | Resolve.Identifier _ value => String.eqb value identifier
  | Resolve.Push _ _ value =>
      (fix occursReportedAll (l : list Resolve.BtlChild) : bool :=
         match l with
         | [] => false
         | c :: rest =>
             occursReported evaluations identifier c || occursReportedAll rest
         end) value
  | Resolve.Evaluation _ _ value =>
      evaluations
      && (fix occursReportedAll (l : list Resolve.BtlChild) : bool :=
            match l with
            | [] => false
            | c :: rest =>
                occursReported evaluations identifier c || occursReportedAll rest
            end) value
  | _ => false
  end.









(** The resolved script holds an error segment, at any depth. *)
Fixpoint holdsError (segment : Reduce.ResolvedSegment) : bool :=
  match segment with
  | Reduce.SegmentError _ _ => true
  | Reduce.SegmentPush _ value | Reduce.SegmentEvaluation _ value =>
      (fix holdsErrorAny (l : list Reduce.ResolvedSegment) : bool :=
         match l with
         | [] => false
         | s :: rest => holdsError s || holdsErrorAny rest
         end) value
  | _ => false
  end.


(** The number denoted by a list of words of [w] bits each, the first word
    the most significant. *)
Definition wordsValue (w : Z) (words : list Z) : Z :=
  fold_left (fun acc v => acc * 2 ^ w + v) words 0.

(** The same, continuing from [start]. *)
Definition accumulate (w : Z) (start : Z) (words : list Z) : Z :=
  fold_left (fun acc v => acc * 2 ^ w + v) words start.

(** Two integers with the same 32-bit wrap-around. *)
Definition sameInt32 (x y : Z) : Prop := x mod 2 ^ 32 = y mod 2 ^ 32.

(** The characters [encodeBech32] appends for one array element. *)
Definition encodedCharacters (v : Z) : list ascii :=
  match Bech32Codec.characterAt v with
  | Some c => [c]
  | None => list_ascii_of_string "undefined"
  end.

(** Every flag set in [f] is set in [g]. *)
Definition flagsIncluded (f g : BCH.InstructionSetFlags) : Prop :=
  (BCH.disallowUpgradableNops f = true -> BCH.disallowUpgradableNops g = true)
  /\ (BCH.requireBugValueZero f = true -> BCH.requireBugValueZero g = true)
  /\ (BCH.requireMinimalEncoding f = true -> BCH.requireMinimalEncoding g = true)
  /\ (BCH.requireNullSignatureFailures f = true ->
      BCH.requireNullSignatureFailures g = true).

(** No evaluation occurs in the resolved segment, at any depth. *)
Fixpoint evaluationFree (segment : Reduce.ResolvedSegment) : bool :=
  match segment with
  | Reduce.SegmentEvaluation _ _ => false
  | Reduce.SegmentPush _ value =>
      (fix evaluationFreeAll (l : list Reduce.ResolvedSegment) : bool :=
         match l with
         | [] => true
         | s :: rest => evaluationFree s && evaluationFreeAll rest
         end) value
  | _ => true
  end.

Definition isComment (segment : Reduce.ResolvedSegment) : bool :=
  match segment with
  | Reduce.SegmentComment _ _ => true
  | _ => false
  end.

(** No push and no evaluation of the resolved segment, at any depth, has
    an empty script as its value. *)
Fixpoint noEmptyScript (segment : Reduce.ResolvedSegment) : bool :=
  match segment with
  | Reduce.SegmentPush _ value | Reduce.SegmentEvaluation _ value =>
      negb (len value =? 0)
      && (fix noEmptyScriptAll (l : list Reduce.ResolvedSegment) : bool :=
            match l with
            | [] => true
            | s :: rest => noEmptyScript s && noEmptyScriptAll rest
            end) value
  | _ => true
  end.

(** The number of instructions in a list of aggregations. *)
Definition instructionCount (aggregations : list Reduce.InstructionAggregation) : Z :=
  fold_right (fun a n => len (Reduce.instructions a) + n) 0 aggregations.

(** The aggregations that hold instructions. *)
Definition nonEmptyAggregations (aggregations : list Reduce.InstructionAggregation)
  : list Reduce.InstructionAggregation :=
  List.filter (fun a => len (Reduce.instructions a) >? 0) aggregations.

(** The marks ([start], [end]) of a node of the parse tree. *)
Definition childMark (child : Resolve.BtlChild) : Resolve.MarkedNode :=
  match child with
  | Resolve.Identifier mark _
  | Resolve.Push mark _ _
  | Resolve.Evaluation mark _ _
  | Resolve.BigIntLiteralNode mark _
  | Resolve.HexLiteralNode mark _
  | Resolve.UTF8LiteralNode mark _
  | Resolve.CommentNode mark _
  | Resolve.UnrecognizedNode mark _ => mark
  end.

(** The byte string is read by the parser as exactly one well-formed
    instruction, and that instruction pushes [payload]: it carries
    [payload] as its data, or it is one of [OP_1] to [OP_16] and
    [OP_1NEGATE] and [payload] is the one byte of its number. *)
Definition PushesExactly (payload encoding : bytes) : Prop :=
  exists instruction,
    Collaborators.parseBytecode encoding = [instruction]
    /\ malformed instruction = false
    /\ Collaborators.pushedItem instruction = Some payload.

(** The minimal push encoding of [payload]: a byte string that pushes
    exactly [payload], shorter than every other one that does. *)
Definition MinimalPushEncoding (payload encoding : bytes) : Prop :=
  PushesExactly payload encoding
  /\ forall other,
       PushesExactly payload other ->
       len encoding < len other \/ other = encoding.

(** The number of length bytes that the parser reads after an opcode. *)
Definition lengthBytesOf (o : Z) : nat :=
  if o <? 76 then 0%nat
  else if o =? 76 then 1%nat
  else if o =? 77 then 2%nat
  else 4%nat.

(** The payload length that a push opcode declares to the parser. *)
Definition declaredLength (o : Z) (rest : bytes) : Z :=
  if o <? 76 then o
  else Collaborators.fromLittleEndian (take (lengthBytesOf o) rest).

End Vocabulary.

(** * Part II: properties *)

(** ** 32-bit integer operators *)

Section JSFacts.

Lemma toInt32_range x : - 2 ^ 31 <= JS.toInt32 x < 2 ^ 31.
Proof.
  unfold JS.toInt32.
  pose proof (Z.mod_pos_bound (x + 2 ^ 31) (2 ^ 32) ltac:(lia)). lia.
Qed.

Lemma toInt32_small x : - 2 ^ 31 <= x < 2 ^ 31 -> JS.toInt32 x = x.
Proof.
  intros Hx. unfold JS.toInt32. rewrite Z.mod_small; lia.
Qed.

Lemma shiftCount_range n : 0 <= JS.shiftCount n < 32.
Proof. unfold JS.shiftCount. apply Z.mod_pos_bound. lia. Qed.

(** [(1 << n) - 1], wrapped again by the [&] that uses it, is the mask of
    the low [n mod 32] bits. *)
Lemma toInt32_lowMask n :
  JS.toInt32 (JS.shl 1 n - 1) = Z.ones (JS.shiftCount n).
Proof.
  unfold JS.shl.
  pose proof (shiftCount_range n) as Hk.
  set (k := JS.shiftCount n) in *.
  rewrite (toInt32_small 1) by lia.
  rewrite Z.shiftl_1_l, Z.ones_equiv.
  destruct (Z.eq_dec k 31) as [-> | Hne].
  - reflexivity.
  - assert (0 < 2 ^ k) by (apply Z.pow_pos_nonneg; lia).
    assert (2 ^ k < 2 ^ 31) by (apply Z.pow_lt_mono_r; lia).
    rewrite (toInt32_small (2 ^ k)) by lia.
    rewrite toInt32_small by lia. lia.
Qed.

Lemma and_lowMask_bound a n :
  0 <= n -> 0 <= JS.and a (JS.shl 1 n - 1) < 2 ^ n.
Proof.
  intros Hn. unfold JS.and. rewrite toInt32_lowMask.
  pose proof (shiftCount_range n) as Hk.
  rewrite Z.land_ones by lia.
  assert (0 < 2 ^ JS.shiftCount n) by (apply Z.pow_pos_nonneg; lia).
  pose proof (Z.mod_pos_bound (JS.toInt32 a) (2 ^ JS.shiftCount n) ltac:(lia)).
  assert (2 ^ JS.shiftCount n <= 2 ^ n).
  { apply Z.pow_le_mono_r; [lia |]. unfold JS.shiftCount. apply Z.mod_le; lia. }
  lia.
Qed.

(** A value of at most 31 bits shifted right by its width is zero. *)
Lemma sar_in_range value s :
  0 <= s <= 31 -> 0 <= value < 2 ^ s -> JS.sar value s = 0.
Proof.
  intros Hs Hv. unfold JS.sar, JS.shiftCount.
  rewrite (Z.mod_small s 32) by lia.
  assert (2 ^ s <= 2 ^ 31) by (apply Z.pow_le_mono_r; lia).
  rewrite toInt32_small by lia.
  rewrite Z.shiftr_div_pow2 by lia.
  apply Z.div_small. lia.
Qed.

End JSFacts.

(** ** Bech32 *)

Section Bech32Facts.
Import Bech32 Vocabulary.

(** More fuel does not change what the inner loop returns. *)
Lemma regroupBits_while_fuel_mono fuel fuel' accumulator r m bits result out :
  (fuel <= fuel')%nat ->
  regroupBits_while fuel accumulator r m bits result = Some out ->
  regroupBits_while fuel' accumulator r m bits result = Some out.
Proof.
  revert fuel' bits result.
  induction fuel as [| fuel IH]; intros fuel' bits result Hle Hrun.
  - destruct fuel'; simpl in *; destruct (bits >=? r); congruence.
  - destruct fuel' as [| fuel']; [lia |].
    simpl in *. destruct (bits >=? r); [| exact Hrun].
    apply IH; [lia | exact Hrun].
Qed.

Lemma regroupBits_for_fuel_mono fuel fuel' bin s r m accumulator bits result out :
  (fuel <= fuel')%nat ->
  regroupBits_for fuel bin s r m accumulator bits result = Some out ->
  regroupBits_for fuel' bin s r m accumulator bits result = Some out.
Proof.
  intros Hle. revert accumulator bits result.
  induction bin as [| value rest IH]; intros accumulator bits result Hrun.
  - exact Hrun.
  - simpl in *.
    destruct ((value <? 0) || negb (JS.sar value s =? 0)); [exact Hrun |].
    destruct (regroupBits_while fuel _ r m (bits + s) result) as [[b res] |] eqn:Hw;
      [| discriminate].
    rewrite (regroupBits_while_fuel_mono _ _ _ _ _ _ _ _ Hle Hw).
    apply IH. exact Hrun.
Qed.

Lemma regroupBits_fuel_mono fuel fuel' bin s r padding out :
  (fuel <= fuel')%nat ->
  regroupBits fuel bin s r padding = Some out ->
  regroupBits fuel' bin s r padding = Some out.
Proof.
  intros Hle. unfold regroupBits.
  destruct (regroupBits_for fuel bin s r _ 0 0 []) as [o |] eqn:Hf; [| discriminate].
  rewrite (regroupBits_for_fuel_mono _ _ _ _ _ _ _ _ _ _ Hle Hf).
  trivial.
Qed.

(** The inner loop, given fuel for its iterations, ends below the result
    word length and only appends result words. *)
Lemma regroupBits_while_spec fuel accumulator r bits result :
  1 <= r ->
  0 <= bits < r + Z.of_nat fuel ->
  Forall (resultWord r) result ->
  exists bits' result',
    regroupBits_while fuel accumulator r (JS.shl 1 r - 1) bits result
      = Some (bits', result')
    /\ 0 <= bits' < r
    /\ Forall (resultWord r) result'.
Proof.
  intros Hr. revert bits result.
  induction fuel as [| fuel IH]; intros bits result Hbits Hres; simpl.
  - destruct (Z.geb_spec bits r) as [Hge | Hlt]; [lia |].
    exists bits, result. repeat split; auto; lia.
  - destruct (Z.geb_spec bits r) as [Hge | Hlt].
    + apply IH; [lia |].
      apply Forall_app. split; [exact Hres |].
      constructor; [| constructor].
      apply and_lowMask_bound. lia.
    + exists bits, result. repeat split; auto; lia.
Qed.

Lemma regroupBits_for_spec fuel bin s r accumulator bits result :
  0 <= s <= 31 -> 1 <= r ->
  (Z.to_nat s <= fuel)%nat ->
  Forall (fun value => 0 <= value < 2 ^ s) bin ->
  0 <= bits < r ->
  Forall (resultWord r) result ->
  exists accumulator' bits' result',
    regroupBits_for fuel bin s r (JS.shl 1 r - 1) accumulator bits result
      = Some (inr (accumulator', bits', result'))
    /\ 0 <= bits' < r
    /\ Forall (resultWord r) result'.
Proof.
  intros Hs Hr Hfuel Hbin. revert accumulator bits result.
  induction Hbin as [| value rest Hvalue Hrest IH];
    intros accumulator bits result Hbits Hres; simpl.
  - exists accumulator, bits, result. auto.
  - destruct (Z.ltb_spec value 0) as [Hneg | _]; [lia |].
    rewrite (sar_in_range value s Hs Hvalue). simpl.
    destruct (regroupBits_while_spec fuel
                (JS.or (JS.shl accumulator s) value) r (bits + s) result Hr)
      as (bits' & result' & Hw & Hb' & Hr'); [lia | exact Hres |].
    rewrite Hw. apply IH; assumption.
Qed.

(** C10 (as amended): for a source word length between 0 and 31 and a
    result word length of at least 1, on every input whose elements are
    integers in [0, 2^sourceWordLength), [regroupBits] with
    [padding = true] returns a number array, never an error, whatever fuel
    above the source word length the inner loop is given; and every element
    of the array lies in [0, 2^resultWordLength). *)
Theorem regroupBits_padding_total bin sourceWordLength resultWordLength :
  0 <= sourceWordLength <= 31 ->
  1 <= resultWordLength ->
  Forall (fun value => 0 <= value < 2 ^ sourceWordLength) bin ->
  exists result,
    (forall fuel, (Z.to_nat sourceWordLength <= fuel)%nat ->
       regroupBits fuel bin sourceWordLength resultWordLength true
         = Some (inr result))
    /\ Forall (resultWord resultWordLength) result.
Proof.
  intros Hs Hr Hbin.
  destruct (regroupBits_for_spec (Z.to_nat sourceWordLength) bin
              sourceWordLength resultWordLength 0 0 [] Hs Hr (Nat.le_refl _) Hbin)
    as (accumulator & bits & result & Hfor & Hbits & Hres);
    [lia | constructor |].
  set (padded :=
         if bits >? 0 then
           result ++ [JS.and (JS.shl accumulator (resultWordLength - bits))
                        (JS.shl 1 resultWordLength - 1)]
         else result).
  exists padded. split.
  - intros fuel Hfuel. unfold regroupBits.
    rewrite (regroupBits_for_fuel_mono _ _ _ _ _ _ _ _ _ _ Hfuel Hfor).
    unfold padded. destruct (bits >? 0); reflexivity.
  - unfold padded. destruct (bits >? 0); [| exact Hres].
    apply Forall_app. split; [exact Hres |].
    constructor; [| constructor].
    apply and_lowMask_bound. lia.
Qed.

Lemma regroupBits_padding_total_witness :
  exists result,
    (forall fuel, (Z.to_nat 8 <= fuel)%nat ->
       regroupBits fuel [255; 0; 1] 8 5 true = Some (inr result))
    /\ Forall (resultWord 5) result.
Proof.
  apply (regroupBits_padding_total [255; 0; 1] 8 5); [lia | lia |].
  repeat constructor; lia.
Defined.

(** C10 (as stated) fails for a source word length of 32: the shift count
    of [value >> 32] is taken modulo 32, so the in-range element [1] is
    reported as out of range. *)
Lemma regroupBits_wide_source_rejected :
  Forall (fun value => 0 <= value < 2 ^ 32) [1]
  /\ forall fuel,
       regroupBits fuel [1] 32 8 true = Some (inl integerOutOfRange).
Proof.
  split.
  - repeat constructor; lia.
  - intros fuel. reflexivity.
Qed.

(** A result word length of zero never leaves the inner loop: no amount of
    fuel makes [regroupBits] return on a non-empty input. *)
Lemma regroupBits_while_zero_width fuel accumulator m bits result :
  0 <= bits -> regroupBits_while fuel accumulator 0 m bits result = None.
Proof.
  intros Hbits. revert result.
  induction fuel as [| fuel IH]; intros result; simpl.
  - destruct (Z.geb_spec bits 0); [reflexivity | lia].
  - destruct (Z.geb_spec bits 0); [| lia].
    rewrite Z.sub_0_r. apply IH.
Qed.

Lemma regroupBits_zero_width_diverges fuel :
  regroupBits fuel [0] 1 0 true = None.
Proof.
  unfold regroupBits. simpl regroupBits_for.
  change ((0 <? 0) || negb (JS.sar 0 1 =? 0)) with false. cbv iota.
  rewrite regroupBits_while_zero_width by lia. reflexivity.
Qed.

(** [str[str.length]] is always [undefined]. *)
Lemma charAt_length str : JS.charAt str (String.length str) = None.
Proof.
  unfold JS.charAt. induction str as [| c str IH]; simpl; [reflexivity | exact IH].
Qed.

(** The padding test of [isBech32] reads past the end of the string, so it
    always passes: [isBech32] only checks the characters and the amount of
    padding. *)
Lemma isBech32_padding_test_vacuous maybeBech32 :
  isBech32 maybeBech32 =
  negb (nonBech32Characters_test maybeBech32)
  && ((Z.of_nat (String.length maybeBech32) * base32WordLength)
        mod base256WordLength <? base32WordLength).
Proof.
  unfold isBech32. rewrite charAt_length. simpl bech32CharacterSetIndex.
  simpl JS.toInt32_undefinable. rewrite Z.land_0_l.
  change (0 =? zero) with true. rewrite andb_true_r. reflexivity.
Qed.

(** C9 (violated by the code): the string [qp] has only bech32 characters
    and 2 padding bits, its final character [p] has the 5-bit value 1,
    whose low 2 bits are not zero, and yet [isBech32] returns [true]. *)
Theorem isBech32_accepts_nonzero_padding :
  nonBech32Characters_test "qp" = false
  /\ (Z.of_nat (String.length "qp") * 5) mod 8 = 2
  /\ bech32CharacterSetIndex (JS.charAt "qp" 1) = Some 1
  /\ Z.land 1 (Z.ones 2) <> 0
  /\ isBech32 "qp" = true.
Proof.
  repeat split; try reflexivity. discriminate.
Qed.

(** Regrouping three bytes into 5-bit words, with padding. *)
Example regroupBits_bytes_to_words :
  regroupBits 8 [255; 0; 1] 8 5 true = Some (inr [31; 28; 0; 0; 2]).
Proof. reflexivity. Qed.

(** Without padding, leftover bits that are not zero are an error. *)
Example regroupBits_requires_padding :
  regroupBits 8 [255] 8 5 false = Some (inl requiresDisallowedPadding).
Proof. reflexivity. Qed.

End Bech32Facts.

(** ** Regrouping bits and the Bech32 codec *)

Section RegroupFacts.
Import Bech32 Vocabulary.

Lemma toInt32_sameInt32 x : sameInt32 (JS.toInt32 x) x.
Proof.
  unfold sameInt32, JS.toInt32.
  rewrite Zminus_mod_idemp_l. f_equal. lia.
Qed.

Lemma sameInt32_low x y b :
  sameInt32 x y -> 0 <= b <= 32 -> x mod 2 ^ b = y mod 2 ^ b.
Proof.
  intros Hxy Hb.
  assert (Hd : (2 ^ b | 2 ^ 32)).
  { exists (2 ^ (32 - b)). rewrite <- Z.pow_add_r by lia. f_equal. lia. }
  assert (0 < 2 ^ b) by (apply Z.pow_pos_nonneg; lia).
  rewrite <- (Z.mod_mod_divide x (2 ^ 32) (2 ^ b) Hd).
  rewrite <- (Z.mod_mod_divide y (2 ^ 32) (2 ^ b) Hd).
  unfold sameInt32 in Hxy. rewrite Hxy. reflexivity.
Qed.

Lemma shl_sameInt32 acc A j :
  sameInt32 acc A -> 0 <= j <= 31 -> sameInt32 (JS.shl acc j) (A * 2 ^ j).
Proof.
  intros Hacc Hj. unfold JS.shl, JS.shiftCount.
  rewrite (Z.mod_small j 32) by lia.
  rewrite Z.shiftl_mul_pow2 by lia.
  unfold sameInt32 in *.
  rewrite toInt32_sameInt32.
  rewrite <- Zmult_mod_idemp_l, toInt32_sameInt32, Hacc, Zmult_mod_idemp_l.
  reflexivity.
Qed.

Lemma mask_ones b : 0 <= b <= 31 -> JS.toInt32 (JS.shl 1 b - 1) = Z.ones b.
Proof.
  intros Hb. rewrite toInt32_lowMask. unfold JS.shiftCount.
  rewrite Z.mod_small by lia. reflexivity.
Qed.

(** The padding word [(accumulator << j) & maxResultInt]. *)
Lemma and_shl_value acc A j b :
  sameInt32 acc A -> 0 <= j <= 31 -> 0 <= b <= 31 ->
  JS.and (JS.shl acc j) (JS.shl 1 b - 1) = (A * 2 ^ j) mod 2 ^ b.
Proof.
  intros Hacc Hj Hb. unfold JS.and.
  rewrite mask_ones by lia. rewrite Z.land_ones by lia.
  apply sameInt32_low; [| lia].
  unfold sameInt32. rewrite toInt32_sameInt32. apply shl_sameInt32; assumption.
Qed.

(** The result word [(accumulator >> k) & maxResultInt]. *)
Lemma and_sar_value acc A k b :
  sameInt32 acc A -> 0 <= k -> 0 <= b <= 31 -> k + b <= 32 ->
  JS.and (JS.sar acc k) (JS.shl 1 b - 1) = (A / 2 ^ k) mod 2 ^ b.
Proof.
  intros Hacc Hk Hb Hkb. unfold JS.and.
  rewrite mask_ones by lia. rewrite Z.land_ones by lia.
  unfold JS.sar, JS.shiftCount.
  destruct (Z.eq_dec k 32) as [-> | Hne].
  - assert (b = 0) as -> by lia. rewrite !Z.mod_1_r. reflexivity.
  - rewrite (Z.mod_small k 32) by lia.
    rewrite Z.shiftr_div_pow2 by lia.
    assert (0 < 2 ^ k) by (apply Z.pow_pos_nonneg; lia).
    assert (0 < 2 ^ b) by (apply Z.pow_pos_nonneg; lia).
    pose proof (toInt32_range acc) as Hr.
    assert (Hq : - 2 ^ 31 <= JS.toInt32 acc / 2 ^ k < 2 ^ 31).
    { split.
      - apply Z.div_le_lower_bound; [lia |]. nia.
      - apply Z.div_lt_upper_bound; [lia |]. nia. }
    rewrite toInt32_small by exact Hq.
    (* toInt32 acc = A + t * 2^32 *)
    pose proof (toInt32_sameInt32 acc) as Hs. unfold sameInt32 in Hs, Hacc.
    rewrite Hacc in Hs.
    assert (Ht : exists t, JS.toInt32 acc = A + t * 2 ^ 32).
    { exists (JS.toInt32 acc / 2 ^ 32 - A / 2 ^ 32).
      pose proof (Z.div_mod (JS.toInt32 acc) (2 ^ 32) ltac:(lia)).
      pose proof (Z.div_mod A (2 ^ 32) ltac:(lia)). lia. }
    destruct Ht as [t ->].
    replace (t * 2 ^ 32) with (t * 2 ^ (32 - k) * 2 ^ k).
    2:{ rewrite <- Z.mul_assoc, <- Z.pow_add_r by lia. do 2 f_equal. lia. }
    rewrite Z.div_add by lia.
    replace (t * 2 ^ (32 - k)) with (t * 2 ^ (32 - k - b) * 2 ^ b).
    2:{ rewrite <- Z.mul_assoc, <- Z.pow_add_r by lia. do 2 f_equal. lia. }
    rewrite Z.mod_add by lia. reflexivity.
Qed.

Lemma lor_disjoint x v a :
  0 <= a -> x mod 2 ^ a = 0 -> 0 <= v < 2 ^ a -> Z.lor x v = x + v.
Proof.
  intros Ha Hx Hv.
  assert (Hland : Z.land x v = 0).
  { apply Z.bits_inj'. intros i Hi. rewrite Z.land_spec, Z.bits_0.
    destruct (Z.lt_ge_cases i a) as [Hlt | Hge].
    - assert (Z.testbit x i = false) as ->; [| reflexivity].
      rewrite <- (Z.mod_pow2_bits_low x a i) by lia. rewrite Hx. apply Z.bits_0.
    - assert (Z.testbit v i = false) as ->; [| apply andb_false_r].
      rewrite <- (Z.mod_small v (2 ^ a)) by lia.
      apply Z.mod_pow2_bits_high. lia. }
  rewrite <- Z.lxor_lor by exact Hland.
  symmetry. apply Z.add_nocarry_lxor. exact Hland.
Qed.

(** The accumulator update [(accumulator << s) | value]. *)
Lemma or_shl_sameInt32 acc A s value :
  sameInt32 acc A -> 0 <= s <= 31 -> 0 <= value < 2 ^ s ->
  sameInt32 (JS.or (JS.shl acc s) value) (A * 2 ^ s + value).
Proof.
  intros Hacc Hs Hv. unfold JS.or.
  assert (2 ^ s <= 2 ^ 31) by (apply Z.pow_le_mono_r; lia).
  rewrite (toInt32_small value) by lia.
  rewrite (toInt32_small (JS.shl acc s)) by (unfold JS.shl; apply toInt32_range).
  pose proof (shl_sameInt32 acc A s Hacc Hs) as Hshl.
  rewrite (lor_disjoint _ _ s); [| lia | | exact Hv].
  - unfold sameInt32 in *. rewrite <- Zplus_mod_idemp_l, Hshl, Zplus_mod_idemp_l.
    reflexivity.
  - rewrite (sameInt32_low _ _ s Hshl) by lia.
    apply Z.mod_mul. assert (0 < 2 ^ s) by (apply Z.pow_pos_nonneg; lia). lia.
Qed.


Lemma wordsValue_snoc w l x : wordsValue w (l ++ [x]) = wordsValue w l * 2 ^ w + x.
Proof. unfold wordsValue. rewrite fold_left_app. reflexivity. Qed.

Lemma div_pow2_split A k b :
  0 <= k -> 0 <= b ->
  A / 2 ^ k = (A / 2 ^ (k + b)) * 2 ^ b + (A / 2 ^ k) mod 2 ^ b.
Proof.
  intros Hk Hb.
  assert (0 < 2 ^ k) by (apply Z.pow_pos_nonneg; lia).
  assert (0 < 2 ^ b) by (apply Z.pow_pos_nonneg; lia).
  rewrite Z.pow_add_r by lia. rewrite <- Z.div_div by lia.
  pose proof (Z.div_mod (A / 2 ^ k) (2 ^ b) ltac:(lia)). lia.
Qed.

Lemma regroupBits_while_value fuel acc A r bits result :
  sameInt32 acc A -> 1 <= r <= 31 ->
  0 <= bits <= 32 -> bits < r + Z.of_nat fuel ->
  wordsValue r result = A / 2 ^ bits ->
  exists bits' result',
    regroupBits_while fuel acc r (JS.shl 1 r - 1) bits result = Some (bits', result')
    /\ 0 <= bits' < r
    /\ r * Z.of_nat (length result') + bits' = r * Z.of_nat (length result) + bits
    /\ wordsValue r result' = A / 2 ^ bits'.
Proof.
  intros Hacc Hr. revert bits result.
  induction fuel as [| fuel IH]; intros bits result Hbits Hfuel Hval; simpl.
  - destruct (Z.geb_spec bits r) as [Hge | Hlt]; [lia |].
    exists bits, result. repeat split; auto; lia.
  - destruct (Z.geb_spec bits r) as [Hge | Hlt].
    + rewrite (and_sar_value acc A (bits - r) r Hacc) by lia.
      destruct (IH (bits - r) (result ++ [(A / 2 ^ (bits - r)) mod 2 ^ r]))
        as (bits' & result' & Hw & Hb' & Hlen & Hval'); [lia | lia | |].
      { rewrite wordsValue_snoc, Hval.
        pose proof (div_pow2_split A (bits - r) r ltac:(lia) ltac:(lia)) as E.
        replace (bits - r + r) with bits in E by lia. symmetry. exact E. }
      exists bits', result'. rewrite Hw. split; [reflexivity |].
      rewrite length_app in Hlen. simpl in Hlen.
      split; [exact Hb' |]. split; [lia |]. exact Hval'.
    + exists bits, result. repeat split; auto; lia.
Qed.

Lemma accumulate_app w start l1 l2 :
  accumulate w start (l1 ++ l2) = accumulate w (accumulate w start l1) l2.
Proof. unfold accumulate. apply fold_left_app. Qed.

Lemma regroupBits_for_value fuel bin s r acc A bits result :
  1 <= s -> 1 <= r -> s + r <= 32 ->
  (Z.to_nat s <= fuel)%nat ->
  Forall (fun value => 0 <= value < 2 ^ s) bin ->
  sameInt32 acc A -> 0 <= bits < r ->
  wordsValue r result = A / 2 ^ bits ->
  exists acc' bits' result',
    regroupBits_for fuel bin s r (JS.shl 1 r - 1) acc bits result
      = Some (inr (acc', bits', result'))
    /\ sameInt32 acc' (accumulate s A bin)
    /\ 0 <= bits' < r
    /\ r * Z.of_nat (length result') + bits'
        = r * Z.of_nat (length result) + bits + s * Z.of_nat (length bin)
    /\ wordsValue r result' = accumulate s A bin / 2 ^ bits'.
Proof.
  intros Hs Hr Hsr Hfuel Hbin. revert acc A bits result.
  induction Hbin as [| value rest Hvalue Hrest IH];
    intros acc A bits result Hacc Hbits Hval; simpl.
  - exists acc, bits, result. repeat split; auto; lia.
  - destruct (Z.ltb_spec value 0) as [Hneg | _]; [lia |].
    rewrite (sar_in_range value s) by (lia || exact Hvalue). simpl.
    pose proof (or_shl_sameInt32 acc A s value Hacc ltac:(lia) Hvalue) as Hacc'.
    destruct (regroupBits_while_value fuel _ _ r (bits + s) result Hacc')
      as (bits1 & result1 & Hw & Hb1 & Hlen1 & Hval1); [lia | lia | lia | |].
    { rewrite Hval.
      assert (0 < 2 ^ s) by (apply Z.pow_pos_nonneg; lia).
      assert (0 < 2 ^ bits) by (apply Z.pow_pos_nonneg; lia).
      rewrite (Z.add_comm bits s), Z.pow_add_r by lia.
      rewrite <- Z.div_div by lia.
      rewrite Z.div_add_l by lia. rewrite (Z.div_small value) by lia.
      rewrite Z.add_0_r. reflexivity. }
    rewrite Hw.
    destruct (IH _ _ bits1 result1 Hacc' Hb1 Hval1)
      as (acc2 & bits2 & result2 & Hf & Hacc2 & Hb2 & Hlen2 & Hval2).
    exists acc2, bits2, result2. split; [exact Hf |].
    split; [exact Hacc2 |]. split; [exact Hb2 |].
    split; [| exact Hval2].
    rewrite Hlen2. lia.
Qed.

Lemma mod_pow2_shift A bits r :
  0 <= bits <= r ->
  (A * 2 ^ (r - bits)) mod 2 ^ r = (A mod 2 ^ bits) * 2 ^ (r - bits).
Proof.
  intros Hb.
  replace (2 ^ r) with (2 ^ bits * 2 ^ (r - bits)).
  2:{ rewrite <- Z.pow_add_r by lia. f_equal. lia. }
  assert (0 < 2 ^ bits) by (apply Z.pow_pos_nonneg; lia).
  assert (0 < 2 ^ (r - bits)) by (apply Z.pow_pos_nonneg; lia).
  rewrite Z.mul_mod_distr_r by lia. reflexivity.
Qed.

(** What [regroupBits] computes, in terms of the numbers the word lists
    denote; the leftover [bits] decide the outcome. *)
Lemma regroupBits_value fuel bin s r padding :
  1 <= s -> 1 <= r -> s + r <= 32 ->
  (Z.to_nat s <= fuel)%nat ->
  Forall (fun value => 0 <= value < 2 ^ s) bin ->
  exists bits result,
    0 <= bits < r
    /\ r * Z.of_nat (length result) + bits = s * Z.of_nat (length bin)
    /\ wordsValue r result = wordsValue s bin / 2 ^ bits
    /\ Forall (resultWord r) result
    /\ regroupBits fuel bin s r padding =
        Some (if padding then
                if bits >? 0 then
                  inr (result ++ [(wordsValue s bin mod 2 ^ bits) * 2 ^ (r - bits)])
                else inr result
              else if bits >=? s then inl hasDisallowedPadding
              else if wordsValue s bin mod 2 ^ bits >? 0
                   then inl requiresDisallowedPadding
              else inr result).
Proof.
  intros Hs Hr Hsr Hfuel Hbin.
  destruct (regroupBits_for_value fuel bin s r 0 0 0 [] Hs Hr Hsr Hfuel Hbin)
    as (acc & bits & result & Hf & Hacc & Hb & Hlen & Hval);
    [reflexivity | lia | reflexivity |].
  destruct (regroupBits_for_spec fuel bin s r 0 0 [] ltac:(lia) Hr Hfuel Hbin)
    as (acc' & bits' & result' & Hf' & _ & Hwords); [lia | constructor |].
  rewrite Hf in Hf'. injection Hf' as <- <- <-.
  exists bits, result.
  split; [exact Hb |]. split; [simpl in Hlen; lia |].
  split; [exact Hval |]. split; [exact Hwords |].
  unfold regroupBits. rewrite Hf.
  rewrite (and_shl_value acc _ (r - bits) r Hacc) by lia.
  change (accumulate s 0 bin) with (wordsValue s bin).
  rewrite mod_pow2_shift by lia.
  destruct padding; [destruct (bits >? 0); reflexivity |].
  destruct (bits >=? s); [reflexivity |].
  assert (0 < 2 ^ (r - bits)) by (apply Z.pow_pos_nonneg; lia).
  assert (0 < 2 ^ bits) by (apply Z.pow_pos_nonneg; lia).
  pose proof (Z.mod_pos_bound (wordsValue s bin) (2 ^ bits) ltac:(lia)) as Hm.
  destruct (Z.gtb_spec (wordsValue s bin mod 2 ^ bits) 0) as [Hp | Hz].
  - destruct (Z.gtb_spec (wordsValue s bin mod 2 ^ bits * 2 ^ (r - bits)) 0); [reflexivity | nia].
  - destruct (Z.gtb_spec (wordsValue s bin mod 2 ^ bits * 2 ^ (r - bits)) 0); [nia | reflexivity].
Qed.

Lemma wordsValue_inj w l1 l2 :
  0 <= w ->
  length l1 = length l2 ->
  Forall (resultWord w) l1 -> Forall (resultWord w) l2 ->
  wordsValue w l1 = wordsValue w l2 -> l1 = l2.
Proof.
  intros Hw. revert l2.
  induction l1 as [| x l1 IH] using rev_ind; intros l2 Hlen H1 H2 Hv.
  - destruct l2; [reflexivity | discriminate].
  - destruct l2 as [| y l2 _] using rev_ind.
    { rewrite length_app in Hlen. simpl in Hlen. lia. }
    rewrite !length_app in Hlen. simpl in Hlen.
    rewrite !wordsValue_snoc in Hv.
    apply Forall_app in H1 as [H1 Hx]. apply Forall_app in H2 as [H2 Hy].
    inversion Hx as [| ? ? Hx' _]; subst. inversion Hy as [| ? ? Hy' _]; subst.
    unfold resultWord in Hx', Hy'.
    assert (0 < 2 ^ w) by (apply Z.pow_pos_nonneg; lia).
    assert (Hmx : (wordsValue w l1 * 2 ^ w + x) mod 2 ^ w = x)
      by (rewrite Z.add_comm, Z.mod_add by lia; apply Z.mod_small; lia).
    assert (Hmy : (wordsValue w l2 * 2 ^ w + y) mod 2 ^ w = y)
      by (rewrite Z.add_comm, Z.mod_add by lia; apply Z.mod_small; lia).
    assert (x = y) as -> by (rewrite <- Hmx, <- Hmy, Hv; reflexivity).
    assert (Hv' : wordsValue w l1 = wordsValue w l2) by nia.
    f_equal. apply IH; [lia | assumption | assumption | exact Hv'].
Qed.

Lemma regroupBits_pad_then_strict fuel bin s r :
  1 <= r <= s -> s + r <= 32 ->
  (Z.to_nat s <= fuel)%nat ->
  Forall (fun value => 0 <= value < 2 ^ s) bin ->
  exists words,
    regroupBits fuel bin s r true = Some (inr words)
    /\ Forall (resultWord r) words
    /\ 0 <= r * Z.of_nat (length words) - s * Z.of_nat (length bin) < r
    /\ regroupBits fuel words r s false = Some (inr bin).
Proof.
  intros Hr Hsr Hfuel Hbin.
  destruct (regroupBits_value fuel bin s r true ltac:(lia) ltac:(lia) Hsr Hfuel Hbin)
    as (bits & result & Hb & Hlen & Hval & Hwords & Hrun).
  set (A := wordsValue s bin) in *.
  set (pad := if bits >? 0 then r - bits else 0).
  set (words := if bits >? 0 then result ++ [(A mod 2 ^ bits) * 2 ^ (r - bits)] else result).
  assert (Hrun' : regroupBits fuel bin s r true = Some (inr words)).
  { rewrite Hrun. unfold words. destruct (bits >? 0); reflexivity. }
  assert (0 < 2 ^ bits) by (apply Z.pow_pos_nonneg; lia).
  pose proof (Z.mod_pos_bound A (2 ^ bits) ltac:(lia)) as Hm.
  pose proof (Z.div_mod A (2 ^ bits) ltac:(lia)) as Hdm.
  assert (Hpad : 0 <= pad < r) by (unfold pad; destruct (Z.gtb_spec bits 0); lia).
  assert (HwordsR : Forall (resultWord r) words).
  { unfold words. destruct (Z.gtb_spec bits 0) as [Hp | Hz]; [| exact Hwords].
    apply Forall_app. split; [exact Hwords |]. constructor; [| constructor].
    unfold resultWord.
    replace (2 ^ r) with (2 ^ bits * 2 ^ (r - bits))
      by (rewrite <- Z.pow_add_r by lia; f_equal; lia).
    assert (0 < 2 ^ (r - bits)) by (apply Z.pow_pos_nonneg; lia). nia. }
  assert (HlenW : r * Z.of_nat (length words) = s * Z.of_nat (length bin) + pad).
  { unfold words, pad. destruct (Z.gtb_spec bits 0) as [Hp | Hz].
    - rewrite length_app. simpl. lia.
    - lia. }
  assert (HvalW : wordsValue r words = A * 2 ^ pad).
  { unfold words, pad. destruct (Z.gtb_spec bits 0) as [Hp | Hz].
    - rewrite wordsValue_snoc, Hval.
      replace (2 ^ r) with (2 ^ bits * 2 ^ (r - bits))
        by (rewrite <- Z.pow_add_r by lia; f_equal; lia).
      nia.
    - assert (bits = 0) as Hb0 by lia. rewrite Hb0 in *. rewrite Hval.
      change (2 ^ 0) with 1. rewrite Z.div_1_r. lia. }
  exists words. split; [exact Hrun' |]. split; [exact HwordsR |].
  split; [lia |].
  assert (Hfuel' : (Z.to_nat r <= fuel)%nat) by lia.
  destruct (regroupBits_value fuel words r s false ltac:(lia) ltac:(lia) ltac:(lia)
              Hfuel' HwordsR)
    as (bits2 & out & Hb2 & Hlen2 & Hval2 & Hout & Hrun2).
  rewrite Hrun2.
  assert (Hbp : bits2 = pad /\ length out = length bin).
  { destruct (Z.lt_trichotomy (Z.of_nat (length out)) (Z.of_nat (length bin)))
      as [Hc | [Hc | Hc]]; [nia | split; [nia | lia] | nia]. }
  destruct Hbp as [-> Hn].
  rewrite HvalW in *.
  assert (0 < 2 ^ pad) by (apply Z.pow_pos_nonneg; lia).
  rewrite Z.mod_mul by lia. rewrite Z.div_mul in Hval2 by lia.
  destruct (Z.geb_spec pad r) as [Hge | _]; [lia |].
  change (0 >? 0) with false. cbv iota.
  do 2 f_equal.
  apply (wordsValue_inj s); [lia | exact Hn | exact Hout | | exact Hval2].
  exact Hbin.
Qed.

Lemma regroupBits_strict_then_pad fuel bin s r words :
  1 <= s -> 1 <= r -> s + r <= 32 ->
  (Z.to_nat s <= fuel)%nat -> (Z.to_nat r <= fuel)%nat ->
  Forall (fun value => 0 <= value < 2 ^ s) bin ->
  regroupBits fuel bin s r false = Some (inr words) ->
  Forall (resultWord r) words
  /\ regroupBits fuel words r s true = Some (inr bin).
Proof.
  intros Hs Hr Hsr Hfuel Hfuel' Hbin Hrun.
  destruct (regroupBits_value fuel bin s r false Hs Hr Hsr Hfuel Hbin)
    as (bits & result & Hb & Hlen & Hval & Hwords & Hrun1).
  rewrite Hrun in Hrun1.
  set (A := wordsValue s bin) in *.
  destruct (Z.geb_spec bits s) as [Hge | Hlt]; [discriminate |].
  destruct (Z.gtb_spec (A mod 2 ^ bits) 0) as [Hp | Hz]; [discriminate |].
  injection Hrun1 as ->.
  assert (0 < 2 ^ bits) by (apply Z.pow_pos_nonneg; lia).
  pose proof (Z.mod_pos_bound A (2 ^ bits) ltac:(lia)) as Hm.
  pose proof (Z.div_mod A (2 ^ bits) ltac:(lia)) as Hdm.
  assert (Hm0 : A mod 2 ^ bits = 0) by lia.
  split; [exact Hwords |].
  destruct (regroupBits_value fuel result r s true Hr Hs ltac:(lia) Hfuel' Hwords)
    as (bits2 & out & Hb2 & Hlen2 & Hval2 & Hout & Hrun2).
  rewrite Hrun2. clear Hrun2.
  set (B := wordsValue r result) in *.
  assert (0 < 2 ^ bits2) by (apply Z.pow_pos_nonneg; lia).
  pose proof (Z.mod_pos_bound B (2 ^ bits2) ltac:(lia)) as Hm2.
  pose proof (Z.div_mod B (2 ^ bits2) ltac:(lia)) as Hdm2.
  destruct (Z.gtb_spec bits2 0) as [Hp2 | Hz2].
  - (* one padding word of [s - bits2] zero bits *)
    assert (Hbb : bits = s - bits2 /\ length bin = S (length out)).
    { destruct (Z.lt_trichotomy (Z.of_nat (length bin)) (Z.of_nat (length out) + 1))
        as [Hc | [Hc | Hc]]; [nia | split; [nia | lia] | nia]. }
    destruct Hbb as [Hbits Hn].
    do 2 f_equal.
    apply (wordsValue_inj s); [lia | | | exact Hbin |].
    + rewrite length_app. simpl. lia.
    + apply Forall_app. split; [exact Hout |]. constructor; [| constructor].
      unfold resultWord.
      replace (2 ^ s) with (2 ^ bits2 * 2 ^ (s - bits2))
        by (rewrite <- Z.pow_add_r by lia; f_equal; lia).
      assert (0 < 2 ^ (s - bits2)) by (apply Z.pow_pos_nonneg; lia). nia.
    + rewrite wordsValue_snoc, Hval2. fold A.
      replace (2 ^ s) with (2 ^ bits2 * 2 ^ (s - bits2))
        by (rewrite <- Z.pow_add_r by lia; f_equal; lia).
      rewrite <- Hbits. nia.
  - assert (bits2 = 0) as Hb20 by lia. rewrite Hb20 in *.
    assert (Hbb : bits = 0 /\ length bin = length out).
    { destruct (Z.lt_trichotomy (Z.of_nat (length bin)) (Z.of_nat (length out)))
        as [Hc | [Hc | Hc]]; [nia | split; [nia | lia] | nia]. }
    destruct Hbb as [Hbits Hn]. rewrite Hbits in *.
    change (2 ^ 0) with 1 in *. rewrite Z.div_1_r in *.
    do 2 f_equal.
    apply (wordsValue_inj s); [lia | lia | exact Hout | exact Hbin |].
    fold A. lia.
Qed.


(** X1: Regrouping with padding and regrouping back without: the original
    words come back when the intermediate words are no wider than the
    original ones; the intermediate array has the total number of bits
    divided by the result word length, rounded up, as its length. *)
Theorem regroupBits_padded_round_trip fuel bin s r :
  1 <= r <= s -> s + r <= 32 ->
  (Z.to_nat s <= fuel)%nat ->
  Forall (fun value => 0 <= value < 2 ^ s) bin ->
  exists words,
    regroupBits fuel bin s r true = Some (inr words)
    /\ Z.of_nat (length words) = (s * Z.of_nat (length bin) + r - 1) / r
    /\ regroupBits fuel words r s false = Some (inr bin).
Proof.
  intros Hr Hsr Hfuel Hbin.
  destruct (regroupBits_pad_then_strict fuel bin s r Hr Hsr Hfuel Hbin)
    as (words & Hrun & _ & Hlen & Hback).
  exists words. split; [exact Hrun |]. split; [| exact Hback].
  apply (Z.div_unique _ _ _
           (r - 1 - (r * Z.of_nat (length words) - s * Z.of_nat (length bin))));
    lia.
Qed.

(** X2: Regrouping without padding and regrouping back with padding: whenever
    the first succeeds, the second returns the original words. *)
Theorem regroupBits_strict_round_trip fuel bin s r words :
  1 <= s -> 1 <= r -> s + r <= 32 ->
  (Z.to_nat s <= fuel)%nat -> (Z.to_nat r <= fuel)%nat ->
  Forall (fun value => 0 <= value < 2 ^ s) bin ->
  regroupBits fuel bin s r false = Some (inr words) ->
  regroupBits fuel words r s true = Some (inr bin).
Proof.
  intros Hs Hr Hsr Hfuel Hfuel' Hbin Hrun.
  destruct (regroupBits_strict_then_pad fuel bin s r words
              Hs Hr Hsr Hfuel Hfuel' Hbin Hrun) as [_ Hback].
  exact Hback.
Qed.

(** X3: The outcome of [regroupBits] on in-range input, in closed form: the
    number of leftover bits is the total number of bits modulo the result
    word length. *)
Theorem regroupBits_outcome fuel bin s r padding :
  1 <= s -> 1 <= r -> s + r <= 32 ->
  (Z.to_nat s <= fuel)%nat ->
  Forall (fun value => 0 <= value < 2 ^ s) bin ->
  let total := s * Z.of_nat (length bin) in
  let bits := total mod r in
  let value := wordsValue s bin in
  exists words,
    Z.of_nat (length words) = total / r
    /\ wordsValue r words = value / 2 ^ bits
    /\ Forall (resultWord r) words
    /\ regroupBits fuel bin s r padding =
        Some (if padding then
                if bits >? 0 then
                  inr (words ++ [(value mod 2 ^ bits) * 2 ^ (r - bits)])
                else inr words
              else if bits >=? s then inl hasDisallowedPadding
              else if value mod 2 ^ bits >? 0 then inl requiresDisallowedPadding
              else inr words).
Proof.
  intros Hs Hr Hsr Hfuel Hbin total bits value.
  destruct (regroupBits_value fuel bin s r padding Hs Hr Hsr Hfuel Hbin)
    as (bits' & words & Hb & Hlen & Hval & Hwords & Hrun).
  assert (Hbits : bits = bits').
  { unfold bits, total. symmetry.
    apply (Z.mod_unique _ _ (Z.of_nat (length words))); [lia | lia]. }
  assert (Hq : total / r = Z.of_nat (length words)).
  { unfold total. symmetry.
    apply (Z.div_unique _ _ _ bits'); [lia | lia]. }
  exists words. rewrite Hq, Hbits. auto.
Qed.

Lemma regroupBits_for_app fuel l1 l2 s r m acc bits result :
  regroupBits_for fuel (l1 ++ l2) s r m acc bits result =
  match regroupBits_for fuel l1 s r m acc bits result with
  | Some (inr (acc', bits', result')) =>
      regroupBits_for fuel l2 s r m acc' bits' result'
  | other => other
  end.
Proof.
  revert acc bits result.
  induction l1 as [| value rest IH]; intros acc bits result; [reflexivity |].
  cbn [app regroupBits_for].
  destruct ((value <? 0) || negb (JS.sar value s =? 0)); [reflexivity |].
  destruct (regroupBits_while fuel _ r m (bits + s) result) as [[b res] |];
    [apply IH | reflexivity].
Qed.

Lemma sar_out_of_range value s :
  0 <= s <= 31 -> 2 ^ s <= value < 2 ^ 32 -> JS.sar value s <> 0.
Proof.
  intros Hs Hv. unfold JS.sar, JS.shiftCount.
  rewrite (Z.mod_small s 32) by lia.
  rewrite Z.shiftr_div_pow2 by lia.
  assert (0 < 2 ^ s) by (apply Z.pow_pos_nonneg; lia).
  destruct (Z.lt_ge_cases value (2 ^ 31)) as [Hlow | Hhigh].
  - rewrite toInt32_small by lia.
    assert (1 <= value / 2 ^ s) by (apply Z.div_le_lower_bound; lia). lia.
  - assert (Ht : JS.toInt32 value = value - 2 ^ 32).
    { unfold JS.toInt32.
      replace (value + 2 ^ 31) with (value - 2 ^ 31 + 1 * 2 ^ 32) by lia.
      rewrite Z.mod_add by lia. rewrite Z.mod_small by lia. lia. }
    rewrite Ht.
    assert ((value - 2 ^ 32) / 2 ^ s < 0) by (apply Z.div_lt_upper_bound; lia).
    lia.
Qed.

(** X4: An element below zero, or from [2 ^ sourceWordLength] up to
    [2 ^ 32 - 1], after elements in range, makes [regroupBits] answer
    [integerOutOfRange], with or without padding. *)
Theorem regroupBits_rejects_out_of_range fuel before value after s r padding :
  0 <= s <= 31 -> 1 <= r ->
  (Z.to_nat s <= fuel)%nat ->
  Forall (fun v => 0 <= v < 2 ^ s) before ->
  value < 0 \/ 2 ^ s <= value < 2 ^ 32 ->
  regroupBits fuel (before ++ value :: after) s r padding
  = Some (inl integerOutOfRange).
Proof.
  intros Hs Hr Hfuel Hbefore Hvalue. unfold regroupBits.
  rewrite regroupBits_for_app.
  destruct (regroupBits_for_spec fuel before s r 0 0 [] Hs Hr Hfuel Hbefore)
    as (acc & bits & result & -> & _); [lia | constructor |].
  cbn [regroupBits_for].
  assert (Hreject : (value <? 0) || negb (JS.sar value s =? 0) = true).
  { destruct Hvalue as [Hneg | Hbig].
    - apply orb_true_iff. left. apply Z.ltb_lt. exact Hneg.
    - apply orb_true_iff. right. apply negb_true_iff, Z.eqb_neq.
      apply sar_out_of_range; assumption. }
  rewrite Hreject. reflexivity.
Qed.

(** X5: [regroupBits] reads every non-negative element modulo [2 ^ 32]: two
    arrays whose elements agree after [ToInt32] are regrouped alike. *)
Theorem regroupBits_reads_modulo_int32 fuel bin1 bin2 s r padding :
  Forall2 (fun a b => 0 <= a /\ 0 <= b /\ JS.toInt32 a = JS.toInt32 b) bin1 bin2 ->
  regroupBits fuel bin1 s r padding = regroupBits fuel bin2 s r padding.
Proof.
  intros Hsame. unfold regroupBits.
  assert (G : forall acc bits result,
    regroupBits_for fuel bin1 s r (JS.shl 1 r - 1) acc bits result
    = regroupBits_for fuel bin2 s r (JS.shl 1 r - 1) acc bits result).
  { induction Hsame as [| a b l1 l2 (Ha & Hb & Hab) _ IH]; intros acc bits result;
      [reflexivity |].
    cbn [regroupBits_for].
    destruct (Z.ltb_spec a 0) as [? | _]; [lia |].
    destruct (Z.ltb_spec b 0) as [? | _]; [lia |].
    unfold JS.sar, JS.or. rewrite Hab.
    destruct (negb _); cbn [orb]; [reflexivity |].
    destruct (regroupBits_while fuel _ r _ (bits + s) result) as [[b' res] |];
      [apply IH | reflexivity]. }
  rewrite G. reflexivity.
Qed.
End RegroupFacts.

Section Bech32CodecFacts.
Import Bech32 Bech32Codec Instructions Vocabulary.

Lemma list_ascii_of_string_app (a b : string) :
  list_ascii_of_string (a ++ b)%string
  = list_ascii_of_string a ++ list_ascii_of_string b.
Proof. induction a as [| c a IH]; simpl; [reflexivity | now rewrite IH]. Qed.

Lemma list_ascii_of_string_inj (a b : string) :
  list_ascii_of_string a = list_ascii_of_string b -> a = b.
Proof.
  intros E. rewrite <- (string_of_list_ascii_of_string a), E.
  apply string_of_list_ascii_of_string.
Qed.

Lemma length_list_ascii_of_string (a : string) :
  length (list_ascii_of_string a) = String.length a.
Proof. induction a as [| c a IH]; simpl; [reflexivity | now rewrite IH]. Qed.

Lemma encodeBech32_characters l :
  list_ascii_of_string (encodeBech32 l) = flat_map encodedCharacters l.
Proof.
  unfold encodeBech32.
  assert (G : forall result,
    list_ascii_of_string
      (fold_left (fun result v => appendCharacter result (characterAt v)) l result)
    = list_ascii_of_string result ++ flat_map encodedCharacters l).
  { induction l as [| v l IH]; intros result; simpl.
    - now rewrite app_nil_r.
    - rewrite IH. unfold appendCharacter, encodedCharacters.
      destruct (characterAt v); rewrite list_ascii_of_string_app, <- app_assoc;
        reflexivity. }
  apply G.
Qed.

Lemma characterAt_index (v : Z) :
  0 <= v < 32 ->
  exists c, characterAt v = Some c
    /\ bech32CharacterSetIndex (Some c) = Some v
    /\ In c (list_ascii_of_string bech32CharacterSet).
Proof.
  intros Hv.
  assert (Hn : exists n, v = Z.of_nat n /\ (n < 32)%nat)
    by (exists (Z.to_nat v); lia).
  destruct Hn as (n & -> & Hn). clear Hv.
  do 32 (destruct n as [| n];
         [eexists; split; [reflexivity | split; [reflexivity | simpl; tauto]] |]).
  lia.
Qed.

Lemma index_characterAt (c : ascii) :
  In c (list_ascii_of_string bech32CharacterSet) ->
  exists v, 0 <= v < 32
    /\ bech32CharacterSetIndex (Some c) = Some v
    /\ characterAt v = Some c.
Proof.
  simpl. intros Hc.
  repeat (destruct Hc as [<- | Hc];
          [eexists; split; [| split; reflexivity]; lia |]).
  destruct Hc.
Qed.

Lemma nonBech32Characters_test_false str :
  nonBech32Characters_test str = false <->
  Forall (fun c => In c (list_ascii_of_string bech32CharacterSet))
    (list_ascii_of_string str).
Proof.
  unfold nonBech32Characters_test.
  rewrite <- not_true_iff_false, existsb_exists, List.Forall_forall. split.
  - intros Hn c Hc.
    destruct (existsb (Ascii.eqb c) (list_ascii_of_string bech32CharacterSet)) eqn:E.
    + apply existsb_exists in E as (x & Hx & Heq).
      apply Ascii.eqb_eq in Heq. subst. exact Hx.
    + exfalso. apply Hn. exists c. split; [exact Hc | now rewrite E].
  - intros Hall (c & Hc & Hneg). apply negb_true_iff in Hneg.
    assert (existsb (Ascii.eqb c) (list_ascii_of_string bech32CharacterSet) = true).
    { apply existsb_exists. exists c. split; [exact (Hall c Hc) | apply Ascii.eqb_refl]. }
    congruence.
Qed.

Lemma encodeBech32_in_range words :
  Forall (fun v => 0 <= v < 32) words ->
  List.map (fun c => bech32CharacterSetIndex (Some c))
    (list_ascii_of_string (encodeBech32 words)) = List.map Some words
  /\ length (list_ascii_of_string (encodeBech32 words)) = length words
  /\ Forall (fun c => In c (list_ascii_of_string bech32CharacterSet))
       (list_ascii_of_string (encodeBech32 words)).
Proof.
  intros Hw. rewrite encodeBech32_characters.
  induction Hw as [| v l Hv Hl (IH1 & IH2 & IH3)].
  - repeat split. constructor.
  - destruct (characterAt_index v Hv) as (c & Hc & Hi & Hin).
    assert (Hone : encodedCharacters v = [c])
      by (unfold encodedCharacters; now rewrite Hc).
    cbn [flat_map]. rewrite Hone. cbn [app List.map length].
    rewrite Hi, IH1, IH2. repeat split. constructor; assumption.
Qed.

Lemma decodeBech32_of_characters str :
  Forall (fun c => In c (list_ascii_of_string bech32CharacterSet))
    (list_ascii_of_string str) ->
  exists words,
    decodeBech32 str = List.map Some words
    /\ Forall (fun v => 0 <= v < 32) words
    /\ flat_map encodedCharacters words = list_ascii_of_string str.
Proof.
  unfold decodeBech32. intros Hall.
  induction Hall as [| c l Hc Hl (words & IH1 & IH2 & IH3)].
  - exists []. repeat split. constructor.
  - destruct (index_characterAt c Hc) as (v & Hv & Hi & Hch).
    assert (Hone : encodedCharacters v = [c])
      by (unfold encodedCharacters; now rewrite Hch).
    exists (v :: words). cbn [flat_map List.map].
    rewrite Hone, Hi, IH1, IH3.
    repeat split. constructor; assumption.
Qed.

(** X6: Decoding an encoded array of 5-bit words gives the words back; the
    encoding has one character of the character set per word. *)
Theorem decodeBech32_encodeBech32 words :
  Forall (fun v => 0 <= v < 32) words ->
  decodeBech32 (encodeBech32 words) = List.map Some words
  /\ String.length (encodeBech32 words) = length words
  /\ nonBech32Characters_test (encodeBech32 words) = false.
Proof.
  intros Hw.
  destruct (encodeBech32_in_range words Hw) as (Hmap & Hlen & Hall).
  unfold decodeBech32. rewrite <- length_list_ascii_of_string.
  rewrite nonBech32Characters_test_false. auto.
Qed.

(** X7: Encoding the decoding of a string of bech32 characters gives the
    string back; the decoding has no [undefined] entry. *)
Theorem encodeBech32_decodeBech32 str :
  nonBech32Characters_test str = false ->
  exists words,
    decodeBech32 str = List.map Some words
    /\ Forall (fun v => 0 <= v < 32) words
    /\ encodeBech32 words = str.
Proof.
  rewrite nonBech32Characters_test_false. intros Hall.
  destruct (decodeBech32_of_characters str Hall) as (words & Hmap & Hrange & Hchars).
  exists words. split; [exact Hmap |]. split; [exact Hrange |].
  apply list_ascii_of_string_inj. rewrite encodeBech32_characters. exact Hchars.
Qed.

Lemma toUint8_byteToZ b : JS.toUint8 (byteToZ b) = b.
Proof. destruct b; reflexivity. Qed.

Lemma byteToZ_range b : 0 <= byteToZ b < 2 ^ 8.
Proof. destruct b; vm_compute; split; congruence. Qed.

Lemma byteToZ_toUint8 x : 0 <= x < 2 ^ 8 -> byteToZ (JS.toUint8 x) = x.
Proof.
  intros Hx. unfold JS.toUint8, byteToZ.
  change (2 ^ 8) with 256 in Hx.
  rewrite Z.mod_small by lia.
  destruct (Byte.of_N (Z.to_N x)) as [b |] eqn:E.
  - apply Byte.to_of_N in E. simpl. rewrite E. lia.
  - pose proof (Byte.to_of_N_option_map (Z.to_N x)) as Hm. rewrite E in Hm.
    simpl in Hm. destruct (N.leb_spec (Z.to_N x) 255); [discriminate | lia].
Qed.

Lemma map_bitOperand_Some words : List.map JS.bitOperand (List.map Some words) = words.
Proof. induction words as [| v l IH]; simpl; [reflexivity | now rewrite IH]. Qed.

(** X8: [binToBech32Padded] followed by [bech32PaddedToBin] is the identity
    on byte arrays. *)
Theorem bech32Padded_round_trip fuel (bin : bytes) :
  (8 <= fuel)%nat ->
  exists bech32Padded,
    binToBech32Padded fuel bin = Some bech32Padded
    /\ isBech32 bech32Padded = true
    /\ bech32PaddedToBin fuel bech32Padded = Some (inr bin).
Proof.
  intros Hfuel.
  destruct (regroupBits_pad_then_strict fuel (List.map byteToZ bin) 8 5)
    as (words & Hrun & Hwords & Hlen & Hback); [lia | lia | lia | |].
  { apply List.Forall_forall. intros x Hx. apply in_map_iff in Hx as (b & <- & _).
    apply byteToZ_range. }
  destruct (encodeBech32_in_range words Hwords) as (Hdec & Hlength & Hchars).
  rewrite length_list_ascii_of_string in Hlength.
  apply nonBech32Characters_test_false in Hchars.
  fold (decodeBech32 (encodeBech32 words)) in Hdec.
  exists (encodeBech32 words).
  unfold binToBech32Padded, base256WordLength, base32WordLength. rewrite Hrun.
  split; [reflexivity |].
  assert (His : isBech32 (encodeBech32 words) = true).
  { rewrite isBech32_padding_test_vacuous, Hchars, Hlength.
    unfold base32WordLength, base256WordLength. simpl negb. rewrite andb_true_l.
    apply Z.ltb_lt. rewrite length_map in Hlen.
    replace (Z.of_nat (length words) * 5)
      with ((5 * Z.of_nat (length words) - 8 * Z.of_nat (length bin))
            + Z.of_nat (length bin) * 8) by lia.
    rewrite Z.mod_add by lia. rewrite Z.mod_small by lia. lia. }
  split; [exact His |].
  unfold bech32PaddedToBin, base256WordLength, base32WordLength.
  rewrite His, Hdec, map_bitOperand_Some, Hback.
  do 2 f_equal. rewrite map_map.
  rewrite <- (map_id bin) at 2. apply map_ext. apply toUint8_byteToZ.
Qed.

(** X9: Whenever [bech32PaddedToBin] returns bytes, [binToBech32Padded] maps
    them back to the string that was decoded. *)
Theorem bech32PaddedToBin_canonical fuel bech32Padded (bin : bytes) :
  (8 <= fuel)%nat ->
  bech32PaddedToBin fuel bech32Padded = Some (inr bin) ->
  binToBech32Padded fuel bin = Some bech32Padded.
Proof.
  intros Hfuel. unfold bech32PaddedToBin.
  destruct (isBech32 bech32Padded) eqn:His; [| discriminate].
  rewrite isBech32_padding_test_vacuous in His.
  apply andb_prop in His as [Hchars _]. apply negb_true_iff in Hchars.
  apply nonBech32Characters_test_false in Hchars.
  destruct (decodeBech32_of_characters bech32Padded Hchars)
    as (words & Hdec & Hwords & Henc).
  assert (Hstring : encodeBech32 words = bech32Padded)
    by (apply list_ascii_of_string_inj; rewrite encodeBech32_characters; exact Henc).
  rewrite Hdec, map_bitOperand_Some.
  unfold base32WordLength, base256WordLength.
  destruct (regroupBits fuel words 5 8 false) as [[e | result] |] eqn:Hrun;
    try discriminate.
  intros [= <-].
  destruct (regroupBits_strict_then_pad fuel words 5 8 result)
    as [Hresult Hback]; [lia | lia | lia | lia | lia | exact Hwords | exact Hrun |].
  unfold binToBech32Padded, base32WordLength, base256WordLength.
  rewrite map_map.
  rewrite (map_ext_Forall _ id), map_id.
  - rewrite Hback, Hstring. reflexivity.
  - eapply Forall_impl; [exact Hresult |].
    intros x Hx. apply byteToZ_toUint8. exact Hx.
Qed.

(** X10: [bech32PaddedToBin] answers [notBech32Padded] exactly on the strings
    with a character outside the character set or with 5 or more bits of
    padding. *)
Theorem bech32PaddedToBin_notBech32Padded_iff fuel bech32Padded :
  bech32PaddedToBin fuel bech32Padded = Some (inl (inr notBech32Padded))
  <-> (nonBech32Characters_test bech32Padded = true
       \/ 5 <= (Z.of_nat (String.length bech32Padded) * 5) mod 8).
Proof.
  unfold bech32PaddedToBin.
  rewrite isBech32_padding_test_vacuous.
  unfold base32WordLength, base256WordLength.
  destruct (nonBech32Characters_test bech32Padded); cbn [negb andb].
  { split; [intros _; left; reflexivity | reflexivity]. }
  destruct (Z.ltb_spec ((Z.of_nat (String.length bech32Padded) * 5) mod 8) 5)
    as [Hlt | Hge].
  - split.
    + destruct (regroupBits fuel _ 5 8 false) as [[e | result] |]; discriminate.
    + intros [Habs | Habs]; [discriminate | lia].
  - split; [intros _; right; exact Hge | reflexivity].
Qed.
End Bech32CodecFacts.

(** ** Concrete runs of the Bech32 helpers *)

Section Bech32CodecRuns.
Import Bech32 Bech32Codec Instructions Vocabulary.

Lemma decodeBech32_encodeBech32_witness :
  decodeBech32 (encodeBech32 [0; 31; 5]) = [Some 0; Some 31; Some 5]
  /\ String.length (encodeBech32 [0; 31; 5]) = 3%nat
  /\ nonBech32Characters_test (encodeBech32 [0; 31; 5]) = false.
Proof.
  apply (decodeBech32_encodeBech32 [0; 31; 5]).
  repeat constructor; lia.
Defined.

Lemma encodeBech32_decodeBech32_witness :
  exists words,
    decodeBech32 "qpzl" = List.map Some words
    /\ Forall (fun v => 0 <= v < 32) words
    /\ encodeBech32 words = "qpzl".
Proof. apply (encodeBech32_decodeBech32 "qpzl"). reflexivity. Defined.

Lemma regroupBits_padded_round_trip_witness :
  exists words,
    regroupBits 8 [255; 0; 1] 8 5 true = Some (inr words)
    /\ Z.of_nat (length words) = 5
    /\ regroupBits 8 words 5 8 false = Some (inr [255; 0; 1]).
Proof.
  apply (regroupBits_padded_round_trip 8 [255; 0; 1] 8 5); [lia | lia | lia |].
  repeat constructor; simpl; lia.
Defined.

Lemma regroupBits_strict_round_trip_witness :
  regroupBits 8 [255; 0; 1] 8 5 true = Some (inr [31; 28; 0; 0; 2]).
Proof.
  apply (regroupBits_strict_round_trip 8 [31; 28; 0; 0; 2] 5 8 [255; 0; 1]);
    [lia | lia | lia | lia | lia | | reflexivity].
  repeat constructor; simpl; lia.
Defined.

(** The two words of [qp]: 10 bits, of which the 2 left over are not
    zero. *)
Lemma regroupBits_outcome_witness :
  regroupBits 8 [0; 1] 5 8 false = Some (inl requiresDisallowedPadding).
Proof.
  destruct (regroupBits_outcome 8 [0; 1] 5 8 false)
    as (words & _ & _ & _ & Hrun); [lia | lia | lia | lia | | exact Hrun].
  repeat constructor; simpl; lia.
Defined.

Lemma regroupBits_rejects_out_of_range_witness :
  regroupBits 8 ([1] ++ 256 :: [2]) 8 5 true = Some (inl integerOutOfRange).
Proof.
  apply (regroupBits_rejects_out_of_range 8 [1] 256 [2] 8 5 true);
    [lia | lia | lia | | right; simpl; lia].
  repeat constructor; simpl; lia.
Defined.

(** [2 ^ 32 + 3] is regrouped like [3]. *)
Lemma regroupBits_reads_modulo_int32_witness :
  regroupBits 8 [4294967299] 8 5 true = regroupBits 8 [3] 8 5 true.
Proof.
  apply (regroupBits_reads_modulo_int32 8 [4294967299] [3] 8 5 true).
  constructor; [| constructor].
  split; [lia |]. split; [lia | reflexivity].
Defined.

Lemma bech32Padded_round_trip_witness :
  exists bech32Padded,
    binToBech32Padded 8 [Byte.xff; Byte.x00; Byte.x01] = Some bech32Padded
    /\ isBech32 bech32Padded = true
    /\ bech32PaddedToBin 8 bech32Padded = Some (inr [Byte.xff; Byte.x00; Byte.x01]).
Proof. apply (bech32Padded_round_trip 8 [Byte.xff; Byte.x00; Byte.x01]). lia. Defined.

Lemma bech32PaddedToBin_canonical_witness :
  binToBech32Padded 8 [Byte.xff; Byte.x00; Byte.x01] = Some "luqqz".
Proof.
  apply (bech32PaddedToBin_canonical 8 "luqqz" [Byte.xff; Byte.x00; Byte.x01]);
    [lia | reflexivity].
Defined.

Lemma bech32PaddedToBin_notBech32Padded_iff_witness :
  bech32PaddedToBin 8 "qb" = Some (inl (inr notBech32Padded))
  /\ bech32PaddedToBin 8 "q" = Some (inl (inr notBech32Padded)).
Proof.
  split.
  - apply (bech32PaddedToBin_notBech32Padded_iff 8 "qb"). left. reflexivity.
  - apply (bech32PaddedToBin_notBech32Padded_iff 8 "q"). right.
    vm_compute. discriminate.
Defined.

(** A string whose padding bits are not zero passes [isBech32] and is
    still refused by [bech32PaddedToBin]. *)
Example bech32PaddedToBin_nonzero_padding :
  isBech32 "qp" = true
  /\ bech32PaddedToBin 8 "qp" = Some (inl (inl requiresDisallowedPadding)).
Proof. split; reflexivity. Qed.

(** An element outside the character set is encoded as the text
    [undefined]. *)
Example encodeBech32_out_of_range :
  encodeBech32 [0; 32] = "qundefined".
Proof. reflexivity. Qed.

End Bech32CodecRuns.

(** ** Range merging *)

Section RangeFacts.
Import Ranges Vocabulary.

Lemma positionLe_refl p : positionLe p p.
Proof. unfold positionLe. lia. Qed.

Lemma positionLe_trans p q r : positionLe p q -> positionLe q r -> positionLe p r.
Proof. unfold positionLe. lia. Qed.

Lemma positionLe_antisym p q : positionLe p q -> positionLe q p -> p = q.
Proof.
  destruct p, q. unfold positionLe. simpl. intros H1 H2. f_equal; lia.
Qed.

Lemma positionLe_total p q : positionLe p q \/ positionLe q p.
Proof. unfold positionLe. lia. Qed.

Lemma range_eq m m' :
  startOf m = startOf m' -> endOf m = endOf m' -> m = m'.
Proof.
  destruct m, m'. unfold startOf, endOf. simpl.
  intros H1 H2. inversion H1. inversion H2. reflexivity.
Qed.

(** The final [{ ...pluckStartPosition(m), ...pluckEndPosition(m) }] is a
    copy. *)
Lemma spread_pluck m :
  spreadPositions (pluckStartPosition m) (pluckEndPosition m) = m.
Proof. destruct m. reflexivity. Qed.

(** One step of the reduction keeps the smaller start and the larger end. *)
Lemma mergeRanges_step_start merged range :
  startOf (mergeRanges_step merged range) = startOf range
  /\ positionLe (startOf range) (startOf merged)
  \/ startOf (mergeRanges_step merged range) = startOf merged
  /\ positionLe (startOf merged) (startOf range).
Proof.
  unfold mergeRanges_step, startOf, positionLe. simpl.
  destruct (Z.ltb_spec (startLineNumber range) (startLineNumber merged));
    [left; simpl; split; [reflexivity | lia] |].
  destruct (Z.eqb_spec (startLineNumber range) (startLineNumber merged));
    destruct (Z.ltb_spec (startColumn range) (startColumn merged)); simpl;
    solve [left; split; [reflexivity | lia] | right; split; [reflexivity | lia]].
Qed.

Lemma mergeRanges_step_end merged range :
  endOf (mergeRanges_step merged range) = endOf range
  /\ positionLe (endOf merged) (endOf range)
  \/ endOf (mergeRanges_step merged range) = endOf merged
  /\ positionLe (endOf range) (endOf merged).
Proof.
  unfold mergeRanges_step, endOf, positionLe. simpl.
  destruct (Z.gtb_spec (endLineNumber range) (endLineNumber merged));
    [left; simpl; split; [reflexivity | lia] |].
  destruct (Z.eqb_spec (endLineNumber range) (endLineNumber merged));
    destruct (Z.gtb_spec (endColumn range) (endColumn merged)); simpl;
    solve [left; split; [reflexivity | lia] | right; split; [reflexivity | lia]].
Qed.

Lemma MinStartMaxEnd_step seen merged range :
  MinStartMaxEnd seen merged ->
  MinStartMaxEnd (seen ++ [range]) (mergeRanges_step merged range).
Proof.
  intros ((rs & Hrs & Hs) & Hmin & (re & Hre & He) & Hmax).
  pose proof (mergeRanges_step_start merged range) as Hstart.
  pose proof (mergeRanges_step_end merged range) as Hend.
  repeat split.
  - destruct Hstart as [[E _] | [E _]].
    + exists range. split; [apply in_or_app; right; left; reflexivity | exact E].
    + exists rs. split; [apply in_or_app; left; exact Hrs | congruence].
  - intros r Hr. apply in_app_or in Hr.
    destruct Hstart as [[E L] | [E L]]; rewrite E.
    + destruct Hr as [Hr | [<- | []]]; [| apply positionLe_refl].
      eapply positionLe_trans; [exact L | apply Hmin; exact Hr].
    + destruct Hr as [Hr | [<- | []]]; [apply Hmin; exact Hr | exact L].
  - destruct Hend as [[E _] | [E _]].
    + exists range. split; [apply in_or_app; right; left; reflexivity | exact E].
    + exists re. split; [apply in_or_app; left; exact Hre | congruence].
  - intros r Hr. apply in_app_or in Hr.
    destruct Hend as [[E L] | [E L]]; rewrite E.
    + destruct Hr as [Hr | [<- | []]]; [| apply positionLe_refl].
      eapply positionLe_trans; [apply Hmax; exact Hr | exact L].
    + destruct Hr as [Hr | [<- | []]]; [apply Hmax; exact Hr | exact L].
Qed.

Lemma MinStartMaxEnd_fold ranges seen merged :
  MinStartMaxEnd seen merged ->
  MinStartMaxEnd (seen ++ ranges) (fold_left mergeRanges_step ranges merged).
Proof.
  revert seen merged.
  induction ranges as [| range rest IH]; intros seen merged Hm; simpl.
  - rewrite app_nil_r. exact Hm.
  - replace (seen ++ range :: rest) with ((seen ++ [range]) ++ rest)
      by (rewrite <- app_assoc; reflexivity).
    apply IH. apply MinStartMaxEnd_step. exact Hm.
Qed.

(** The property depends on the members of the list only. *)
Lemma MinStartMaxEnd_members ranges ranges' m :
  (forall r, In r ranges <-> In r ranges') ->
  MinStartMaxEnd ranges m -> MinStartMaxEnd ranges' m.
Proof.
  intros Hmem ((rs & Hrs & Hs) & Hmin & (re & Hre & He) & Hmax).
  repeat split.
  - exists rs. split; [apply Hmem; exact Hrs | exact Hs].
  - intros r Hr. apply Hmin, Hmem, Hr.
  - exists re. split; [apply Hmem; exact Hre | exact He].
  - intros r Hr. apply Hmax, Hmem, Hr.
Qed.

(** The property determines the range. *)
Lemma MinStartMaxEnd_unique ranges m m' :
  MinStartMaxEnd ranges m -> MinStartMaxEnd ranges m' -> m = m'.
Proof.
  intros ((rs & Hrs & Hs) & Hmin & (re & Hre & He) & Hmax)
         ((rs' & Hrs' & Hs') & Hmin' & (re' & Hre' & He') & Hmax').
  apply range_eq.
  - apply positionLe_antisym.
    + rewrite Hs'. apply Hmin. exact Hrs'.
    + rewrite Hs. apply Hmin'. exact Hrs.
  - apply positionLe_antisym.
    + rewrite He. apply Hmax'. exact Hre.
    + rewrite He'. apply Hmax. exact Hre'.
Qed.

Lemma mergeRanges_nonempty first rest :
  exists m, mergeRanges (first :: rest) = Some m
            /\ MinStartMaxEnd (first :: rest) m.
Proof.
  unfold mergeRanges. rewrite spread_pluck.
  eexists. split; [reflexivity |].
  apply (MinStartMaxEnd_members ([first] ++ first :: rest)).
  - intros r. simpl. tauto.
  - apply MinStartMaxEnd_fold.
    repeat split; try (exists first; split; [left |]; reflexivity);
      intros r [<- | []]; apply positionLe_refl.
Qed.

(** Merging the merged halves is merging the whole. *)
Lemma MinStartMaxEnd_halves xs ys mx my m :
  MinStartMaxEnd xs mx -> MinStartMaxEnd ys my ->
  MinStartMaxEnd [mx; my] m -> MinStartMaxEnd (xs ++ ys) m.
Proof.
  intros ((rsx & Hrsx & Hsx) & Hminx & (rex & Hrex & Hex) & Hmaxx)
         ((rsy & Hrsy & Hsy) & Hminy & (rey & Hrey & Hey) & Hmaxy)
         ((rs & Hrs & Hs) & Hmin & (re & Hre & He) & Hmax).
  repeat split.
  - destruct Hrs as [<- | [<- | []]].
    + exists rsx. split; [apply in_or_app; left; exact Hrsx | congruence].
    + exists rsy. split; [apply in_or_app; right; exact Hrsy | congruence].
  - intros r Hr. apply in_app_or in Hr. destruct Hr as [Hr | Hr].
    + eapply positionLe_trans; [apply (Hmin mx); left; reflexivity |].
      apply Hminx. exact Hr.
    + eapply positionLe_trans; [apply (Hmin my); right; left; reflexivity |].
      apply Hminy. exact Hr.
  - destruct Hre as [<- | [<- | []]].
    + exists rex. split; [apply in_or_app; left; exact Hrex | congruence].
    + exists rey. split; [apply in_or_app; right; exact Hrey | congruence].
  - intros r Hr. apply in_app_or in Hr. destruct Hr as [Hr | Hr].
    + eapply positionLe_trans; [apply Hmaxx; exact Hr |].
      apply (Hmax mx). left. reflexivity.
    + eapply positionLe_trans; [apply Hmaxy; exact Hr |].
      apply (Hmax my). right. left. reflexivity.
Qed.

(** C8: [mergeRanges] of a one-element list is that range; on every
    non-empty list it returns the range that starts at the minimum (line,
    then column) of all starts and ends at the maximum of all ends; it is
    associative (merging the merges of two parts is merging the whole, and
    in particular the three-range form) and invariant under permutation of
    its input. *)
Theorem mergeRanges_min_max_assoc_perm :
  (forall r, mergeRanges [r] = Some r)
  /\ (forall ranges, ranges <> [] ->
        exists m, mergeRanges ranges = Some m /\ MinStartMaxEnd ranges m)
  /\ (forall xs ys, xs <> [] -> ys <> [] ->
        exists mx my,
          mergeRanges xs = Some mx /\ mergeRanges ys = Some my
          /\ mergeRanges (xs ++ ys) = mergeRanges [mx; my])
  /\ (forall a b c,
        exists ab bc,
          mergeRanges [a; b] = Some ab /\ mergeRanges [b; c] = Some bc
          /\ mergeRanges [ab; c] = mergeRanges [a; bc])
  /\ (forall ranges ranges',
        Permutation ranges ranges' -> mergeRanges ranges = mergeRanges ranges').
Proof.
  assert (Hparts : forall xs ys, xs <> [] -> ys <> [] ->
            exists mx my,
              mergeRanges xs = Some mx /\ mergeRanges ys = Some my
              /\ mergeRanges (xs ++ ys) = mergeRanges [mx; my]).
  { intros [| x xs] [| y ys] Hx Hy; try congruence.
    destruct (mergeRanges_nonempty x xs) as (mx & Ex & Px).
    destruct (mergeRanges_nonempty y ys) as (my & Ey & Py).
    destruct (mergeRanges_nonempty mx [my]) as (m & Em & Pm).
    destruct (mergeRanges_nonempty x (xs ++ y :: ys)) as (m' & Em' & Pm').
    exists mx, my. repeat split; try assumption.
    change ((x :: xs) ++ y :: ys) with (x :: xs ++ y :: ys).
    rewrite Em, Em'. f_equal.
    eapply MinStartMaxEnd_unique; [exact Pm' |].
    apply (MinStartMaxEnd_halves (x :: xs) (y :: ys) mx my m Px Py Pm). }
  split; [| split; [| split; [exact Hparts | split]]].
  - intros r. destruct (mergeRanges_nonempty r []) as (m & Em & Pm).
    rewrite Em. f_equal.
    eapply MinStartMaxEnd_unique; [exact Pm |].
    repeat split; try (exists r; split; [left |]; reflexivity);
      intros r' [<- | []]; apply positionLe_refl.
  - intros [| first rest] Hne; [congruence |]. apply mergeRanges_nonempty.
  - intros a b c.
    destruct (mergeRanges_nonempty a [b]) as (ab & Eab & Pab).
    destruct (mergeRanges_nonempty b [c]) as (bc & Ebc & Pbc).
    destruct (mergeRanges_nonempty ab [c]) as (l & El & Pl).
    destruct (mergeRanges_nonempty a [bc]) as (r & Er & Pr).
    destruct (mergeRanges_nonempty c []) as (mc & Ec & Pc).
    destruct (mergeRanges_nonempty a []) as (ma & Ea & Pa).
    exists ab, bc. repeat split; try assumption.
    rewrite El, Er. f_equal.
    assert (Hc : MinStartMaxEnd [c] c).
    { repeat split; try (exists c; split; [left |]; reflexivity);
        intros r' [<- | []]; apply positionLe_refl. }
    assert (Ha : MinStartMaxEnd [a] a).
    { repeat split; try (exists a; split; [left |]; reflexivity);
        intros r' [<- | []]; apply positionLe_refl. }
    apply (MinStartMaxEnd_unique [a; b; c]).
    + apply (MinStartMaxEnd_halves [a; b] [c] ab c l Pab Hc Pl).
    + apply (MinStartMaxEnd_halves [a] [b; c] a bc r Ha Pbc Pr).
  - intros ranges ranges' Hperm.
    destruct ranges as [| x xs], ranges' as [| y ys].
    + reflexivity.
    + apply Permutation_nil in Hperm. discriminate.
    + apply Permutation_sym, Permutation_nil in Hperm. discriminate.
    + destruct (mergeRanges_nonempty x xs) as (m & Em & Pm).
      destruct (mergeRanges_nonempty y ys) as (m' & Em' & Pm').
      rewrite Em, Em'. f_equal.
      eapply MinStartMaxEnd_unique; [| exact Pm'].
      apply (MinStartMaxEnd_members (x :: xs)); [| exact Pm].
      intros r. split; intros Hr.
      * eapply Permutation_in; [exact Hperm | exact Hr].
      * eapply Permutation_in; [apply Permutation_sym; exact Hperm | exact Hr].
Qed.

Lemma mergeRanges_min_max_assoc_perm_witness :
  let r1 := mkRange 7 1 3 1 in
  let r2 := mkRange 2 2 5 1 in
  let r3 := mkRange 9 2 1 1 in
  [r1; r2; r3] <> []
  /\ (exists m, mergeRanges [r1; r2; r3] = Some m
                /\ MinStartMaxEnd [r1; r2; r3] m)
  /\ (exists mx my,
        mergeRanges [r1] = Some mx /\ mergeRanges [r2; r3] = Some my
        /\ mergeRanges ([r1] ++ [r2; r3]) = mergeRanges [mx; my])
  /\ Permutation [r1; r2; r3] [r3; r1; r2]
  /\ mergeRanges [r1; r2; r3] = mergeRanges [r3; r1; r2].
Proof.
  intros r1 r2 r3.
  destruct mergeRanges_min_max_assoc_perm as (_ & Hmin & Hassoc & _ & Hperm).
  assert (P : Permutation [r1; r2; r3] [r3; r1; r2]).
  { apply Permutation_sym. apply (Permutation_cons_app [r1; r2] [] r3).
    rewrite app_nil_r. apply Permutation_refl. }
  split; [discriminate |].
  split; [apply Hmin; discriminate |].
  split; [apply Hassoc; discriminate |].
  split; [exact P | apply Hperm; exact P].
Defined.

End RangeFacts.

(** ** The BCH orchestrator *)

Section BCHShapes.
Import Instructions BCH Vocabulary.

Context {ExternalState : Type}.

Lemma len_nil_iff {A : Type} (l : list A) : len l = 0 <-> l = [].
Proof.
  unfold len. destruct l; simpl; split; intros E; try reflexivity; try lia.
  discriminate.
Qed.

Lemma index_0 {A : Type} (l : list A) : index l 0 = head l.
Proof. destruct l; reflexivity. Qed.

Lemma isPayToScriptHash_spec instructions :
  isPayToScriptHash instructions = true <-> PayToScriptHashPattern instructions.
Proof.
  unfold isPayToScriptHash, PayToScriptHashPattern, opcodeAt,
    PayToScriptHash.length, PayToScriptHash.lastElement,
    OP_HASH160, OP_PUSHBYTES_20, OP_EQUAL, index, len.
  destruct instructions as [| a [| b [| c [| d rest]]]].
  - simpl. split; intros E; discriminate.
  - simpl. split; intros E; discriminate.
  - simpl. split; intros E; discriminate.
  - simpl. rewrite !andb_true_iff, !Z.eqb_eq. split.
    + intros [[Ea Eb] Ec]. congruence.
    + intros E. injection E as Ea Eb Ec. auto.
  - split; [| intros E; discriminate].
    assert (Hf : (Z.of_nat (length (a :: b :: c :: d :: rest)) =? 3) = false)
      by (apply Z.eqb_neq; simpl length; lia).
    rewrite Hf. intros E. discriminate.
Qed.

Lemma isWitnessProgram_spec script :
  isWitnessProgram script = true <-> SegWitShape script.
Proof.
  unfold isWitnessProgram, SegWitShape, SegWit.minimumLength,
    SegWit.maximumLength, SegWit.OP_0, SegWit.OP_1, SegWit.OP_16,
    SegWit.versionAndLengthBytes.
  destruct script as [| b0 [| b1 rest]].
  - split; [intros E; discriminate
           | intros [Hl _]; unfold len in Hl; simpl in Hl; lia].
  - split; [| intros [Hl _]; unfold len in Hl; simpl in Hl; lia].
    intros E. apply andb_prop in E as [E _]. apply andb_prop in E as [E _].
    apply andb_prop in E as [E _]. discriminate.
  - change (index (b0 :: b1 :: rest) 0) with (Some b0).
    change (index (b0 :: b1 :: rest) 1) with (Some b1).
    set (n := len (b0 :: b1 :: rest)).
    split.
    + intros E. apply andb_prop in E as [E E3]. apply andb_prop in E as [E1 E2].
      apply andb_prop in E1 as [E1a E1b].
      apply Z.geb_le in E1a. apply Z.leb_le in E1b. apply Z.eqb_eq in E3.
      split; [lia |]. exists b0, b1, rest. split; [reflexivity |]. split; [| exact E3].
      apply orb_prop in E2 as [E2 | E2].
      * left. apply Z.eqb_eq in E2. exact E2.
      * right. apply andb_prop in E2 as [E2a E2b].
        apply Z.geb_le in E2a. apply Z.leb_le in E2b. lia.
    + intros [Hl (c0 & c1 & rest' & Eq & Hv & Hb)]. inversion Eq; subst c0 c1 rest'.
      apply andb_true_intro. split; [apply andb_true_intro; split |].
      * apply andb_true_intro. split; [apply Z.geb_le | apply Z.leb_le]; lia.
      * apply orb_true_intro. destruct Hv as [Hv | Hv].
        -- left. apply Z.eqb_eq. exact Hv.
        -- right. apply andb_true_intro.
           split; [apply Z.geb_le | apply Z.leb_le]; lia.
      * apply Z.eqb_eq. exact Hb.
Qed.

Lemma forallb_isPushOperation instructions :
  forallb (fun i => isPushOperation (byteToZ (opcode i))) instructions = true
  <-> Forall (fun i => byteToZ (opcode i) < 96) instructions.
Proof.
  rewrite forallb_forall, List.Forall_forall.
  unfold isPushOperation, OP_16.
  split; intros Hall i Hi; specialize (Hall i Hi).
  - apply Z.ltb_lt. exact Hall.
  - apply Z.ltb_lt. exact Hall.
Qed.

Lemma forallb_isPushOperation_false instructions :
  List.Exists (fun i => ~ byteToZ (opcode i) < 96) instructions ->
  forallb (fun i => isPushOperation (byteToZ (opcode i))) instructions = false.
Proof.
  intros Hex.
  destruct (forallb _ instructions) eqn:E; [| reflexivity].
  apply forallb_isPushOperation in E.
  apply List.Exists_exists in Hex as (i & Hi & Hn).
  rewrite List.Forall_forall in E. elim Hn. apply E. exact Hi.
Qed.

Lemma ZeroOrNegativeZero_single b :
  ZeroOrNegativeZero [b] <-> byteToZ b = 0 \/ byteToZ b = 128.
Proof.
  split.
  - intros (zeros & lastByte & E & _ & Hlast).
    destruct zeros as [| z [| z' zeros]]; try discriminate.
    injection E as ->. exact Hlast.
  - intros Hb. exists [], b. repeat split; [constructor | exact Hb].
Qed.

Lemma ZeroOrNegativeZero_cons b item :
  item <> [] ->
  ZeroOrNegativeZero (b :: item) <-> byteToZ b = 0 /\ ZeroOrNegativeZero item.
Proof.
  intros Hne. split.
  - intros (zeros & lastByte & E & Hzeros & Hlast).
    destruct zeros as [| z zeros].
    + injection E as _ E. congruence.
    + injection E as -> ->. inversion Hzeros as [| ? ? Hz Hzs]; subst.
      split; [exact Hz |]. exists zeros, lastByte. auto.
  - intros [Hb (zeros & lastByte & -> & Hzeros & Hlast)].
    exists (b :: zeros), lastByte. repeat split; [constructor; assumption | exact Hlast].
Qed.

(** The modelled [stackItemIsTruthy] decides [Truthy]. *)
Lemma stackItemIsTruthy_spec item :
  stackItemIsTruthy item = true <-> Truthy item.
Proof.
  unfold Truthy.
  induction item as [| b item IH].
  - simpl. split; [discriminate | intros [Hne _]; congruence].
  - destruct item as [| c rest].
    + simpl. rewrite ZeroOrNegativeZero_single.
      rewrite negb_true_iff, orb_false_iff, !Z.eqb_neq.
      split; [intros [H0 H128]; split; [discriminate | tauto]
             | intros [_ Hn]; tauto].
    + change (stackItemIsTruthy (b :: c :: rest))
        with (negb (byteToZ b =? 0) || stackItemIsTruthy (c :: rest)).
      rewrite orb_true_iff, IH, negb_true_iff, Z.eqb_neq.
      rewrite (ZeroOrNegativeZero_cons b (c :: rest)) by discriminate.
      split.
      * intros [Hb | [_ Hn]]; (split; [discriminate | tauto]).
      * intros [_ Hn].
        destruct (Z.eq_dec (byteToZ b) 0) as [E | NE]; [right | left; exact NE].
        split; [discriminate | tauto].
Qed.

(** C3: [verify] accepts a final state exactly when its error is
    undefined, its execution stack is empty, its stack holds exactly one
    item, and that item is truthy: non-empty and not all-zero with an
    optional sign bit in the last byte. *)
Theorem verify_iff (state : AuthenticationProgramStateBCH ExternalState) :
  verify state = true
  <-> error state = None
      /\ executionStack state = []
      /\ exists item, stack state = [item] /\ Truthy item.
Proof.
  unfold verify. rewrite !andb_true_iff, !Z.eqb_eq, len_nil_iff.
  split.
  - intros [[[He Hx] Hs] Ht].
    split; [destruct (error state); [discriminate | reflexivity] |].
    split; [exact Hx |].
    destruct (stack state) as [| item [| item' rest]];
      try (unfold len in Hs; simpl in Hs; lia).
    exists item. split; [reflexivity |].
    apply stackItemIsTruthy_spec. exact Ht.
  - intros (He & Hx & item & Hs & Ht).
    rewrite He, Hx, Hs. repeat split.
    apply stackItemIsTruthy_spec. exact Ht.
Qed.

End BCHShapes.

Section BCHFacts.
Import Instructions BCH Vocabulary.

Context {ExternalState : Type}.
Variable parseBytecode : bytes -> list AuthenticationInstruction.
Variable authenticationInstructionsAreMalformed :
  list AuthenticationInstruction -> bool.
Variable createAuthenticationProgramExternalStateCommon :
  AuthenticationProgramBCH -> ExternalState.

Abbreviation evaluateHere :=
  (evaluate parseBytecode authenticationInstructionsAreMalformed
     createAuthenticationProgramExternalStateCommon).
Abbreviation unlockingResultHere :=
  (unlockingResult authenticationInstructionsAreMalformed).


Lemma evaluate_unfold program input stateEvaluate :
  index (inputs (spendingTransaction program)) (inputIndex program) = Some input ->
  evaluateHere program stateEvaluate =
  let unlockingInstructions := parseBytecode (unlockingBytecode input) in
  let lockingInstructions :=
    parseBytecode (lockingBytecode (sourceOutput program)) in
  let externalState := createAuthenticationProgramExternalStateCommon program in
  let result :=
    unlockingResultHere stateEvaluate (unlockingBytecode input)
      (lockingBytecode (sourceOutput program))
      unlockingInstructions lockingInstructions
      (createAuthenticationProgramStateCommon unlockingInstructions []
         externalState) in
  match error result with
  | Some _ => Some result
  | None =>
      let lockingResult :=
        stateEvaluate
          (createAuthenticationProgramStateCommon lockingInstructions
             (stack result) externalState) in
      if negb (isPayToScriptHash lockingInstructions) then Some lockingResult
      else
        let p2shStack := removelast (cloneStack (stack result)) in
        let p2shScript := default [] (last (cloneStack (stack result))) in
        if (len p2shStack =? 0) && isWitnessProgram p2shScript then
          Some lockingResult
        else if authenticationInstructionsAreMalformed (parseBytecode p2shScript)
        then Some (applyError malformedP2shBytecode lockingResult)
        else
          Some (stateEvaluate
                  (createAuthenticationProgramStateCommon
                     (parseBytecode p2shScript) p2shStack externalState))
  end.
Proof.
  intros Hinput. unfold evaluate. rewrite Hinput. reflexivity.
Qed.

(** C2: the pre-checks of [evaluate] are applied in this order, the first
    failure winning: unlocking bytecode longer than 10,000 bytes, malformed
    unlocking instructions, locking bytecode longer than 10,000 bytes,
    malformed locking instructions, an unlocking instruction whose opcode
    is not strictly below [OP_16] (0x60); each failure returns the initial
    state with the matching error, whatever [stateEvaluate] is; only when
    all five pass is the unlocking script evaluated. *)
Theorem evaluate_prechecks_in_order program input stateEvaluate :
  index (inputs (spendingTransaction program)) (inputIndex program) = Some input ->
  let unlocking := unlockingBytecode input in
  let locking := lockingBytecode (sourceOutput program) in
  let initialState :=
    createAuthenticationProgramStateCommon (parseBytecode unlocking) []
      (createAuthenticationProgramExternalStateCommon program) in
  let result :=
    unlockingResultHere stateEvaluate unlocking locking
      (parseBytecode unlocking) (parseBytecode locking) initialState in
  let rejected e :=
    result = applyError e initialState
    /\ evaluateHere program stateEvaluate = Some (applyError e initialState) in
  (len unlocking > 10000 -> rejected exceededMaximumBytecodeLengthUnlocking)
  /\ (len unlocking <= 10000 ->
      authenticationInstructionsAreMalformed (parseBytecode unlocking) = true ->
      rejected malformedUnlockingBytecode)
  /\ (len unlocking <= 10000 ->
      authenticationInstructionsAreMalformed (parseBytecode unlocking) = false ->
      len locking > 10000 ->
      rejected exceededMaximumBytecodeLengthLocking)
  /\ (len unlocking <= 10000 ->
      authenticationInstructionsAreMalformed (parseBytecode unlocking) = false ->
      len locking <= 10000 ->
      authenticationInstructionsAreMalformed (parseBytecode locking) = true ->
      rejected malformedLockingBytecode)
  /\ (len unlocking <= 10000 ->
      authenticationInstructionsAreMalformed (parseBytecode unlocking) = false ->
      len locking <= 10000 ->
      authenticationInstructionsAreMalformed (parseBytecode locking) = false ->
      List.Exists (fun i => ~ byteToZ (opcode i) < 96) (parseBytecode unlocking) ->
      rejected requiresPushOnly)
  /\ (len unlocking <= 10000 ->
      authenticationInstructionsAreMalformed (parseBytecode unlocking) = false ->
      len locking <= 10000 ->
      authenticationInstructionsAreMalformed (parseBytecode locking) = false ->
      Forall (fun i => byteToZ (opcode i) < 96) (parseBytecode unlocking) ->
      result = stateEvaluate initialState).
Proof.
  intros Hinput unlocking locking initialState result rejected.
  assert (Hrej : forall e, result = applyError e initialState -> rejected e).
  { intros e E. split; [exact E |].
    rewrite (evaluate_unfold _ _ _ Hinput). cbv zeta.
    fold unlocking locking initialState result. rewrite E. reflexivity. }
  assert (Hgt : forall n, n > 10000 -> (n >? maximumBytecodeLength) = true).
  { intros n Hn. unfold maximumBytecodeLength. apply Z.gtb_lt. lia. }
  assert (Hle : forall n, n <= 10000 -> (n >? maximumBytecodeLength) = false).
  { intros n Hn. unfold maximumBytecodeLength.
    destruct (Z.gtb_spec n 10000); [lia | reflexivity]. }
  split; [| split; [| split; [| split; [| split]]]];
    [intros H1 | intros H1 H2 | intros H1 H2 H3
    | intros H1 H2 H3 H4 | intros H1 H2 H3 H4 H5
    | intros H1 H2 H3 H4 H5];
    try apply Hrej; subst result; unfold unlockingResult.
  - rewrite (Hgt _ H1). reflexivity.
  - rewrite (Hle _ H1), H2. reflexivity.
  - rewrite (Hle _ H1), H2, (Hgt _ H3). reflexivity.
  - rewrite (Hle _ H1), H2, (Hle _ H3), H4. reflexivity.
  - rewrite (Hle _ H1), H2, (Hle _ H3), H4.
    simpl instructions. rewrite (forallb_isPushOperation_false _ H5). reflexivity.
  - rewrite (Hle _ H1), H2, (Hle _ H3), H4.
    simpl instructions. rewrite (proj2 (forallb_isPushOperation _) H5). reflexivity.
Qed.

(** Popping the top of a non-empty stack: the top is the last element. *)
Lemma pop_snoc (rest : list bytes) (top : bytes) :
  removelast (cloneStack (rest ++ [top])) = rest
  /\ default [] (last (cloneStack (rest ++ [top]))) = top.
Proof.
  unfold cloneStack. split.
  - apply removelast_last.
  - rewrite last_snoc. reflexivity.
Qed.

(** C1: once the pre-checks have passed and the unlocking script has run
    without error, if the locking instructions are exactly
    [OP_HASH160, OP_PUSHBYTES_20, OP_EQUAL], the top of the unlocking stack
    (the last element; the empty byte array when there is none) is popped
    from a clone as [p2shScript]; if the rest of the clone is empty and
    [p2shScript] has the SegWit shape, the locking result is returned
    unchanged; otherwise, if [p2shScript] parses to malformed instructions,
    the locking result is returned with error [malformedP2shBytecode];
    else [p2shScript] is evaluated with the rest of the clone as its
    stack. *)
Theorem evaluate_p2sh_path program input stateEvaluate :
  index (inputs (spendingTransaction program)) (inputIndex program) = Some input ->
  let unlocking := unlockingBytecode input in
  let locking := lockingBytecode (sourceOutput program) in
  let externalState := createAuthenticationProgramExternalStateCommon program in
  let result :=
    unlockingResultHere stateEvaluate unlocking locking
      (parseBytecode unlocking) (parseBytecode locking)
      (createAuthenticationProgramStateCommon (parseBytecode unlocking) []
         externalState) in
  let lockingResult :=
    stateEvaluate
      (createAuthenticationProgramStateCommon (parseBytecode locking)
         (stack result) externalState) in
  let p2shStack := removelast (stack result) in
  let p2shScript := default [] (last (stack result)) in
  let returned := evaluateHere program stateEvaluate in
  error result = None ->
  PayToScriptHashPattern (parseBytecode locking) ->
  (p2shStack = [] /\ SegWitShape p2shScript -> returned = Some lockingResult)
  /\ (~ (p2shStack = [] /\ SegWitShape p2shScript) ->
      authenticationInstructionsAreMalformed (parseBytecode p2shScript) = true ->
      returned = Some (applyError malformedP2shBytecode lockingResult))
  /\ (~ (p2shStack = [] /\ SegWitShape p2shScript) ->
      authenticationInstructionsAreMalformed (parseBytecode p2shScript) = false ->
      returned =
        Some (stateEvaluate
                (createAuthenticationProgramStateCommon
                   (parseBytecode p2shScript) p2shStack externalState))).
Proof.
  intros Hinput unlocking locking externalState result lockingResult
    p2shStack p2shScript returned Herr Hp2sh.
  assert (Hret : returned =
    if (len p2shStack =? 0) && isWitnessProgram p2shScript then Some lockingResult
    else if authenticationInstructionsAreMalformed (parseBytecode p2shScript)
    then Some (applyError malformedP2shBytecode lockingResult)
    else Some (stateEvaluate
                 (createAuthenticationProgramStateCommon
                    (parseBytecode p2shScript) p2shStack externalState))).
  { unfold returned. rewrite (evaluate_unfold _ _ _ Hinput). cbv zeta.
    fold unlocking locking externalState result. rewrite Herr.
    fold lockingResult.
    rewrite (proj2 (isPayToScriptHash_spec _) Hp2sh). cbn [negb].
    reflexivity. }
  assert (Hcond : (len p2shStack =? 0) && isWitnessProgram p2shScript = true
                  <-> p2shStack = [] /\ SegWitShape p2shScript).
  { rewrite andb_true_iff, Z.eqb_eq, len_nil_iff, isWitnessProgram_spec.
    reflexivity. }
  rewrite Hret. repeat split.
  - intros Hc. rewrite (proj2 Hcond Hc). reflexivity.
  - intros Hc Hm.
    destruct ((len p2shStack =? 0) && isWitnessProgram p2shScript) eqn:E;
      [elim Hc; apply Hcond; reflexivity |].
    rewrite Hm. reflexivity.
  - intros Hc Hm.
    destruct ((len p2shStack =? 0) && isWitnessProgram p2shScript) eqn:E;
      [elim Hc; apply Hcond; reflexivity |].
    rewrite Hm. reflexivity.
Qed.


(** X11: [evaluate] throws exactly when the input index names no input of the
    spending transaction. *)
Theorem evaluate_throws_iff_no_input program stateEvaluate :
  evaluateHere program stateEvaluate = None
  <-> (inputIndex program < 0
       \/ len (inputs (spendingTransaction program)) <= inputIndex program).
Proof.
  unfold evaluate.
  assert (Hindex : index (inputs (spendingTransaction program)) (inputIndex program)
                   = None
                   <-> (inputIndex program < 0
                        \/ len (inputs (spendingTransaction program))
                           <= inputIndex program)).
  { unfold index, len.
    destruct (Z.ltb_spec (inputIndex program) 0) as [Hneg | Hpos].
    - split; [intros _; left; exact Hneg | reflexivity].
    - rewrite lookup_ge_None. split; [intros Hge; right; lia | intros [? | ?]; lia]. }
  rewrite <- Hindex.
  destruct (index (inputs (spendingTransaction program)) (inputIndex program))
    as [input |]; [| split; reflexivity].
  cbn [mbind option_bind].
  split; [| discriminate].
  destruct (error _); [discriminate |].
  destruct (negb _); [discriminate |].
  destruct (_ && _); [discriminate |].
  destruct (authenticationInstructionsAreMalformed _); discriminate.
Qed.

(** X12: When the unlocking phase ends with an error (a failed pre-check or an
    error raised while running the unlocking script) [evaluate] returns
    that state as it is, the locking script is not consulted, and the
    state is neither verified nor continued. *)
Theorem evaluate_failed_unlocking program input stateEvaluate :
  index (inputs (spendingTransaction program)) (inputIndex program) = Some input ->
  let unlocking := unlockingBytecode input in
  let locking := lockingBytecode (sourceOutput program) in
  let result :=
    unlockingResultHere stateEvaluate unlocking locking
      (parseBytecode unlocking) (parseBytecode locking)
      (createAuthenticationProgramStateCommon (parseBytecode unlocking) []
         (createAuthenticationProgramExternalStateCommon program)) in
  error result <> None ->
  evaluateHere program stateEvaluate = Some result
  /\ verify result = false
  /\ continue result = false.
Proof.
  intros Hinput unlocking locking result Herr.
  rewrite (evaluate_unfold _ _ _ Hinput). cbv zeta.
  fold unlocking locking result.
  unfold verify, continue.
  destruct (error result); [repeat split | congruence].
Qed.

(** X13: Outside pay-to-script-hash, once the unlocking phase has ended without
    error, the result is the evaluation of the locking instructions over
    the stack that the unlocking script left. *)
Theorem evaluate_regular_path program input stateEvaluate :
  index (inputs (spendingTransaction program)) (inputIndex program) = Some input ->
  let unlocking := unlockingBytecode input in
  let locking := lockingBytecode (sourceOutput program) in
  let externalState := createAuthenticationProgramExternalStateCommon program in
  let result :=
    unlockingResultHere stateEvaluate unlocking locking
      (parseBytecode unlocking) (parseBytecode locking)
      (createAuthenticationProgramStateCommon (parseBytecode unlocking) []
         externalState) in
  error result = None ->
  ~ PayToScriptHashPattern (parseBytecode locking) ->
  evaluateHere program stateEvaluate =
  Some (stateEvaluate
          (createAuthenticationProgramStateCommon (parseBytecode locking)
             (stack result) externalState)).
Proof.
  intros Hinput unlocking locking externalState result Herr Hno.
  rewrite (evaluate_unfold _ _ _ Hinput). cbv zeta.
  fold unlocking locking externalState result.
  rewrite Herr.
  destruct (isPayToScriptHash (parseBytecode locking)) eqn:Ep; [| reflexivity].
  elim Hno. apply isPayToScriptHash_spec. exact Ep.
Qed.

Lemma unlockingResult_locking_irrelevant stateEvaluate unlocking locking1 locking2
    (initialState : AuthenticationProgramStateBCH ExternalState) :
  len locking1 <= 10000 -> len locking2 <= 10000 ->
  authenticationInstructionsAreMalformed (parseBytecode locking1) = false ->
  authenticationInstructionsAreMalformed (parseBytecode locking2) = false ->
  unlockingResultHere stateEvaluate unlocking locking1
    (parseBytecode unlocking) (parseBytecode locking1) initialState
  = unlockingResultHere stateEvaluate unlocking locking2
      (parseBytecode unlocking) (parseBytecode locking2) initialState.
Proof.
  intros H1 H2 M1 M2. unfold unlockingResult. rewrite M1, M2.
  unfold maximumBytecodeLength.
  destruct (Z.gtb_spec (len locking1) 10000); [lia |].
  destruct (Z.gtb_spec (len locking2) 10000); [lia |].
  reflexivity.
Qed.

(** X14: On the pay-to-script-hash path the result of the locking script is
    not consulted: two programs that differ only in the 20 bytes pushed by
    a pay-to-script-hash locking script, and whose redeem script is well
    formed and is not taken for a witness program, evaluate to the same
    state. *)
Theorem evaluate_p2sh_ignores_locking_result program1 program2 input stateEvaluate :
  spendingTransaction program1 = spendingTransaction program2 ->
  inputIndex program1 = inputIndex program2 ->
  createAuthenticationProgramExternalStateCommon program1
  = createAuthenticationProgramExternalStateCommon program2 ->
  index (inputs (spendingTransaction program1)) (inputIndex program1) = Some input ->
  let unlocking := unlockingBytecode input in
  let locking1 := lockingBytecode (sourceOutput program1) in
  let locking2 := lockingBytecode (sourceOutput program2) in
  let result :=
    unlockingResultHere stateEvaluate unlocking locking1
      (parseBytecode unlocking) (parseBytecode locking1)
      (createAuthenticationProgramStateCommon (parseBytecode unlocking) []
         (createAuthenticationProgramExternalStateCommon program1)) in
  let p2shStack := removelast (stack result) in
  let p2shScript := default [] (last (stack result)) in
  len locking1 <= 10000 -> len locking2 <= 10000 ->
  authenticationInstructionsAreMalformed (parseBytecode locking1) = false ->
  authenticationInstructionsAreMalformed (parseBytecode locking2) = false ->
  PayToScriptHashPattern (parseBytecode locking1) ->
  PayToScriptHashPattern (parseBytecode locking2) ->
  error result = None ->
  ~ (p2shStack = [] /\ SegWitShape p2shScript) ->
  authenticationInstructionsAreMalformed (parseBytecode p2shScript) = false ->
  evaluateHere program1 stateEvaluate = evaluateHere program2 stateEvaluate.
Proof.
  intros Htx Hix Hext Hinput unlocking locking1 locking2 result p2shStack p2shScript
    Hl1 Hl2 Hm1 Hm2 Hp1 Hp2 Herr Hnw Hredeem.
  assert (Hinput2 : index (inputs (spendingTransaction program2)) (inputIndex program2)
                    = Some input) by (rewrite <- Htx, <- Hix; exact Hinput).
  rewrite (evaluate_unfold _ _ _ Hinput).
  rewrite (evaluate_unfold _ _ _ Hinput2).
  cbv zeta. rewrite <- Hext.
  fold unlocking locking1 locking2.
  rewrite <- (unlockingResult_locking_irrelevant stateEvaluate unlocking
                locking1 locking2 _ Hl1 Hl2 Hm1 Hm2).
  fold result. rewrite Herr.
  rewrite (proj2 (isPayToScriptHash_spec _) Hp1).
  rewrite (proj2 (isPayToScriptHash_spec _) Hp2).
  cbn [negb]. unfold cloneStack. fold p2shStack p2shScript.
  assert (Hcond : (len p2shStack =? 0) && isWitnessProgram p2shScript = false).
  { destruct ((len p2shStack =? 0) && isWitnessProgram p2shScript) eqn:E;
      [| reflexivity].
    elim Hnw. apply andb_prop in E as [E1 E2].
    split; [apply len_nil_iff, Z.eqb_eq, E1 | apply isWitnessProgram_spec, E2]. }
  rewrite Hcond, Hredeem. reflexivity.
Qed.

End BCHFacts.
Section InstructionSets.
Import BCH Vocabulary.

(** X15: Every instruction set requires null signature failures; each strict
    set enables every flag of its base set and disallows upgradable NOPs;
    the 2019-11 sets enable every flag of the 2019-05 sets. *)
Theorem getFlagsForInstructionSetBCH_monotone :
  (forall instructionSet,
     requireNullSignatureFailures (getFlagsForInstructionSetBCH instructionSet) = true)
  /\ flagsIncluded (getFlagsForInstructionSetBCH BCH_2019_05)
       (getFlagsForInstructionSetBCH BCH_2019_05_STRICT)
  /\ flagsIncluded (getFlagsForInstructionSetBCH BCH_2019_11_SPEC)
       (getFlagsForInstructionSetBCH BCH_2019_11_STRICT_SPEC)
  /\ flagsIncluded (getFlagsForInstructionSetBCH BCH_2019_05)
       (getFlagsForInstructionSetBCH BCH_2019_11_SPEC)
  /\ flagsIncluded (getFlagsForInstructionSetBCH BCH_2019_05_STRICT)
       (getFlagsForInstructionSetBCH BCH_2019_11_STRICT_SPEC)
  /\ (forall instructionSet,
        disallowUpgradableNops (getFlagsForInstructionSetBCH instructionSet) = true
        <-> (instructionSet = BCH_2019_05_STRICT
             \/ instructionSet = BCH_2019_11_STRICT_SPEC)).
Proof.
  split; [intros []; reflexivity |].
  unfold flagsIncluded. cbn.
  repeat split; try (intros; assumption || reflexivity || discriminate).
  - destruct instructionSet; cbn; intros; auto; discriminate.
  - intros [-> | ->]; reflexivity.
Qed.
End InstructionSets.

(** ** Concrete runs of the orchestrator *)

Section BCHRuns.
Import Instructions BCH Vocabulary Collaborators Scenarios.

Lemma evaluate_prechecks_in_order_witness :
  evaluate parseBytecode authenticationInstructionsAreMalformed noExternalState
    (programOf unlockingWithAdd lockingThreeEqual) pushEvaluate
  = Some (applyError requiresPushOnly
            (createAuthenticationProgramStateCommon
               (parseBytecode unlockingWithAdd) [] tt)).
Proof.
  pose proof (evaluate_prechecks_in_order parseBytecode
                authenticationInstructionsAreMalformed noExternalState
                (programOf unlockingWithAdd lockingThreeEqual)
                (mkInput unlockingWithAdd) pushEvaluate eq_refl)
    as (_ & _ & _ & _ & H5 & _).
  apply H5.
  - vm_compute. discriminate.
  - reflexivity.
  - vm_compute. discriminate.
  - reflexivity.
  - apply List.Exists_cons_tl, List.Exists_cons_tl, List.Exists_cons_hd.
    vm_compute. discriminate.
Defined.

Lemma evaluate_p2sh_path_witness :
  evaluate parseBytecode authenticationInstructionsAreMalformed noExternalState
    (programOf unlockingRedeemOne lockingP2SH) pushEvaluate
  = Some (pushEvaluate
            (createAuthenticationProgramStateCommon (parseBytecode redeemOne) [] tt))
  /\ evaluate parseBytecode authenticationInstructionsAreMalformed noExternalState
       (programOf unlockingWitness lockingP2SH) pushEvaluate
     = Some (pushEvaluate
               (createAuthenticationProgramStateCommon (parseBytecode lockingP2SH)
                  [witnessProgram] tt)).
Proof.
  split.
  - pose proof (evaluate_p2sh_path parseBytecode
                  authenticationInstructionsAreMalformed noExternalState
                  (programOf unlockingRedeemOne lockingP2SH)
                  (mkInput unlockingRedeemOne) pushEvaluate
                  eq_refl eq_refl eq_refl) as (_ & _ & H3).
    apply H3; [| reflexivity].
    intros [_ [Hlen _]]. vm_compute in Hlen. destruct Hlen as [Hlen _].
    apply Hlen. reflexivity.
  - pose proof (evaluate_p2sh_path parseBytecode
                  authenticationInstructionsAreMalformed noExternalState
                  (programOf unlockingWitness lockingP2SH)
                  (mkInput unlockingWitness) pushEvaluate
                  eq_refl eq_refl eq_refl) as (H1 & _ & _).
    apply H1. split; [reflexivity |]. split; [vm_compute; split; discriminate |].
    exists Byte.x00, Byte.x14, (repeat Byte.x00 20).
    split; [reflexivity |]. split; [left; reflexivity | reflexivity].
Defined.

(** Scenario 6 of the specification ends in an accepted state. *)
Example scenario_6_verifies :
  verify <$> evaluate parseBytecode authenticationInstructionsAreMalformed noExternalState
               (programOf unlockingRedeemOne lockingP2SH) pushEvaluate
  = Some true.
Proof. vm_compute. reflexivity. Qed.

Lemma verify_iff_witness :
  let state := pushEvaluate (createAuthenticationProgramStateCommon
                               (parseBytecode redeemOne) [] tt) in
  verify state = true
  /\ error state = None /\ executionStack state = []
  /\ exists item, stack state = [item] /\ Truthy item.
Proof.
  intros state.
  assert (Hv : verify state = true) by reflexivity.
  split; [exact Hv |].
  apply (proj1 (verify_iff state)). exact Hv.
Defined.

(** The stand-in parser: a push of two bytes, [OP_1], and a truncated
    [OP_PUSHDATA1]. *)
Example parseBytecode_sample :
  parseBytecode [Byte.x02; Byte.x01; Byte.x02; Byte.x51; Byte.x4c; Byte.x01]
  = [mkInstruction Byte.x02 (Some [Byte.x01; Byte.x02]) false;
     mkInstruction Byte.x51 None false;
     mkInstruction Byte.x4c (Some []) true].
Proof. reflexivity. Qed.

(** An unlocking script that is not push-only is rejected before anything
    runs, whatever the locking script. *)
Example scenario_5_requires_push_only :
  error <$> evaluate parseBytecode authenticationInstructionsAreMalformed
              noExternalState (programOf unlockingWithAdd lockingP2SH)
              pushEvaluate
  = Some (Some requiresPushOnly).
Proof. vm_compute. reflexivity. Qed.

(** An input index without an input throws. *)
Example evaluate_without_input :
  evaluate parseBytecode authenticationInstructionsAreMalformed noExternalState
    (mkProgram 1 (mkOutput lockingP2SH) (mkTransaction [mkInput redeemOne]))
    pushEvaluate
  = None.
Proof. reflexivity. Qed.


Lemma evaluate_failed_unlocking_witness :
  let rejected :=
    applyError requiresPushOnly
      (createAuthenticationProgramStateCommon (parseBytecode unlockingWithAdd) [] tt) in
  evaluate parseBytecode authenticationInstructionsAreMalformed noExternalState
    (programOf unlockingWithAdd lockingThreeEqual) pushEvaluate
  = Some rejected
  /\ verify rejected = false
  /\ continue rejected = false.
Proof.
  apply (evaluate_failed_unlocking parseBytecode
           authenticationInstructionsAreMalformed noExternalState
           (programOf unlockingWithAdd lockingThreeEqual)
           (mkInput unlockingWithAdd) pushEvaluate eq_refl).
  vm_compute. discriminate.
Defined.

(** Unlocking [OP_1] against the locking script [OP_3 OP_EQUAL]: the
    locking instructions start from the stack [[0x01]]. *)
Lemma evaluate_regular_path_witness :
  evaluate parseBytecode authenticationInstructionsAreMalformed noExternalState
    (programOf redeemOne lockingThreeEqual) pushEvaluate
  = Some (pushEvaluate
            (createAuthenticationProgramStateCommon
               (parseBytecode lockingThreeEqual) [[Byte.x01]] tt)).
Proof.
  apply (evaluate_regular_path parseBytecode
           authenticationInstructionsAreMalformed noExternalState
           (programOf redeemOne lockingThreeEqual)
           (mkInput redeemOne) pushEvaluate eq_refl).
  - reflexivity.
  - unfold PayToScriptHashPattern. vm_compute. discriminate.
Defined.

Lemma evaluate_p2sh_ignores_locking_result_witness :
  evaluate parseBytecode authenticationInstructionsAreMalformed noExternalState
    (programOf unlockingRedeemOne lockingP2SH) pushEvaluate
  = evaluate parseBytecode authenticationInstructionsAreMalformed noExternalState
      (programOf unlockingRedeemOne lockingP2SHOther) pushEvaluate.
Proof.
  apply (evaluate_p2sh_ignores_locking_result parseBytecode
           authenticationInstructionsAreMalformed noExternalState
           (programOf unlockingRedeemOne lockingP2SH)
           (programOf unlockingRedeemOne lockingP2SHOther)
           (mkInput unlockingRedeemOne) pushEvaluate
           eq_refl eq_refl eq_refl eq_refl);
    try reflexivity; try (vm_compute; discriminate).
  intros [_ [Hlen _]]. vm_compute in Hlen. destruct Hlen as [Hlen _].
  apply Hlen. reflexivity.
Defined.
End BCHRuns.

(** ** Identifier resolution *)

Section ResolveFacts.
Import Ranges Instructions Reduce Resolve.

Context {Operation CompilationData : Type}.
Variable applyOperation :
  Operation -> string -> CompilationData -> CompilationEnvironment Operation ->
  bytes + string.
Variable compileScript :
  string -> CompilationData -> CompilationEnvironment Operation -> CompilationResult.

(** Indexing a plain object finds nothing exactly when the object has no
    such property of its own and the key names no member of
    [Object.prototype]. *)
Lemma getProperty_None {T : Type} (object : gmap string T) key :
  getProperty object key = None
  <-> object !! key = None /\ isObjectPrototypeMember key = false.
Proof.
  unfold getProperty. destruct (object !! key) as [value |].
  - split; [discriminate | intros [E _]; discriminate].
  - destruct (isObjectPrototypeMember key).
    + split; [discriminate | intros [_ E]; discriminate].
    + split; auto.
Qed.








End ResolveFacts.

(** ** Script reduction *)

Section ReduceFacts.
Import Ranges Instructions Reduce Vocabulary.

Context {ProgramState : Type} `{StackState ProgramState}.
Variable parseBytecode : bytes -> list AuthenticationInstruction.
Variable authenticationInstructionsAreNotMalformed :
  list AuthenticationInstruction -> bool.
Variable disassembleBytecode : bytes -> string.
Variable encodeDataPush : bytes -> bytes.

Abbreviation Node := (@ScriptReductionTraceNode ProgramState).
Abbreviation reduceSegment' :=
  (reduceSegment parseBytecode authenticationInstructionsAreNotMalformed
     disassembleBytecode encodeDataPush).
Abbreviation reduceSegments' :=
  (reduceSegments parseBytecode authenticationInstructionsAreNotMalformed
     disassembleBytecode encodeDataPush).
Abbreviation reduceScript' :=
  (reduceScript parseBytecode authenticationInstructionsAreNotMalformed
     disassembleBytecode encodeDataPush).
Abbreviation sampledEvaluate' :=
  (sampledEvaluateReductionTraceNodes parseBytecode
     authenticationInstructionsAreNotMalformed disassembleBytecode).

(** Induction on resolved segments that reaches into the children of
    pushes and evaluations. *)
Lemma ResolvedSegment_nested_ind (P : ResolvedSegment -> Prop) :
  (forall range value, Forall P value -> P (SegmentPush range value)) ->
  (forall range value, Forall P value -> P (SegmentEvaluation range value)) ->
  (forall range literalType value, P (SegmentLiteralBytecode range literalType value)) ->
  (forall range opcode value, P (SegmentOpcodeBytecode range opcode value)) ->
  (forall range variable value, P (SegmentVariableBytecode range variable value)) ->
  (forall range script source value,
     P (SegmentScriptBytecode range script source value)) ->
  (forall range value, P (SegmentComment range value)) ->
  (forall range value, P (SegmentError range value)) ->
  forall segment, P segment.
Proof.
  intros Hpush Heval Hlit Hop Hvar Hscr Hcom Herr.
  fix self 1. intros [range value | range value | | | | | |].
  - apply Hpush. induction value as [| s rest IH]; constructor; [apply self | exact IH].
  - apply Heval. induction value as [| s rest IH]; constructor; [apply self | exact IH].
  - apply Hlit.
  - apply Hop.
  - apply Hvar.
  - apply Hscr.
  - apply Hcom.
  - apply Herr.
Qed.

(** The list recursion nested in the callback is [compiledScript.map]. *)
Lemma reduceAll_eq vm createState l :
  (fix reduceAll (script : list ResolvedSegment) {struct script}
     : option (list Node) :=
     match script with
     | [] => Some []
     | s :: rest =>
         match reduceSegment' vm createState s with
         | None => None
         | Some n =>
             match reduceAll rest with
             | None => None
             | Some ns => Some (n :: ns)
             end
         end
     end) l
  = reduceSegments' vm createState l.
Proof.
  induction l as [| s rest IH]; [reflexivity |].
  cbn [reduceSegments]. rewrite <- IH. reflexivity.
Qed.

(** The recursive call inside the callback is [reduceScript]. *)
Lemma reduceSegment_push vm createState range value :
  reduceSegment' vm createState (SegmentPush range value) =
  if len value =? 0 then Some (emptyReductionTraceNode range)
  else
    push ← reduceScript' value vm createState;
    Some (mkNode (encodeDataPush (bytecode push)) (errors push) range
            (Some [push]) None).
Proof.
  unfold reduceScript. cbn [reduceSegment].
  destruct (len value =? 0); [reflexivity |].
  rewrite reduceAll_eq. reflexivity.
Qed.

Lemma reduceSegment_evaluation vm createState range value :
  reduceSegment' vm createState (SegmentEvaluation range value) =
  if len value =? 0 then Some (emptyReductionTraceNode range)
  else
    match vm, createState with
    | Some vm', Some createState' =>
        reductionTrace ← reduceScript' value vm createState;
        nodes ← source reductionTrace;
        evaluated ← sampledEvaluate' nodes vm' createState';
        let errors' :=
          match errors reductionTrace with None => [] | Some e => e end ++
          match se_errors evaluated with None => [] | Some e => e end in
        Some (if len errors' >? 0 then
                mkNode [] (Some errors') range (Some [reductionTrace])
                  (Some (se_samples evaluated))
              else
                mkNode (se_bytecode evaluated) None range
                  (Some [reductionTrace]) (Some (se_samples evaluated)))
    | _, _ =>
        Some (mkNode []
                (Some [mkErrorInformation
                   "Both a VM and a createState method are required to reduce evaluations."
                   range])
                range None None)
    end.
Proof.
  unfold reduceScript. cbn [reduceSegment].
  destruct (len value =? 0); [reflexivity |].
  destruct vm as [vm' |], createState as [createState' |]; try reflexivity.
  rewrite reduceAll_eq. reflexivity.
Qed.

Lemma index_last {A : Type} (l : list A) : index l (len l - 1) = last l.
Proof.
  unfold index, len. destruct l as [| x l]; [reflexivity |].
  destruct (Z.ltb_spec (Z.of_nat (length (x :: l)) - 1) 0) as [Hlt | _];
    [simpl length in Hlt; lia |].
  replace (Z.to_nat (Z.of_nat (length (x :: l)) - 1)) with (length l)
    by (simpl length; lia).
  rewrite last_lookup. reflexivity.
Qed.

Lemma index_nat {A : Type} (l : list A) (j : nat) : index l (Z.of_nat j) = l !! j.
Proof.
  unfold index. destruct (Z.ltb_spec (Z.of_nat j) 0); [lia |].
  rewrite Nat2Z.id. reflexivity.
Qed.

Lemma index_negative {A : Type} (l : list A) i : i < 0 -> index l i = None.
Proof. intros Hi. unfold index. destruct (Z.ltb_spec i 0); [reflexivity | lia]. Qed.

(** *** The reduction over the child nodes *)

Lemma no_errors_concat (children : list Node) :
  forallb (fun n => match errors n with None => true | Some _ => false end)
    children = true ->
  concat (List.map (fun n => default [] (errors n)) children) = [].
Proof.
  induction children as [| n children IH]; [reflexivity |].
  cbn [forallb List.map concat]. destruct (errors n); [discriminate |].
  intros E. rewrite (IH E). reflexivity.
Qed.

Lemma childErrors_cons (n : Node) children :
  childErrors (n :: children) = mergeErrors (errors n) (childErrors children).
Proof.
  unfold childErrors, mergeErrors. cbn [forallb List.map concat].
  destruct (errors n) as [e |]; cbn [andb default];
    destruct (forallb _ children) eqn:E; cbn [default app];
    rewrite ?(no_errors_concat _ E), ?app_nil_r; reflexivity.
Qed.

Lemma mergeErrors_assoc a b c :
  mergeErrors (mergeErrors a b) c = mergeErrors a (mergeErrors b c).
Proof.
  destruct a, b, c; simpl; rewrite ?app_nil_r, ?app_assoc; reflexivity.
Qed.

Lemma reduction_fold (children : list Node) b0 e0 r0 :
  fold_left reduction_step children (b0, e0, r0) =
  (b0 ++ List.map bytecode children,
   mergeErrors e0 (childErrors children),
   r0 ++ List.map range children).
Proof.
  revert b0 e0 r0.
  induction children as [| n children IH]; intros b0 e0 r0.
  - simpl. rewrite !app_nil_r. destruct e0; simpl; rewrite ?app_nil_r; reflexivity.
  - cbn [fold_left reduction_step]. rewrite IH, childErrors_cons.
    rewrite <- mergeErrors_assoc.
    cbn [List.map]. rewrite <- !app_assoc. cbn [app].
    destruct e0, (errors n); reflexivity.
Qed.

(** [reduceScript_finish] on a non-empty list of children. *)
Lemma reduceScript_finish_spec (children : list Node) :
  children <> [] ->
  exists merged,
    mergeRanges (List.map range children) = Some merged
    /\ reduceScript_finish children =
       Some (mkNode (flattenBinArray (List.map bytecode children))
               (childErrors children) merged (Some children) None).
Proof.
  intros Hne. unfold reduceScript_finish.
  rewrite reduction_fold. cbn [app].
  destruct children as [| n rest]; [congruence |].
  destruct (mergeRanges_nonempty (range n) (List.map range rest)) as (m & Em & _).
  exists m. cbn [List.map]. rewrite Em. split; [reflexivity |].
  cbn. destruct (childErrors (n :: rest)); reflexivity.
Qed.

Lemma reduceScript_finish_empty :
  reduceScript_finish ([] : list Node) = None.
Proof. reflexivity. Qed.

(** *** Sampled evaluation *)

Lemma aggregatedParse_loop_spec (nodes : list Node) aggs ip incomplete :
  exists extra ip' incomplete',
    aggregatedParse_loop parseBytecode authenticationInstructionsAreNotMalformed
      nodes aggs ip incomplete = Some (aggs ++ extra, ip', incomplete')
    /\ (incomplete' = None -> extra <> [] \/ (nodes = [] /\ incomplete = None)).
Proof.
  revert aggs ip incomplete.
  induction nodes as [| node rest IH]; intros aggs ip incomplete.
  - exists [], ip, incomplete. rewrite app_nil_r. split; [reflexivity | auto].
  - cbn [aggregatedParse_loop].
    set (bytecode' := match incomplete with
                      | None => bytecode node
                      | Some (b, _) => flattenBinArray [b; bytecode node]
                      end).
    assert (Hrange : exists range',
               match incomplete with
               | None => Some (range node)
               | Some (_, r) => mergeRanges [r; range node]
               end = Some range').
    { destruct incomplete as [[b r] |]; [| eauto].
      destruct (mergeRanges_nonempty r [range node]) as (m & Em & _). eauto. }
    destruct Hrange as (range' & ->). cbn [mbind option_bind].
    destruct (len (parseBytecode bytecode') =? 0).
    + destruct (IH (aggs ++ [mkAggregation [] ip range']) ip None)
        as (extra & ip' & inc' & E & _).
      exists ([mkAggregation [] ip range'] ++ extra), ip', inc'.
      rewrite app_assoc. split; [exact E |].
      intros _. left. discriminate.
    + destruct (authenticationInstructionsAreNotMalformed (parseBytecode bytecode')).
      * destruct (IH (aggs ++ [mkAggregation (parseBytecode bytecode')
                                 (ip + len (parseBytecode bytecode')) range'])
                    (ip + len (parseBytecode bytecode')) None)
          as (extra & ip' & inc' & E & _).
        eexists (_ :: extra), ip', inc'.
        rewrite <- app_assoc in E. split; [exact E |].
        intros _. left. discriminate.
      * destruct (IH aggs ip (Some (bytecode', range')))
          as (extra & ip' & inc' & E & Hextra).
        exists extra, ip', inc'. split; [exact E |].
        intros Hnone. destruct (Hextra Hnone) as [Hne | [_ Habs]];
          [left; exact Hne | discriminate].
Qed.

Lemma findIndex_undefined_spec (samples : list (@EvaluationSample ProgramState)) k :
  (findIndex_undefined samples k = -1
   /\ Forall (fun s => sample_state s <> None) samples)
  \/ (exists j s,
        findIndex_undefined samples k = k + Z.of_nat j
        /\ samples !! j = Some s /\ sample_state s = None).
Proof.
  revert k. induction samples as [| s rest IH]; intros k.
  - left. split; [reflexivity | constructor].
  - cbn [findIndex_undefined]. destruct (sample_state s) as [state |] eqn:Es.
    + destruct (IH (k + 1)) as [[E Hall] | (j & s' & E & Hj & Hs)].
      * left. split; [exact E |]. constructor; [congruence | exact Hall].
      * right. exists (S j), s'. split; [rewrite E; lia | auto].
    + right. exists 0%nat, s. split; [lia | auto].
Qed.

(** A successful evaluation has a state in every sample. *)
Lemma evaluateInstructionAggregations_success aggs vm getState samples :
  evaluateInstructionAggregations aggs vm getState = EvaluationSuccess samples ->
  Forall (fun s => sample_state s <> None) samples.
Proof.
  unfold evaluateInstructionAggregations.
  set (all := List.map _ _).
  destruct (findIndex_undefined_spec all 0) as [[E Hall] | (j & s & E & Hj & Hs)].
  - rewrite E. rewrite !index_negative by lia.
    intros Eq. injection Eq as <-. exact Hall.
  - rewrite Z.add_0_l in E. rewrite E, (index_nat all j), Hj.
    destruct (index all (Z.of_nat j - 1)); discriminate.
Qed.

(** A failed evaluation reports an error. *)
Lemma evaluateInstructionAggregations_error aggs vm getState errs samples :
  evaluateInstructionAggregations aggs vm getState = EvaluationError errs samples ->
  errs <> [].
Proof.
  unfold evaluateInstructionAggregations.
  destruct (match index _ _ with Some s => Some s | None => _ end);
    intros E; [injection E as <- _; discriminate | discriminate].
Qed.

(** Sampled evaluation of a non-empty list of nodes returns, and when it
    reports no error its bytecode is the top stack item of the state of
    the last sample it returns, or empty when that stack is empty. *)
Lemma sampledEvaluate_spec (nodes : list Node) vm getState :
  nodes <> [] ->
  exists evaluated,
    sampledEvaluate' nodes vm getState = Some evaluated
    /\ se_errors evaluated <> Some []
    /\ (se_errors evaluated = None ->
        exists lastSample state,
          last (se_samples evaluated) = Some lastSample
          /\ sample_state lastSample = Some state
          /\ se_bytecode evaluated = default [] (topStackItem (stack state))).
Proof.
  intros Hne. unfold sampledEvaluateReductionTraceNodes,
    aggregatedParseReductionTraceNodes.
  destruct (aggregatedParse_loop_spec nodes [] 0 None)
    as (aggs & ip' & inc' & E & Haggs).
  rewrite E. cbn [mbind option_bind app aggregations remaining].
  unfold ar_success. cbn [remaining].
  destruct inc' as [[remainingBytecode remainingRange] |].
  { cbn [andb]. eexists. split; [reflexivity |]. cbn. split; discriminate. }
  cbn [andb].
  destruct (evaluateInstructionAggregations aggs vm getState)
    as [samples | errs samples] eqn:Ev.
  2: { cbn. eexists. split; [reflexivity |]. cbn. split; [| discriminate].
       pose proof (evaluateInstructionAggregations_error _ _ _ _ _ Ev) as Hne'.
       congruence. }
  pose proof (evaluateInstructionAggregations_success _ _ _ _ Ev) as Hall.
  cbn [er_success er_samples].
  assert (Hfinish : forall chosen : list EvaluationSample,
            chosen <> [] ->
            Forall (fun s => sample_state s <> None) chosen ->
            exists evaluated,
              (lastSample ← index chosen (len chosen - 1);
               state ← sample_state lastSample;
               Some (mkSampled
                       match index (stack state) (len (stack state) - 1) with
                       | None => []
                       | Some item => item
                       end None chosen)) = Some evaluated
              /\ se_errors evaluated <> Some []
              /\ (se_errors evaluated = None ->
                  exists lastSample state,
                    last (se_samples evaluated) = Some lastSample
                    /\ sample_state lastSample = Some state
                    /\ se_bytecode evaluated
                       = default [] (topStackItem (stack state)))).
  { intros chosen Hchosen Hstates.
    rewrite index_last.
    destruct (last chosen) as [lastSample |] eqn:El;
      [| apply last_None in El; congruence].
    assert (Hin : In lastSample chosen).
    { apply list_elem_of_In. apply (last_Some_elem_of _ _ El). }
    rewrite List.Forall_forall in Hstates. specialize (Hstates _ Hin).
    cbn [mbind option_bind].
    destruct (sample_state lastSample) as [state |] eqn:Es; [| congruence].
    cbn [mbind option_bind]. eexists. split; [reflexivity |].
    split; [discriminate |].
    intros _. exists lastSample, state. cbn [se_samples se_bytecode].
    repeat split; try assumption.
    rewrite index_last. unfold topStackItem.
    destruct (last (stack state)); reflexivity. }
  destruct (len samples >? 0) eqn:Elen.
  - cbn [mbind option_bind]. apply Hfinish; [| exact Hall].
    intros ->. discriminate.
  - destruct aggs as [| first aggs'].
    { destruct (Haggs eq_refl) as [Habs | [Habs _]]; congruence. }
    change (index (first :: aggs') 0) with (Some first).
    cbn [mbind option_bind].
    apply Hfinish; [discriminate |].
    constructor; [discriminate | constructor].
Qed.

(** *** The reducer returns on every non-empty script *)

Lemma len_cons_nonzero {A : Type} (x : A) l : (len (x :: l) =? 0) = false.
Proof. apply Z.eqb_neq. unfold len. simpl length. lia. Qed.

Lemma reduceSegments_of_Forall vm createState script :
  Forall (fun s => exists n, reduceSegment' vm createState s = Some n
                             /\ range n = segmentRange s) script ->
  exists children,
    reduceSegments' vm createState script = Some children
    /\ Forall2 (fun s n => reduceSegment' vm createState s = Some n) script children
    /\ List.map range children = List.map segmentRange script.
Proof.
  induction 1 as [| s rest (n & En & Rn) _ (children & Ec & Fc & Rc)].
  - exists []. repeat split. constructor.
  - exists (n :: children). cbn [reduceSegments]. rewrite En, Ec.
    repeat split; [constructor; assumption | cbn; congruence].
Qed.

Lemma reduceScript_of_children vm createState script children :
  script <> [] ->
  reduceSegments' vm createState script = Some children ->
  List.map range children = List.map segmentRange script ->
  exists merged,
    mergeRanges (List.map segmentRange script) = Some merged
    /\ reduceScript' script vm createState =
       Some (mkNode (flattenBinArray (List.map bytecode children))
               (childErrors children) merged (Some children) None).
Proof.
  intros Hne Ec Rc.
  assert (Hchildren : children <> []).
  { intros ->. destruct script; [congruence | discriminate]. }
  destruct (reduceScript_finish_spec children Hchildren) as (merged & Em & Ef).
  exists merged. rewrite <- Rc. split; [exact Em |].
  unfold reduceScript. rewrite Ec. exact Ef.
Qed.

Lemma reduceSegment_total vm createState segment :
  exists n, reduceSegment' vm createState segment = Some n
            /\ range n = segmentRange segment.
Proof.
  induction segment as [range value IH | range value IH | | | | | |]
    using ResolvedSegment_nested_ind;
    try (eexists; split; reflexivity).
  - rewrite reduceSegment_push.
    destruct value as [| s rest]; [eexists; split; reflexivity |].
    rewrite len_cons_nonzero.
    destruct (reduceSegments_of_Forall vm createState _ IH)
      as (children & Ec & _ & Rc).
    destruct (reduceScript_of_children vm createState (s :: rest) children
                ltac:(discriminate) Ec Rc) as (merged & _ & Er).
    rewrite Er. eexists. split; reflexivity.
  - rewrite reduceSegment_evaluation.
    destruct value as [| s rest]; [eexists; split; reflexivity |].
    rewrite len_cons_nonzero.
    destruct vm as [vm' |], createState as [createState' |];
      try (eexists; split; reflexivity).
    destruct (reduceSegments_of_Forall (Some vm') (Some createState') _ IH)
      as (children & Ec & _ & Rc).
    destruct (reduceScript_of_children (Some vm') (Some createState')
                (s :: rest) children ltac:(discriminate) Ec Rc)
      as (merged & _ & Er).
    rewrite Er. cbn [mbind option_bind source].
    assert (Hchildren : children <> []).
    { intros ->. discriminate. }
    destruct (sampledEvaluate_spec children vm' createState' Hchildren)
      as (evaluated & Ee & _).
    rewrite Ee. cbn [mbind option_bind].
    eexists. split; [reflexivity |].
    destruct (len _ >? 0); reflexivity.
Qed.

Lemma reduceSegments_total vm createState script :
  exists children,
    reduceSegments' vm createState script = Some children
    /\ Forall2 (fun s n => reduceSegment' vm createState s = Some n) script children
    /\ List.map range children = List.map segmentRange script.
Proof.
  apply reduceSegments_of_Forall. apply List.Forall_forall.
  intros s _. apply reduceSegment_total.
Qed.

(** Whatever the push encoder: on every non-empty resolved script
    [reduceScript] returns a node whose children are the reductions of the
    segments in order, whose bytecode, range and errors are those of the
    children put together; the bytecode of a Push segment with a non-empty
    value is the encoder applied to the bytecode of the reduced value, and
    a Push segment with an empty value reduces to empty bytecode. *)
Lemma reduceScript_of_segments vm createState script :
  script <> [] ->
  (exists children node,
     reduceScript' script vm createState = Some node
     /\ Forall2 (fun s n => reduceSegment' vm createState s = Some n)
          script children
     /\ source node = Some children
     /\ bytecode node = flattenBinArray (List.map bytecode children)
     /\ List.map range children = List.map segmentRange script
     /\ mergeRanges (List.map range children) = Some (range node)
     /\ errors node = childErrors children)
  /\ (forall pushRange,
        exists push pushNode,
          reduceScript' script vm createState = Some push
          /\ reduceSegment' vm createState (SegmentPush pushRange script)
             = Some pushNode
          /\ bytecode pushNode = encodeDataPush (bytecode push)
          /\ range pushNode = pushRange
          /\ errors pushNode = errors push)
  /\ (forall pushRange,
        reduceSegment' vm createState (SegmentPush pushRange [])
        = Some (emptyReductionTraceNode pushRange)).
Proof.
  intros Hne.
  destruct (reduceSegments_total vm createState script)
    as (children & Ec & Fc & Rc).
  destruct (reduceScript_of_children vm createState script children Hne Ec Rc)
    as (merged & Em & Er).
  split; [| split].
  - exists children. eexists. split; [exact Er |].
    cbn [source bytecode range errors]. rewrite Rc.
    repeat split; assumption.
  - intros pushRange. rewrite reduceSegment_push.
    destruct script as [| s rest]; [congruence |].
    rewrite len_cons_nonzero, Er. cbn [mbind option_bind].
    eexists. eexists. repeat split.
  - intros pushRange. reflexivity.
Qed.

(** C6 (as amended): an Evaluation segment with an empty value reduces to
    empty bytecode without error; for one with a non-empty value: when
    the VM or the state factory is missing, it reduces to empty bytecode
    with one error; when both are supplied, the value is reduced, its child
    nodes are evaluated with sampling, and the errors of the two are
    merged in that order; when the merged list is empty, the segment's
    bytecode is the top stack item of the state of the last sample, or
    empty when that stack is empty; when it is not, the segment has empty
    bytecode and the merged list as its errors. *)
Theorem reduceSegment_evaluation_spec vm createState evaluationRange value :
  reduceSegment' vm createState (SegmentEvaluation evaluationRange [])
  = Some (emptyReductionTraceNode evaluationRange)
  /\ (value <> [] ->
  (vm = None \/ createState = None ->
     reduceSegment' vm createState (SegmentEvaluation evaluationRange value)
     = Some (mkNode []
               (Some [mkErrorInformation
                  "Both a VM and a createState method are required to reduce evaluations."
                  evaluationRange])
               evaluationRange None None))
  /\ (forall vm' createState',
        vm = Some vm' -> createState = Some createState' ->
        exists reductionTrace nodes evaluated node,
          reduceScript' value vm createState = Some reductionTrace
          /\ source reductionTrace = Some nodes
          /\ sampledEvaluate' nodes vm' createState' = Some evaluated
          /\ reduceSegment' vm createState
               (SegmentEvaluation evaluationRange value) = Some node
          /\ samples node = Some (se_samples evaluated)
          /\ let merged :=
               default [] (errors reductionTrace)
               ++ default [] (se_errors evaluated) in
             (merged = [] ->
                errors node = None
                /\ exists lastSample state,
                     last (se_samples evaluated) = Some lastSample
                     /\ sample_state lastSample = Some state
                     /\ bytecode node = default [] (topStackItem (stack state)))
             /\ (merged <> [] ->
                 errors node = Some merged /\ bytecode node = []))).
Proof.
  split; [reflexivity |].
  intros Hne. destruct value as [| s rest]; [congruence |].
  split.
  - intros Hmissing. rewrite reduceSegment_evaluation, len_cons_nonzero.
    destruct Hmissing as [-> | ->]; [reflexivity |].
    destruct vm; reflexivity.
  - intros vm' createState' -> ->.
    rewrite reduceSegment_evaluation, len_cons_nonzero.
    destruct (reduceSegments_total (Some vm') (Some createState') (s :: rest))
      as (children & Ec & _ & Rc).
    destruct (reduceScript_of_children (Some vm') (Some createState')
                (s :: rest) children ltac:(discriminate) Ec Rc)
      as (merged & _ & Er).
    assert (Hchildren : children <> []) by (intros ->; discriminate).
    destruct (sampledEvaluate_spec children vm' createState' Hchildren)
      as (evaluated & Ee & Hnonempty & Hsuccess).
    eexists. exists children, evaluated. eexists.
    split; [exact Er |]. split; [reflexivity |]. split; [exact Ee |].
    rewrite Er. cbn [mbind option_bind source]. rewrite Ee.
    cbn [mbind option_bind errors].
    split; [reflexivity |].
    set (merged' := _ ++ _).
    change (match childErrors children with Some e => e | None => [] end
            ++ match se_errors evaluated with Some e => e | None => [] end)
      with merged'.
    split; [destruct (len merged' >? 0); reflexivity |].
    cbv zeta. split.
    + intros Hnone. rewrite Hnone. cbn [len length Z.of_nat Z.gtb Z.compare].
      cbn [errors bytecode]. split; [reflexivity |].
      assert (Hs : se_errors evaluated = None).
      { destruct (se_errors evaluated) as [l |] eqn:El; [| reflexivity].
        unfold merged' in Hnone. apply app_eq_nil in Hnone as [_ Hl].
        cbn in Hl. subst l. congruence. }
      apply Hsuccess. exact Hs.
    + intros Hsome.
      assert (Hlen : (len merged' >? 0) = true).
      { apply Z.gtb_lt. unfold len. destruct merged'; [congruence |].
        simpl length. lia. }
      rewrite Hlen. split; reflexivity.
Qed.

(** *** Resolution errors surface as reduction errors *)

Lemma holdsErrorAny_eq l :
  (fix holdsErrorAny (l : list ResolvedSegment) : bool :=
     match l with
     | [] => false
     | s :: rest => holdsError s || holdsErrorAny rest
     end) l
  = existsb holdsError l.
Proof. induction l as [| c rest IH]; [reflexivity |]. cbn. rewrite IH. reflexivity. Qed.

Lemma childErrors_some (children : list Node) n e :
  In n children -> errors n = Some e -> e <> [] ->
  exists errs, childErrors children = Some errs /\ errs <> [].
Proof.
  intros Hin He Hne.
  induction children as [| n' rest IH]; [destruct Hin |].
  rewrite childErrors_cons. destruct Hin as [-> | Hin].
  - rewrite He. unfold mergeErrors.
    exists (e ++ default [] (childErrors rest)).
    split; [destruct (childErrors rest); reflexivity |].
    destruct e; [congruence | discriminate].
  - destruct (IH Hin) as (errs & -> & Herrs).
    exists (default [] (errors n') ++ errs).
    split; [destruct (errors n'); reflexivity |].
    intros E. apply app_eq_nil in E as [_ E]. congruence.
Qed.

Lemma reduceScript_holdsError vm createState script :
  Forall (fun s =>
            holdsError s = true ->
            exists n e, reduceSegment' vm createState s = Some n
                        /\ errors n = Some e /\ e <> []) script ->
  existsb holdsError script = true ->
  exists node errs,
    reduceScript' script vm createState = Some node
    /\ errors node = Some errs /\ errs <> [].
Proof.
  intros Hall Hany.
  assert (Hne : script <> []) by (intros ->; discriminate).
  destruct (reduceSegments_total vm createState script)
    as (children & Ec & Fc & Rc).
  destruct (reduceScript_of_children vm createState script children Hne Ec Rc)
    as (merged & _ & Er).
  assert (Hchild : exists n e, In n children /\ errors n = Some e /\ e <> []).
  { clear Ec Rc Er Hne.
    induction Fc as [| s n rest children' Hsn _ IH]; [discriminate |].
    inversion Hall as [| ? ? Hs Hrest]; subst.
    cbn [existsb] in Hany. apply orb_prop in Hany as [Hhere | Hthere].
    - destruct (Hs Hhere) as (n' & e & En' & Ee & Hne).
      assert (n' = n) by congruence. subst n'.
      exists n, e. split; [left; reflexivity | auto].
    - destruct (IH Hrest Hthere) as (n' & e & Hin & Ee & Hne).
      exists n', e. split; [right; exact Hin | auto]. }
  destruct Hchild as (n & e & Hin & Ee & Hnonempty).
  destruct (childErrors_some children n e Hin Ee Hnonempty) as (errs & Eerrs & Herrs).
  eexists. exists errs. split; [exact Er |]. cbn [errors]. auto.
Qed.

Lemma reduceSegment_holdsError vm createState segment :
  holdsError segment = true ->
  exists n e, reduceSegment' vm createState segment = Some n
              /\ errors n = Some e /\ e <> [].
Proof.
  induction segment as [range value IH | range value IH | | | | | |]
    using ResolvedSegment_nested_ind; try discriminate.
  - cbn [holdsError]. rewrite holdsErrorAny_eq. intros Hany.
    destruct (reduceScript_holdsError vm createState value IH Hany)
      as (push & errs & Er & Ee & Hne).
    rewrite reduceSegment_push.
    destruct value as [| s rest]; [discriminate |].
    rewrite len_cons_nonzero, Er. cbn [mbind option_bind].
    eexists. exists errs. split; [reflexivity |]. cbn [errors]. auto.
  - cbn [holdsError]. rewrite holdsErrorAny_eq. intros Hany.
    rewrite reduceSegment_evaluation.
    destruct value as [| s rest]; [discriminate |].
    rewrite len_cons_nonzero.
    destruct vm as [vm' |], createState as [createState' |];
      try (eexists; eexists; split; [reflexivity |]; cbn [errors];
           split; [reflexivity | discriminate]).
    destruct (reduceScript_holdsError (Some vm') (Some createState')
                (s :: rest) IH Hany)
      as (reductionTrace & errs & Er & Ee & Hne).
    rewrite Er. cbn [mbind option_bind].
    destruct (reduceSegments_total (Some vm') (Some createState') (s :: rest))
      as (children & Ec & _ & Rc).
    destruct (reduceScript_of_children (Some vm') (Some createState')
                (s :: rest) children ltac:(discriminate) Ec Rc)
      as (merged & _ & Er').
    rewrite Er in Er'. injection Er' as ->.
    cbn [source mbind option_bind].
    assert (Hchildren : children <> []) by (intros ->; discriminate).
    destruct (sampledEvaluate_spec children vm' createState' Hchildren)
      as (evaluated & Eev & _).
    rewrite Eev. cbn [mbind option_bind errors]. cbn [errors] in Ee. rewrite Ee.
    set (merged' := _ ++ _).
    assert (Hmerged : merged' <> []).
    { unfold merged'. destruct errs; [congruence | discriminate]. }
    assert (Hlen : (len merged' >? 0) = true).
    { apply Z.gtb_lt. unfold len.
      destruct merged'; [congruence |]. simpl length. lia. }
    rewrite Hlen. eexists. exists merged'. split; [reflexivity |].
    cbn [errors]. split; [reflexivity | exact Hmerged].
  - intros _. eexists. eexists. split; [reflexivity |]. cbn [errors].
    split; [reflexivity | discriminate].
Qed.


(** *** A reported resolution error is among the errors of the reduction *)






(** *** Further properties of the reducer *)

Lemma evaluationFreeAll_eq l :
  (fix evaluationFreeAll (l : list ResolvedSegment) : bool :=
     match l with
     | [] => true
     | s :: rest => evaluationFree s && evaluationFreeAll rest
     end) l
  = forallb evaluationFree l.
Proof. induction l as [| c rest IH]; [reflexivity |]. cbn. rewrite IH. reflexivity. Qed.

Lemma mergeErrors_None_l e : e <> Some [] -> mergeErrors None e = e.
Proof. destruct e as [e |]; reflexivity. Qed.

Lemma mergeErrors_nonempty a b :
  a <> Some [] -> b <> Some [] -> mergeErrors a b <> Some [].
Proof.
  destruct a as [[| x a] |], b as [[| y b] |]; cbn; congruence.
Qed.

Lemma childErrors_nil : childErrors ([] : list Node) = None.
Proof. reflexivity. Qed.

Lemma childErrors_nonempty (children : list Node) :
  Forall (fun n => errors n <> Some []) children ->
  childErrors children <> Some [].
Proof.
  induction 1 as [| n rest Hn _ IH]; [discriminate |].
  rewrite childErrors_cons. apply mergeErrors_nonempty; assumption.
Qed.

Lemma childErrors_app (a b : list Node) :
  childErrors (a ++ b) = mergeErrors (childErrors a) (childErrors b).
Proof.
  induction a as [| n a IH]; cbn [app].
  - rewrite childErrors_nil. destruct (childErrors b); reflexivity.
  - rewrite !childErrors_cons, IH, mergeErrors_assoc. reflexivity.
Qed.

Lemma reduceSegments_app vm createState a b :
  reduceSegments' vm createState (a ++ b) =
  ca ← reduceSegments' vm createState a;
  cb ← reduceSegments' vm createState b;
  Some (ca ++ cb).
Proof.
  induction a as [| s a IH]; cbn [app reduceSegments].
  - cbn [mbind option_bind]. destruct (reduceSegments' vm createState b); reflexivity.
  - destruct (reduceSegment' vm createState s) as [n |]; [| reflexivity].
    rewrite IH.
    destruct (reduceSegments' vm createState a) as [ca |]; [| reflexivity].
    cbn [mbind option_bind].
    destruct (reduceSegments' vm createState b) as [cb |]; reflexivity.
Qed.

(** The children of a script, each with the range of its segment and with
    errors that are absent or not empty. *)
Lemma reduceSegment_errors vm createState segment :
  exists n, reduceSegment' vm createState segment = Some n
            /\ errors n <> Some [].
Proof.
  induction segment as [range value IH | range value IH | | | | | |]
    using ResolvedSegment_nested_ind;
    try (eexists; split; [reflexivity | discriminate]).
  - rewrite reduceSegment_push.
    destruct value as [| s rest]; [eexists; split; [reflexivity | discriminate] |].
    rewrite len_cons_nonzero.
    destruct (reduceSegments_total vm createState (s :: rest))
      as (children & Ec & Fc & Rc).
    destruct (reduceScript_of_children vm createState (s :: rest) children
                ltac:(discriminate) Ec Rc) as (merged & _ & Er).
    rewrite Er. cbn [mbind option_bind]. eexists. split; [reflexivity |].
    cbn [errors]. apply childErrors_nonempty.
    clear Ec Rc Er. induction Fc as [| s' n' l l' Hs' _ IHF]; constructor.
    + inversion IH as [| ? ? (n0 & En0 & Hn0) _]; subst. congruence.
    + apply IHF. inversion IH; assumption.
  - rewrite reduceSegment_evaluation.
    destruct value as [| s rest]; [eexists; split; [reflexivity | discriminate] |].
    rewrite len_cons_nonzero.
    destruct vm as [vm' |], createState as [createState' |];
      try (eexists; split; [reflexivity | discriminate]).
    destruct (reduceSegments_total (Some vm') (Some createState') (s :: rest))
      as (children & Ec & _ & Rc).
    destruct (reduceScript_of_children (Some vm') (Some createState')
                (s :: rest) children ltac:(discriminate) Ec Rc)
      as (merged & _ & Er).
    rewrite Er. cbn [mbind option_bind source].
    assert (Hchildren : children <> []) by (intros ->; discriminate).
    destruct (sampledEvaluate_spec children vm' createState' Hchildren)
      as (evaluated & Ee & _).
    rewrite Ee. cbn [mbind option_bind].
    set (merged' := _ ++ _).
    eexists. split; [reflexivity |].
    destruct (len merged' >? 0) eqn:El; cbn [errors]; [| discriminate].
    intros E. injection E as E. rewrite E in El. discriminate.
Qed.

(** X17: The errors of a reduced segment are absent or hold at least one
    error: an empty error list never stands for success. *)
Theorem reduce_errors_never_empty vm createState :
  (forall segment,
     exists n, reduceSegment' vm createState segment = Some n
               /\ errors n <> Some [])
  /\ (forall first rest,
        exists node, reduceScript' (first :: rest) vm createState = Some node
                     /\ errors node <> Some []).
Proof.
  split; [apply reduceSegment_errors |].
  intros first rest.
  destruct (reduceSegments_total vm createState (first :: rest))
    as (children & Ec & Fc & Rc).
  destruct (reduceScript_of_children vm createState (first :: rest) children
              ltac:(discriminate) Ec Rc) as (merged & _ & Er).
  rewrite Er. eexists. split; [reflexivity |]. cbn [errors].
  apply childErrors_nonempty.
  clear Ec Rc Er. generalize dependent (first :: rest). intros script Fc.
  induction Fc as [| s n l l' Hs _ IHF]; constructor; [| exact IHF].
  destruct (reduceSegment_errors vm createState s) as (n0 & En0 & Hn0). congruence.
Qed.

(** X18: Reducing the concatenation of two non-empty scripts: the bytecode is
    the concatenation of the two bytecodes, the errors are the two error
    lists joined in order, the children are the two lists of children, and
    the range is the merge of the two ranges. *)
Theorem reduceScript_app vm createState first1 rest1 first2 rest2 :
  let script1 := first1 :: rest1 in
  let script2 := first2 :: rest2 in
  exists node1 node2 node children1 children2,
    reduceScript' script1 vm createState = Some node1
    /\ reduceScript' script2 vm createState = Some node2
    /\ reduceScript' (script1 ++ script2) vm createState = Some node
    /\ bytecode node = bytecode node1 ++ bytecode node2
    /\ errors node = mergeErrors (errors node1) (errors node2)
    /\ source node1 = Some children1
    /\ source node2 = Some children2
    /\ source node = Some (children1 ++ children2)
    /\ mergeRanges [range node1; range node2] = Some (range node).
Proof.
  intros script1 script2.
  destruct (reduceSegments_total vm createState script1) as (c1 & Ec1 & _ & Rc1).
  destruct (reduceSegments_total vm createState script2) as (c2 & Ec2 & _ & Rc2).
  destruct (reduceScript_of_children vm createState script1 c1
              ltac:(discriminate) Ec1 Rc1) as (m1 & Em1 & Er1).
  destruct (reduceScript_of_children vm createState script2 c2
              ltac:(discriminate) Ec2 Rc2) as (m2 & Em2 & Er2).
  assert (Ec : reduceSegments' vm createState (script1 ++ script2) = Some (c1 ++ c2)).
  { rewrite reduceSegments_app, Ec1, Ec2. reflexivity. }
  assert (Rc : List.map range (c1 ++ c2) = List.map segmentRange (script1 ++ script2)).
  { rewrite !map_app, Rc1, Rc2. reflexivity. }
  destruct (reduceScript_of_children vm createState (script1 ++ script2) (c1 ++ c2)
              ltac:(discriminate) Ec Rc) as (m & Em & Er).
  exists (mkNode (flattenBinArray (List.map bytecode c1)) (childErrors c1) m1
            (Some c1) None),
         (mkNode (flattenBinArray (List.map bytecode c2)) (childErrors c2) m2
            (Some c2) None),
         (mkNode (flattenBinArray (List.map bytecode (c1 ++ c2)))
            (childErrors (c1 ++ c2)) m (Some (c1 ++ c2)) None),
         c1, c2.
  split; [exact Er1 |]. split; [exact Er2 |]. split; [exact Er |].
  cbn [bytecode errors source range].
  split; [unfold flattenBinArray; rewrite map_app; apply concat_app |].
  split; [apply childErrors_app |].
  repeat split.
  destruct (mergeRanges_nonempty m1 [m2]) as (m' & Em' & Hm').
  rewrite Em'. f_equal.
  apply (MinStartMaxEnd_unique (List.map segmentRange (script1 ++ script2))).
  - rewrite map_app.
    destruct (mergeRanges_nonempty (segmentRange first1) (List.map segmentRange rest1))
      as (x1 & Ex1 & Hx1).
    destruct (mergeRanges_nonempty (segmentRange first2) (List.map segmentRange rest2))
      as (x2 & Ex2 & Hx2).
    change (segmentRange first1 :: List.map segmentRange rest1)
      with (List.map segmentRange script1) in *.
    change (segmentRange first2 :: List.map segmentRange rest2)
      with (List.map segmentRange script2) in *.
    assert (x1 = m1) by congruence. assert (x2 = m2) by congruence. subst.
    apply (MinStartMaxEnd_halves _ _ m1 m2); assumption.
  - destruct (mergeRanges_nonempty (segmentRange first1)
                (List.map segmentRange (rest1 ++ script2))) as (x & Ex & Hx).
    change (segmentRange first1 :: List.map segmentRange (rest1 ++ script2))
      with (List.map segmentRange (script1 ++ script2)) in *.
    assert (x = m) by congruence. subst. exact Hx.
Qed.

Lemma reduceSegments_errors vm createState script children :
  reduceSegments' vm createState script = Some children ->
  Forall (fun n => errors n <> Some []) children.
Proof.
  revert children.
  induction script as [| s script IH]; intros children; cbn [reduceSegments].
  - intros [= <-]. constructor.
  - destruct (reduceSegment_errors vm createState s) as (n & -> & Hn).
    destruct (reduceSegments' vm createState script) as [rest |]; [| discriminate].
    intros [= <-]. constructor; [exact Hn | apply IH; reflexivity].
Qed.

Lemma reduceSegments_without_comments vm createState script :
  exists children kept,
    reduceSegments' vm createState script = Some children
    /\ reduceSegments' vm createState (List.filter (fun s => negb (isComment s)) script)
       = Some kept
    /\ flattenBinArray (List.map bytecode kept)
       = flattenBinArray (List.map bytecode children)
    /\ childErrors kept = childErrors children
    /\ List.map range kept
       = List.map segmentRange (List.filter (fun s => negb (isComment s)) script)
    /\ List.map range children = List.map segmentRange script.
Proof.
  induction script as [| s script (children & kept & Ec & Ek & Hb & He & Rk & Rc)].
  - exists (@nil Node), (@nil Node). repeat split.
  - destruct (reduceSegment_total vm createState s) as (n & En & Rn).
    cbn [List.filter reduceSegments]. rewrite En, Ec.
    destruct (isComment s) eqn:Ecomment; cbn [negb].
    + exists (n :: children), kept.
      destruct s; try discriminate.
      cbn in En. injection En as <-.
      cbn [List.map]. unfold flattenBinArray in *. cbn [concat bytecode app].
      rewrite childErrors_cons. cbn [errors].
      rewrite mergeErrors_None_l.
      * rewrite Rc. repeat split; assumption.
      * apply childErrors_nonempty.
        apply (reduceSegments_errors vm createState script). exact Ec.
    + cbn [reduceSegments]. rewrite En, Ek.
      exists (n :: children), (n :: kept).
      cbn [List.map]. unfold flattenBinArray in *. cbn [concat].
      rewrite !childErrors_cons, Hb, He, Rk, Rc, Rn. repeat split.
Qed.

(** X19: Comments contribute nothing: dropping the comment segments of a
    script changes neither the bytecode nor the errors of its reduction. *)
Theorem reduceScript_ignores_comments vm createState script :
  List.filter (fun s => negb (isComment s)) script <> [] ->
  exists node kept,
    reduceScript' script vm createState = Some node
    /\ reduceScript' (List.filter (fun s => negb (isComment s)) script)
         vm createState = Some kept
    /\ bytecode kept = bytecode node
    /\ errors kept = errors node.
Proof.
  intros Hkept.
  assert (Hne : script <> []) by (intros ->; apply Hkept; reflexivity).
  destruct (reduceSegments_without_comments vm createState script)
    as (children & keptChildren & Ec & Ek & Hb & He & Rk & Rc).
  destruct (reduceScript_of_children vm createState script children Hne Ec Rc)
    as (m & _ & Er).
  destruct (reduceScript_of_children vm createState _ keptChildren Hkept Ek Rk)
    as (m' & _ & Er').
  rewrite Er, Er'. eexists. eexists.
  split; [reflexivity |]. split; [reflexivity |].
  cbn [bytecode errors]. split; assumption.
Qed.

Lemma reduceSegments_ext vm1 createState1 vm2 createState2 script :
  Forall (fun s => reduceSegment' vm1 createState1 s
                   = reduceSegment' vm2 createState2 s) script ->
  reduceSegments' vm1 createState1 script = reduceSegments' vm2 createState2 script.
Proof.
  induction 1 as [| s rest Hs _ IH]; [reflexivity |].
  cbn [reduceSegments]. rewrite Hs, IH. reflexivity.
Qed.

(** X20: The virtual machine and the state factory matter to evaluations
    only: a segment without evaluations reduces to the same node whatever
    the two are, also when they are missing. *)
Theorem reduceSegment_without_evaluations vm1 createState1 vm2 createState2 segment :
  evaluationFree segment = true ->
  reduceSegment' vm1 createState1 segment = reduceSegment' vm2 createState2 segment.
Proof.
  induction segment as [range value IH | range value IH | | | | | |]
    using ResolvedSegment_nested_ind; try reflexivity; try discriminate.
  cbn [evaluationFree]. rewrite evaluationFreeAll_eq. intros Hfree.
  rewrite !reduceSegment_push. unfold reduceScript.
  rewrite (reduceSegments_ext vm1 createState1 vm2 createState2 value);
    [reflexivity |].
  rewrite forallb_forall in Hfree. rewrite List.Forall_forall in *.
  intros s Hs. apply IH; [exact Hs | apply Hfree; exact Hs].
Qed.

Lemma childErrors_None_iff (children : list Node) :
  childErrors children = None
  <-> Forall (fun n => errors n = None) children.
Proof.
  unfold childErrors.
  destruct (forallb _ children) eqn:E.
  - split; [intros _ | reflexivity].
    rewrite forallb_forall in E. apply List.Forall_forall. intros n Hn.
    specialize (E n Hn). destruct (errors n); [discriminate | reflexivity].
  - split; [discriminate |]. intros Hall. exfalso.
    assert (forallb (fun n : Node => match errors n with
                                     | Some _ => false | None => true end)
              children = true); [| congruence].
    apply forallb_forall. intros n Hn. rewrite List.Forall_forall in Hall.
    rewrite (Hall n Hn). reflexivity.
Qed.

(** X21: Without evaluations, the reduction reports errors exactly when the
    resolved segment holds an error segment at some depth. *)
Theorem reduceSegment_errors_iff_holdsError vm createState segment :
  evaluationFree segment = true ->
  exists n,
    reduceSegment' vm createState segment = Some n
    /\ (errors n = None <-> holdsError segment = false).
Proof.
  induction segment as [range value IH | range value IH | | | | | |]
    using ResolvedSegment_nested_ind; try discriminate;
    try (intros _; eexists; split; [reflexivity |]; cbn; split; congruence).
  cbn [evaluationFree holdsError].
  rewrite evaluationFreeAll_eq, holdsErrorAny_eq. intros Hfree.
  rewrite reduceSegment_push.
  destruct value as [| s rest].
  { eexists. split; [reflexivity |]. cbn. split; reflexivity. }
  rewrite len_cons_nonzero.
  destruct (reduceSegments_total vm createState (s :: rest))
    as (children & Ec & Fc & Rc).
  destruct (reduceScript_of_children vm createState (s :: rest) children
              ltac:(discriminate) Ec Rc) as (merged & _ & Er).
  rewrite Er. cbn [mbind option_bind]. eexists. split; [reflexivity |].
  cbn [errors]. rewrite childErrors_None_iff.
  clear Ec Rc Er merged.
  generalize dependent (s :: rest). clear s rest. intros script IH Hfree Fc.
  induction Fc as [| s n l l' Hs _ IHF].
  - split; [reflexivity | constructor].
  - cbn [forallb existsb] in *.
    apply andb_prop in Hfree as [Hs_free Hl_free].
    inversion IH as [| ? ? IHs IHl]; subst.
    destruct (IHs Hs_free) as (n0 & En0 & Hiff).
    assert (n0 = n) by congruence. subst n0.
    specialize (IHF IHl Hl_free).
    rewrite Forall_cons, orb_false_iff, Hiff, IHF. reflexivity.
Qed.

(** *** Aggregated parsing and sampled evaluation, continued *)

Lemma instructionCount_app a b :
  instructionCount (a ++ b) = instructionCount a + instructionCount b.
Proof.
  unfold instructionCount. induction a as [| x a IH]; cbn [app fold_right]; lia.
Qed.

Lemma aggregatedParse_loop_lastIp (nodes : list Node) aggs ip incomplete :
  ip = instructionCount aggs ->
  (forall k agg, aggs !! k = Some agg ->
     lastIp agg = instructionCount (take (S k) aggs)) ->
  exists aggs' ip' incomplete',
    aggregatedParse_loop parseBytecode authenticationInstructionsAreNotMalformed
      nodes aggs ip incomplete = Some (aggs', ip', incomplete')
    /\ ip' = instructionCount aggs'
    /\ (forall k agg, aggs' !! k = Some agg ->
          lastIp agg = instructionCount (take (S k) aggs')).
Proof.
  revert aggs ip incomplete.
  induction nodes as [| node rest IH]; intros aggs ip incomplete Hip Hall.
  - exists aggs, ip, incomplete. auto.
  - cbn [aggregatedParse_loop].
    set (bytecode' := match incomplete with
                      | None => bytecode node
                      | Some (b, _) => flattenBinArray [b; bytecode node]
                      end).
    assert (Hrange : exists range',
               match incomplete with
               | None => Some (range node)
               | Some (_, r) => mergeRanges [r; range node]
               end = Some range').
    { destruct incomplete as [[b r] |]; [| eauto].
      destruct (mergeRanges_nonempty r [range node]) as (m & Em & _). eauto. }
    destruct Hrange as (range' & ->). cbn [mbind option_bind].
    assert (Hsnoc : forall a,
              lastIp a = ip + len (instructions a) ->
              forall k agg, (aggs ++ [a]) !! k = Some agg ->
                lastIp agg = instructionCount (take (S k) (aggs ++ [a]))).
    { intros a Ha k agg Hk.
      destruct (Nat.lt_ge_cases k (length aggs)) as [Hlt | Hge].
      - rewrite lookup_app_l in Hk by exact Hlt.
        rewrite take_app_le by lia. apply Hall. exact Hk.
      - rewrite lookup_app_r in Hk by exact Hge.
        destruct (k - length aggs)%nat eqn:Ek; [| destruct n; discriminate].
        injection Hk as <-.
        rewrite take_ge by (rewrite length_app; simpl; lia).
        rewrite instructionCount_app, <- Hip, Ha.
        unfold instructionCount. cbn [fold_right]. lia. }
    destruct (len (parseBytecode bytecode') =? 0) eqn:Ezero.
    + apply IH.
      * rewrite instructionCount_app, <- Hip. unfold instructionCount.
        cbn [fold_right instructions]. unfold len. simpl length. lia.
      * apply Hsnoc. cbn [lastIp instructions]. unfold len. simpl length. lia.
    + destruct (authenticationInstructionsAreNotMalformed (parseBytecode bytecode')).
      * apply IH.
        -- rewrite instructionCount_app, <- Hip. unfold instructionCount.
           cbn [fold_right instructions]. lia.
        -- apply Hsnoc. reflexivity.
      * apply IH; assumption.
Qed.

(** X22: [aggregatedParseReductionTraceNodes] always returns, and the [lastIp]
    of every aggregation is the number of instructions in the aggregations
    up to and including it. *)
Theorem aggregatedParse_lastIp (nodes : list Node) :
  exists result,
    aggregatedParseReductionTraceNodes parseBytecode
      authenticationInstructionsAreNotMalformed nodes = Some result
    /\ forall k aggregation,
         aggregations result !! k = Some aggregation ->
         lastIp aggregation = instructionCount (take (S k) (aggregations result)).
Proof.
  unfold aggregatedParseReductionTraceNodes.
  destruct (aggregatedParse_loop_lastIp nodes [] 0 None eq_refl)
    as (aggs & ip & incomplete & -> & _ & Hall).
  { intros k agg Hk. rewrite lookup_nil in Hk. discriminate. }
  cbn [mbind option_bind]. eexists. split; [reflexivity |]. exact Hall.
Qed.

Lemma evaluationPlan_fold (l : list InstructionAggregation) breakpoints instructions0 :
  fold_left
    (fun (plan : list (Z * Range) * list AuthenticationInstruction) aggregation =>
       (fst plan ++ [(lastIp aggregation, ag_range aggregation)],
        snd plan ++ instructions aggregation))
    l (breakpoints, instructions0)
  = (breakpoints ++ List.map (fun a => (lastIp a, ag_range a)) l,
     instructions0 ++ concat (List.map instructions l)).
Proof.
  revert breakpoints instructions0.
  induction l as [| a l IH]; intros breakpoints instructions0; cbn [fold_left].
  - cbn. rewrite !app_nil_r. reflexivity.
  - rewrite IH. cbn [fst snd List.map concat]. rewrite <- !app_assoc. reflexivity.
Qed.

(** X23: [evaluateInstructionAggregations] runs the virtual machine once, on
    the instructions of the non-empty aggregations in order, and returns
    one sample per non-empty aggregation, in order, with the range of the
    aggregation and the state found in the trace at [lastIp - 1]. *)
Theorem evaluateInstructionAggregations_samples aggs vm getState :
  let plan := nonEmptyAggregations aggs in
  let trace := stateDebug vm (getState (concat (List.map instructions plan))) in
  er_samples (evaluateInstructionAggregations aggs vm getState)
  = List.map (fun a => mkSample (ag_range a) (index trace (lastIp a - 1))) plan.
Proof.
  intros plan trace. unfold evaluateInstructionAggregations.
  fold (nonEmptyAggregations aggs). fold plan.
  rewrite evaluationPlan_fold. cbn [fst snd app]. fold trace.
  rewrite map_map. cbn [fst snd].
  destruct (match index _ _ with Some s => Some s | None => _ end); reflexivity.
Qed.

Lemma findIndex_undefined_app (valid : list (@EvaluationSample ProgramState))
    bad rest i :
  Forall (fun s => sample_state s <> None) valid ->
  sample_state bad = None ->
  findIndex_undefined (valid ++ bad :: rest) i = i + len valid.
Proof.
  intros Hvalid Hbad. revert i.
  induction Hvalid as [| s valid Hs _ IH]; intros i; cbn [app findIndex_undefined].
  - rewrite Hbad. unfold len. simpl. lia.
  - destruct (sample_state s); [| congruence].
    rewrite IH. unfold len. simpl length. lia.
Qed.

(** X24: The outcome of [evaluateInstructionAggregations]: success when every
    sample has a state; otherwise one error, which cites the last sample
    before the first one without a state, with the error of its state, or,
    when the very first sample has no state, cites that sample and says
    that no valid program state was produced. *)
Theorem evaluateInstructionAggregations_outcome aggs vm getState :
  let result := evaluateInstructionAggregations aggs vm getState in
  let samples := er_samples result in
  (Forall (fun s => sample_state s <> None) samples ->
   result = EvaluationSuccess samples)
  /\ (forall bad rest,
        samples = bad :: rest -> sample_state bad = None ->
        result = EvaluationError
                   [mkErrorInformation
                      "Failed to reduce evaluation: vm.debug produced no valid program states."
                      (sample_range bad)]
                   samples)
  /\ (forall valid good state bad rest,
        samples = valid ++ good :: bad :: rest ->
        Forall (fun s => sample_state s <> None) valid ->
        sample_state good = Some state ->
        sample_state bad = None ->
        result = EvaluationError
                   [mkErrorInformation
                      ("Failed to reduce evaluation: " ++ showError (stateError state))%string
                      (sample_range good)]
                   samples).
Proof.
  intros result samples.
  unfold samples, result, evaluateInstructionAggregations.
  set (all := List.map _ (fst _)).
  set (errorSample := match index all _ with Some s => Some s | None => _ end).
  match goal with
  | |- context [er_samples ?r] =>
      assert (Hs : er_samples r = all) by (clearbody errorSample; destruct errorSample; reflexivity)
  end.
  rewrite !Hs. clear Hs. subst errorSample. clearbody all.
  split; [| split].
  - intros Hall.
    destruct (findIndex_undefined_spec all 0) as [[E _] | (j & s & _ & Hj & Hs)].
    + rewrite E, !index_negative by lia. reflexivity.
    + rewrite List.Forall_forall in Hall. exfalso.
      apply (Hall s); [| exact Hs].
      apply list_elem_of_In. apply (list_elem_of_lookup_2 _ _ _ Hj).
  - intros bad rest -> Hbad.
    cbn [findIndex_undefined]. rewrite Hbad.
    rewrite index_negative by lia.
    change (index (bad :: rest) 0) with (Some bad). cbv beta iota.
    rewrite Hbad. reflexivity.
  - intros valid good state bad rest -> Hvalid Hgood Hbad.
    replace (valid ++ good :: bad :: rest) with ((valid ++ [good]) ++ bad :: rest)
      by (rewrite <- app_assoc; reflexivity).
    rewrite findIndex_undefined_app; [| | exact Hbad].
    2:{ apply Forall_app. split; [exact Hvalid |].
        constructor; [congruence | constructor]. }
    assert (Hidx : index ((valid ++ [good]) ++ bad :: rest) (0 + len (valid ++ [good]) - 1)
                   = Some good).
    { unfold len. rewrite length_app. simpl length.
      replace (0 + Z.of_nat (length valid + 1) - 1) with (Z.of_nat (length valid)) by lia.
      rewrite index_nat, <- app_assoc. cbn [app].
      rewrite lookup_app_r by lia. rewrite Nat.sub_diag. reflexivity. }
    rewrite Hidx. cbv beta iota. rewrite Hgood. reflexivity.
Qed.

(** X25: Sampled evaluation of nodes without bytecode, when the parser reads
    no instruction from no bytes: no instruction is aggregated, the one
    sample is the state [getState([])] at the range of the first node, and
    the result is the top of its stack, or empty. *)
Theorem sampledEvaluate_without_bytecode (first : Node) rest vm getState :
  parseBytecode [] = [] ->
  Forall (fun n => bytecode n = []) (first :: rest) ->
  sampledEvaluate' (first :: rest) vm getState
  = Some (mkSampled (default [] (topStackItem (stack (getState [])))) None
            [mkSample (range first) (Some (getState []))]).
Proof.
  intros Hparse Hall.
  assert (Hloop : forall (nodes : list Node) aggs ip,
    Forall (fun n => bytecode n = []) nodes ->
    aggregatedParse_loop parseBytecode authenticationInstructionsAreNotMalformed
      nodes aggs ip None
    = Some (aggs ++ List.map (fun n => mkAggregation [] ip (range n)) nodes, ip, None)).
  { intros nodes. induction nodes as [| n nodes IH]; intros aggs ip Hnodes.
    - cbn. rewrite app_nil_r. reflexivity.
    - inversion Hnodes as [| ? ? Hn Hrest]; subst.
      cbn [aggregatedParse_loop mbind option_bind]. rewrite Hn, Hparse.
      change (len [] =? 0) with true. cbv iota.
      rewrite (IH _ _ Hrest), <- app_assoc. reflexivity. }
  unfold sampledEvaluateReductionTraceNodes, aggregatedParseReductionTraceNodes.
  rewrite (Hloop _ [] 0 Hall). cbn [mbind option_bind app aggregations List.map].
  unfold ar_success. cbn [remaining andb].
  assert (Hev : forall aggs : list InstructionAggregation,
    Forall (fun a => instructions a = []) aggs ->
    evaluateInstructionAggregations aggs vm getState = EvaluationSuccess []).
  { intros aggs Haggs. unfold evaluateInstructionAggregations.
    assert (Hfilter : List.filter (fun a => len (instructions a) >? 0) aggs = []).
    { induction Haggs as [| a l Ha _ IH]; [reflexivity |].
      cbn [List.filter]. rewrite Ha. exact IH. }
    rewrite Hfilter. reflexivity. }
  rewrite Hev.
  2:{ constructor; [reflexivity |]. apply List.Forall_forall.
      intros a Ha. apply in_map_iff in Ha as (n & <- & _). reflexivity. }
  cbn [er_success er_samples].
  change (len [] >? 0) with false. cbv iota.
  change (index (_ :: _) 0) with (Some (mkAggregation [] 0 (range first))).
  cbn [mbind option_bind ag_range].
  change (index [?s] (len [?s] - 1)) with (Some s).
  cbn [mbind option_bind sample_state].
  rewrite index_last. unfold topStackItem.
  destruct (last (stack (getState []))); reflexivity.
Qed.
End ReduceFacts.

(** ** The push encoding *)

Section PushEncodingFacts.
Import Ranges Instructions Collaborators Vocabulary.

Lemma byteToZ_bounds b : 0 <= byteToZ b < 256.
Proof. exact (byteToZ_range b). Qed.

Lemma byteOfZ_byteToZ b : byteOfZ (byteToZ b) = b.
Proof. exact (toUint8_byteToZ b). Qed.

Lemma byteOfZ_mod z : byteOfZ z = byteOfZ (z mod 256).
Proof. unfold byteOfZ. rewrite Z.mod_mod by lia. reflexivity. Qed.

Lemma byteToZ_byteOfZ z : byteToZ (byteOfZ z) = z mod 256.
Proof.
  rewrite byteOfZ_mod. apply (byteToZ_toUint8 (z mod 256)).
  change (2 ^ 8) with 256. apply Z.mod_pos_bound. lia.
Qed.

Lemma byteToZ_byteOfZ_small z : 0 <= z < 256 -> byteToZ (byteOfZ z) = z.
Proof. intros Hz. rewrite byteToZ_byteOfZ. apply Z.mod_small. exact Hz. Qed.

Lemma byteOfZ_eq op z : byteToZ op = z -> op = byteOfZ z.
Proof. intros <-. symmetry. apply byteOfZ_byteToZ. Qed.

Lemma length_littleEndian width n : length (littleEndian width n) = width.
Proof.
  revert n. induction width as [| width IH]; intros n; [reflexivity |].
  cbn [littleEndian length]. rewrite IH. reflexivity.
Qed.

Lemma fromLittleEndian_littleEndian width n :
  fromLittleEndian (littleEndian width n) = n mod 256 ^ Z.of_nat width.
Proof.
  revert n. induction width as [| width IH]; intros n.
  - cbn [littleEndian fromLittleEndian]. change (256 ^ Z.of_nat 0) with 1.
    rewrite Z.mod_1_r. reflexivity.
  - cbn [littleEndian fromLittleEndian].
    rewrite IH, byteToZ_byteOfZ, Nat2Z.inj_succ, Z.pow_succ_r by lia.
    symmetry. apply Z.rem_mul_r; [lia |]. apply Z.pow_pos_nonneg; lia.
Qed.

Lemma fromLittleEndian_bounds l :
  0 <= fromLittleEndian l < 256 ^ Z.of_nat (length l).
Proof.
  induction l as [| x rest IH].
  - cbn. lia.
  - cbn [fromLittleEndian length]. rewrite Nat2Z.inj_succ, Z.pow_succ_r by lia.
    pose proof (byteToZ_bounds x). lia.
Qed.

Lemma littleEndian_fromLittleEndian l :
  littleEndian (length l) (fromLittleEndian l) = l.
Proof.
  induction l as [| x rest IH]; [reflexivity |].
  cbn [length littleEndian fromLittleEndian].
  pose proof (byteToZ_bounds x) as Hx.
  assert (Hlow : byteOfZ (byteToZ x + 256 * fromLittleEndian rest) = x).
  { rewrite byteOfZ_mod.
    replace (byteToZ x + 256 * fromLittleEndian rest)
      with (byteToZ x + fromLittleEndian rest * 256) by lia.
    rewrite Z.mod_add, Z.mod_small by lia. apply byteOfZ_byteToZ. }
  assert (Hhigh : (byteToZ x + 256 * fromLittleEndian rest) / 256
                  = fromLittleEndian rest).
  { replace (byteToZ x + 256 * fromLittleEndian rest)
      with (byteToZ x + fromLittleEndian rest * 256) by lia.
    rewrite Z.div_add, Z.div_small by lia. lia. }
  rewrite Hlow, Hhigh, IH. reflexivity.
Qed.

Lemma parseBytecode_walk_nil fuel : parseBytecode_walk fuel [] = [].
Proof. destruct fuel; reflexivity. Qed.

Lemma parseBytecode_walk_cons fuel op rest :
  parseBytecode_walk (S fuel) (op :: rest) <> [].
Proof.
  cbn [parseBytecode_walk].
  destruct (byteToZ op >? 78); [discriminate |].
  destruct (_ >? len rest); [discriminate |].
  unfold readPush. destruct (_ <=? _); discriminate.
Qed.

(** One push, from its opcode to the end of its payload, is parsed as one
    well-formed instruction that carries the payload. *)
Lemma parseBytecode_push op rest :
  byteToZ op <= 78 ->
  (lengthBytesOf (byteToZ op) <= length rest)%nat ->
  declaredLength (byteToZ op) rest
  = len (drop (lengthBytesOf (byteToZ op)) rest) ->
  parseBytecode (op :: rest)
  = [mkInstruction op (Some (drop (lengthBytesOf (byteToZ op)) rest)) false].
Proof.
  intros Hop Hlength Hdeclared.
  unfold parseBytecode. cbn [length parseBytecode_walk].
  fold (lengthBytesOf (byteToZ op)). fold (declaredLength (byteToZ op) rest).
  destruct (Z.gtb_spec (byteToZ op) 78) as [Hgt | _]; [lia |].
  destruct (Z.gtb_spec (Z.of_nat (lengthBytesOf (byteToZ op))) (len rest))
    as [Hgt | _]; [unfold len in Hgt; lia |].
  unfold readPush. rewrite Hdeclared.
  rewrite Z.leb_refl. unfold len. rewrite Nat2Z.id.
  rewrite firstn_all, drop_all, parseBytecode_walk_nil. reflexivity.
Qed.

(** Conversely, a byte string that is parsed as one well-formed
    instruction is one opcode without payload, or one push, from its
    opcode to the end of its payload. *)
Lemma parseBytecode_single encoding instruction :
  parseBytecode encoding = [instruction] ->
  malformed instruction = false ->
  exists op rest,
    encoding = op :: rest
    /\ ((78 < byteToZ op /\ rest = []
         /\ instruction = mkInstruction op None false)
        \/ (byteToZ op <= 78
            /\ (lengthBytesOf (byteToZ op) <= length rest)%nat
            /\ declaredLength (byteToZ op) rest
               = len (drop (lengthBytesOf (byteToZ op)) rest)
            /\ instruction
               = mkInstruction op
                   (Some (drop (lengthBytesOf (byteToZ op)) rest)) false)).
Proof.
  destruct encoding as [| op rest]; [discriminate |].
  unfold parseBytecode. cbn [length parseBytecode_walk].
  fold (lengthBytesOf (byteToZ op)). fold (declaredLength (byteToZ op) rest).
  intros Hparse Hwell. exists op, rest. split; [reflexivity |].
  assert (Hend : forall tail,
            (length tail <= length rest)%nat ->
            parseBytecode_walk (length rest) tail = [] -> tail = []).
  { intros [| t tail] Htail Hwalk; [reflexivity |].
    destruct (length rest) as [| fuel] eqn:Efuel; [simpl in Htail; lia |].
    elim (parseBytecode_walk_cons fuel t tail Hwalk). }
  destruct (Z.gtb_spec (byteToZ op) 78) as [Hgt | Hle].
  - left. injection Hparse as <- Hwalk.
    split; [lia |]. split; [| reflexivity].
    apply Hend; [lia | exact Hwalk].
  - right. split; [exact Hle |].
    destruct (Z.gtb_spec (Z.of_nat (lengthBytesOf (byteToZ op))) (len rest))
      as [Hgt | Hfits].
    { injection Hparse as <-. discriminate. }
    unfold len in Hfits. split; [lia |].
    unfold readPush in Hparse.
    set (tail := drop (lengthBytesOf (byteToZ op)) rest) in *.
    destruct (Z.leb_spec (declaredLength (byteToZ op) rest) (len tail))
      as [Hdeclared | Hshort].
    + injection Hparse as <- Hwalk.
      assert (Htail : (length tail <= length rest)%nat).
      { unfold tail. rewrite length_drop. lia. }
      assert (Hnonneg : 0 <= declaredLength (byteToZ op) rest).
      { unfold declaredLength. destruct (byteToZ op <? 76).
        - pose proof (byteToZ_bounds op). lia.
        - apply fromLittleEndian_bounds. }
      apply Hend in Hwalk; [| rewrite length_drop; lia].
      assert (Hall : (length tail <= Z.to_nat (declaredLength (byteToZ op) rest))%nat).
      { apply (f_equal length) in Hwalk. rewrite length_drop in Hwalk.
        simpl in Hwalk. lia. }
      assert (Heq : declaredLength (byteToZ op) rest = len tail).
      { unfold len in *. lia. }
      split; [exact Heq |].
      rewrite Heq. unfold len. rewrite Nat2Z.id, firstn_all. reflexivity.
    + injection Hparse as <-. discriminate.
Qed.

(** The cases of the push encoding, by the length of the payload. *)
Lemma encodeDataPush_cases payload :
  (payload = [] /\ encodeDataPush payload = [byteOfZ 0])
  \/ (exists x, payload = [x] /\ 1 <= byteToZ x <= 16
               /\ encodeDataPush payload = [byteOfZ (80 + byteToZ x)])
  \/ (payload = [byteOfZ 129] /\ encodeDataPush payload = [byteOfZ 79])
  \/ (1 <= len payload <= 75
      /\ (forall x, payload = [x] ->
            ~ 1 <= byteToZ x <= 16 /\ byteToZ x <> 129)
      /\ encodeDataPush payload = byteOfZ (len payload) :: payload)
  \/ (76 <= len payload <= 255
      /\ encodeDataPush payload
         = byteOfZ 76 :: littleEndian 1 (len payload) ++ payload)
  \/ (256 <= len payload <= 65535
      /\ encodeDataPush payload
         = byteOfZ 77 :: littleEndian 2 (len payload) ++ payload)
  \/ (65536 <= len payload
      /\ encodeDataPush payload
         = byteOfZ 78 :: littleEndian 4 (len payload) ++ payload).
Proof.
  destruct payload as [| x [| y rest]].
  - left. split; reflexivity.
  - cbn [encodeDataPush].
    destruct ((1 <=? byteToZ x) && (byteToZ x <=? 16)) eqn:Enumber.
    { apply andb_prop in Enumber as [Hlow Hhigh].
      apply Z.leb_le in Hlow, Hhigh.
      right. left. exists x. repeat split; assumption. }
    assert (Hnumber : ~ 1 <= byteToZ x <= 16).
    { intros [Hlow Hhigh]. apply Z.leb_le in Hlow, Hhigh.
      rewrite Hlow, Hhigh in Enumber. discriminate. }
    destruct (Z.eqb_spec (byteToZ x) 129) as [E129 | N129].
    { right. right. left. split; [| reflexivity].
      f_equal. apply byteOfZ_eq. exact E129. }
    right. right. right. left. split; [unfold len; simpl; lia |].
    split; [| reflexivity]. intros x' E. injection E as <-. auto.
  - set (payload := x :: y :: rest).
    assert (Hlen : 2 <= len payload).
    { unfold payload, len. simpl length. lia. }
    assert (E : encodeDataPush payload
                = if len payload <=? 75 then byteOfZ (len payload) :: payload
                  else if len payload <=? 255
                       then byteOfZ 76 :: littleEndian 1 (len payload) ++ payload
                       else if len payload <=? 65535
                            then byteOfZ 77 :: littleEndian 2 (len payload) ++ payload
                            else byteOfZ 78 :: littleEndian 4 (len payload) ++ payload)
      by reflexivity.
    rewrite E. clear E.
    destruct (Z.leb_spec (len payload) 75).
    { right. right. right. left. split; [lia |]. split; [| reflexivity].
      intros x' E. discriminate E. }
    destruct (Z.leb_spec (len payload) 255).
    { right. right. right. right. left. split; [lia | reflexivity]. }
    destruct (Z.leb_spec (len payload) 65535).
    { right. right. right. right. right. left. split; [lia | reflexivity]. }
    right. right. right. right. right. right. split; [lia | reflexivity].
Qed.

Lemma pushedItem_data op payload :
  pushedItem (mkInstruction op (Some payload) false) = Some payload.
Proof. reflexivity. Qed.

(** A push with [width] length bytes, [1], [2] or [4], pushes exactly its
    payload. *)
Lemma pushData_pushes (o : Z) (width : nat) payload :
  76 <= o <= 78 ->
  lengthBytesOf o = width ->
  len payload < 256 ^ Z.of_nat width ->
  PushesExactly payload
    (byteOfZ o :: littleEndian width (len payload) ++ payload).
Proof.
  intros Ho Hwidth Hpayload.
  assert (Hop : byteToZ (byteOfZ o) = o) by (apply byteToZ_byteOfZ_small; lia).
  assert (Htake : take width (littleEndian width (len payload) ++ payload)
                  = littleEndian width (len payload)).
  { rewrite take_app_length'; [reflexivity | symmetry; apply length_littleEndian]. }
  assert (Hdrop : drop width (littleEndian width (len payload) ++ payload)
                  = payload).
  { rewrite drop_app_length'; [reflexivity | symmetry; apply length_littleEndian]. }
  eexists. split; [| split; [| apply pushedItem_data]].
  - rewrite (parseBytecode_push (byteOfZ o)
               (littleEndian width (len payload) ++ payload)).
    + rewrite Hop, Hwidth, Hdrop. reflexivity.
    + lia.
    + rewrite Hop, Hwidth, length_app, length_littleEndian. lia.
    + rewrite Hop. unfold declaredLength.
      destruct (Z.ltb_spec o 76); [lia |].
      rewrite Hwidth, Htake, Hdrop, fromLittleEndian_littleEndian.
      apply Z.mod_small. unfold len in *. lia.
  - reflexivity.
Qed.

(** The push encoding pushes exactly its payload. *)
Lemma encodeDataPush_pushes payload :
  len payload < 2 ^ 32 -> PushesExactly payload (encodeDataPush payload).
Proof.
  intros Hsize.
  destruct (encodeDataPush_cases payload)
    as [[-> ->] | [(x & -> & Hx & ->) | [[-> ->] | [(Hlen & _ & ->)
        | [(Hlen & ->) | [(Hlen & ->) | (Hlen & ->)]]]]]].
  - eexists. split; [reflexivity |]. split; reflexivity.
  - eexists. split; [| split].
    + unfold parseBytecode. cbn [length parseBytecode_walk].
      rewrite byteToZ_byteOfZ_small by lia.
      destruct (Z.gtb_spec (80 + byteToZ x) 78); [reflexivity | lia].
    + reflexivity.
    + unfold pushedItem. cbn [data opcode].
      rewrite byteToZ_byteOfZ_small by lia.
      destruct (Z.leb_spec 81 (80 + byteToZ x)); [| lia].
      destruct (Z.leb_spec (80 + byteToZ x) 96); [| lia].
      cbn [andb]. replace (80 + byteToZ x - 80) with (byteToZ x) by lia.
      rewrite byteOfZ_byteToZ. reflexivity.
  - eexists. split; [reflexivity |]. split; reflexivity.
  - assert (Hop : byteToZ (byteOfZ (len payload)) = len payload)
      by (apply byteToZ_byteOfZ_small; lia).
    assert (Hwidth : lengthBytesOf (len payload) = 0%nat).
    { unfold lengthBytesOf. destruct (Z.ltb_spec (len payload) 76); [reflexivity | lia]. }
    eexists. split; [| split; [| apply pushedItem_data]].
    + rewrite (parseBytecode_push (byteOfZ (len payload)) payload).
      * rewrite Hop, Hwidth. reflexivity.
      * lia.
      * rewrite Hop, Hwidth. lia.
      * rewrite Hop, Hwidth. unfold declaredLength.
        destruct (Z.ltb_spec (len payload) 76); [reflexivity | lia].
    + reflexivity.
  - apply (pushData_pushes 76 1 payload); [lia | reflexivity |].
    change (256 ^ Z.of_nat 1) with 256. lia.
  - apply (pushData_pushes 77 2 payload); [lia | reflexivity |].
    change (256 ^ Z.of_nat 2) with 65536. lia.
  - apply (pushData_pushes 78 4 payload); [lia | reflexivity |].
    change (256 ^ Z.of_nat 4) with (2 ^ 32). exact Hsize.
Qed.

Lemma len_cons {A : Type} (x : A) l : len (x :: l) = 1 + len l.
Proof. unfold len. simpl length. lia. Qed.

Lemma len_app {A : Type} (l k : list A) : len (l ++ k) = len l + len k.
Proof. unfold len. rewrite length_app. lia. Qed.

Lemma len_littleEndian width n : len (littleEndian width n) = Z.of_nat width.
Proof. unfold len. rewrite length_littleEndian. reflexivity. Qed.

(** Every byte string that pushes exactly [payload] is longer than the
    push encoding of [payload], or is that encoding. *)
Lemma encodeDataPush_shortest payload other :
  PushesExactly payload other ->
  len (encodeDataPush payload) < len other \/ other = encodeDataPush payload.
Proof.
  intros (instruction & Hparse & Hwell & Hpushed).
  destruct (parseBytecode_single other instruction Hparse Hwell)
    as (op & rest & -> & [(Hop & -> & ->) | (Hop & Hfits & Hdeclared & ->)]).
  - (* one opcode without payload: [OP_1] to [OP_16], or [OP_1NEGATE] *)
    right. unfold pushedItem in Hpushed. cbn [data opcode] in Hpushed.
    assert (Hnumber : (81 <= byteToZ op <= 96
                       /\ payload = [byteOfZ (byteToZ op - 80)])
                      \/ (byteToZ op = 79 /\ payload = [byteOfZ 129])).
    { destruct ((81 <=? byteToZ op) && (byteToZ op <=? 96)) eqn:Enumber.
      - apply andb_prop in Enumber as [Hlow Hhigh].
        apply Z.leb_le in Hlow, Hhigh.
        left. injection Hpushed as <-. split; [lia | reflexivity].
      - destruct (Z.eqb_spec (byteToZ op) 79) as [E79 | N79]; [| discriminate].
        right. injection Hpushed as <-. split; [exact E79 | reflexivity]. }
    destruct Hnumber as [[Hrange ->] | [E79 ->]].
    + cbn [encodeDataPush].
      rewrite byteToZ_byteOfZ_small by lia.
      destruct (Z.leb_spec 1 (byteToZ op - 80)); [| lia].
      destruct (Z.leb_spec (byteToZ op - 80) 16); [| lia].
      cbn [andb]. f_equal. apply byteOfZ_eq. lia.
    + change (encodeDataPush [byteOfZ 129]) with [byteOfZ 79].
      f_equal. apply byteOfZ_eq. exact E79.
  - (* one push *)
    rewrite pushedItem_data in Hpushed. injection Hpushed as Hpayload.
    set (width := lengthBytesOf (byteToZ op)) in *.
    assert (Hrest : rest = take width rest ++ payload).
    { rewrite <- Hpayload. symmetry. apply take_drop. }
    assert (Hwidth : length (take width rest) = width).
    { rewrite length_take. lia. }
    assert (Hother : len (op :: rest) = 1 + Z.of_nat width + len payload).
    { rewrite len_cons, Hrest, len_app. unfold len at 1. rewrite Hwidth. lia. }
    rewrite Hpayload in Hdeclared.
    pose proof (byteToZ_bounds op) as Hbyte.
    pose proof (fromLittleEndian_bounds (take width rest)) as Hle.
    rewrite Hwidth in Hle.
    assert (Hlength : len payload
                      = if byteToZ op <? 76 then byteToZ op
                        else fromLittleEndian (take width rest))
      by (rewrite <- Hdeclared; reflexivity).
    assert (Hclass :
      (byteToZ op < 76 /\ width = 0%nat /\ rest = payload)
      \/ (76 <= byteToZ op /\ (1 <= width)%nat
          /\ len payload < 256 ^ Z.of_nat width
          /\ rest = littleEndian width (len payload) ++ payload
          /\ ((byteToZ op = 76 /\ width = 1%nat)
              \/ (byteToZ op = 77 /\ width = 2%nat)
              \/ (byteToZ op = 78 /\ width = 4%nat)))).
    { destruct (Z.ltb_spec (byteToZ op) 76) as [H76 | H76].
      - left. split; [exact H76 |].
        assert (Hw : width = 0%nat).
        { unfold width, lengthBytesOf.
          destruct (Z.ltb_spec (byteToZ op) 76); [reflexivity | lia]. }
        split; [exact Hw |]. rewrite Hw in Hrest. exact Hrest.
      - right. split; [exact H76 |].
        pose proof (littleEndian_fromLittleEndian (take width rest)) as E.
        rewrite Hwidth, <- Hlength in E. rewrite <- E in Hrest.
        assert (Hw : (byteToZ op = 76 /\ width = 1%nat)
                     \/ (byteToZ op = 77 /\ width = 2%nat)
                     \/ (byteToZ op = 78 /\ width = 4%nat)).
        { unfold width, lengthBytesOf.
          destruct (Z.ltb_spec (byteToZ op) 76); [lia |].
          destruct (Z.eqb_spec (byteToZ op) 76); [left; split; [lia | reflexivity] |].
          destruct (Z.eqb_spec (byteToZ op) 77);
            [right; left; split; [lia | reflexivity] |].
          right. right. split; [lia | reflexivity]. }
        split; [destruct Hw as [[_ ->] | [[_ ->] | [_ ->]]]; lia |].
        split; [rewrite Hlength; apply Hle |].
        split; [exact Hrest | exact Hw]. }
    assert (Hnil : len (@nil byte) = 0) by reflexivity.
    destruct Hclass as [(Ho & Hw & Erest)
                       | (Ho & Hw & Hbound & Erest & Hop')].
    + (* no length byte: up to 75 bytes under [OP_PUSHBYTES] *)
      rewrite Hw in Hother.
      destruct (Z.ltb_spec (byteToZ op) 76) as [_ | Hge]; [| lia].
      destruct (encodeDataPush_cases payload)
        as [[-> ->] | [(x & -> & Hx & ->) | [[-> ->] | [(Hlen & Hnumber & ->)
            | [(Hlen & ->) | [(Hlen & ->) | (Hlen & ->)]]]]]];
        rewrite Hother, ?len_cons, ?len_app, ?len_littleEndian, ?Hnil;
        try (left; lia); right; rewrite Erest; f_equal; apply byteOfZ_eq; lia.
    + (* length bytes: [OP_PUSHDATA1], [2] or [4] *)
      destruct (Z.ltb_spec (byteToZ op) 76) as [H76 | _]; [lia |].
      destruct (encodeDataPush_cases payload)
        as [[-> ->] | [(x & -> & Hx & ->) | [[-> ->] | [(Hlen & Hnumber & ->)
            | [(Hlen & ->) | [(Hlen & ->) | (Hlen & ->)]]]]]];
        rewrite Hother, ?len_cons, ?len_app, ?len_littleEndian, ?Hnil;
        destruct Hop' as [[Eop Ew] | [[Eop Ew] | [Eop Ew]]];
        rewrite Ew in *;
        try (left; lia);
        try (change (256 ^ Z.of_nat 1) with 256 in Hbound;
             change (256 ^ Z.of_nat 2) with 65536 in Hbound;
             left; lia);
        right; rewrite Erest; f_equal; apply byteOfZ_eq; lia.
Qed.

(** The push encoding is the minimal push encoding. *)
Lemma encodeDataPush_minimal payload :
  len payload < 2 ^ 32 -> MinimalPushEncoding payload (encodeDataPush payload).
Proof.
  intros Hsize. split.
  - apply encodeDataPush_pushes. exact Hsize.
  - intros other. apply encodeDataPush_shortest.
Qed.

End PushEncodingFacts.

(** ** Reduction with the modelled push encoding *)

Section ReducePushFacts.
Import Ranges Instructions Reduce Vocabulary.

Context {ProgramState : Type} `{StackState ProgramState}.
Variable parseBytecode : bytes -> list AuthenticationInstruction.
Variable authenticationInstructionsAreNotMalformed :
  list AuthenticationInstruction -> bool.
Variable disassembleBytecode : bytes -> string.

Abbreviation reduceSegmentP :=
  (reduceSegment (ProgramState := ProgramState) parseBytecode
     authenticationInstructionsAreNotMalformed disassembleBytecode
     Collaborators.encodeDataPush).
Abbreviation reduceScriptP :=
  (reduceScript (ProgramState := ProgramState) parseBytecode
     authenticationInstructionsAreNotMalformed disassembleBytecode
     Collaborators.encodeDataPush).

(** C7 (as amended): on every non-empty resolved script [reduceScript]
    returns a node whose children are the reductions of the segments in
    order, whose bytecode is the in-order concatenation of the children's
    bytecode, whose range is the merge of the children's ranges (which are
    the segments' ranges), and whose errors are the in-order concatenation
    of the children's errors when any child has errors; the bytecode of a
    Push segment with a non-empty value is [encodeDataPush] applied to the
    bytecode of the reduced value, the minimal push encoding (for a
    payload below [2 ^ 32] bytes: the one byte string, shorter than every
    other, that the parser reads as one well-formed instruction that
    pushes the payload); and a Push segment with an empty value reduces to
    empty bytecode. *)
Theorem reduceScript_concatenates vm createState script :
  script <> [] ->
  (exists children node,
     reduceScriptP script vm createState = Some node
     /\ Forall2 (fun s n => reduceSegmentP vm createState s = Some n)
          script children
     /\ source node = Some children
     /\ bytecode node = flattenBinArray (List.map bytecode children)
     /\ List.map range children = List.map segmentRange script
     /\ mergeRanges (List.map range children) = Some (range node)
     /\ errors node = childErrors children)
  /\ (forall pushRange,
        exists push pushNode,
          reduceScriptP script vm createState = Some push
          /\ reduceSegmentP vm createState (SegmentPush pushRange script)
             = Some pushNode
          /\ bytecode pushNode = Collaborators.encodeDataPush (bytecode push)
          /\ (len (bytecode push) < 2 ^ 32 ->
              MinimalPushEncoding (bytecode push) (bytecode pushNode))
          /\ range pushNode = pushRange
          /\ errors pushNode = errors push)
  /\ (forall pushRange,
        reduceSegmentP vm createState (SegmentPush pushRange [])
        = Some (emptyReductionTraceNode pushRange)).
Proof.
  intros Hne.
  destruct (reduceScript_of_segments parseBytecode
              authenticationInstructionsAreNotMalformed disassembleBytecode
              Collaborators.encodeDataPush vm createState script Hne)
    as (Hnode & Hpush & Hempty).
  split; [exact Hnode |]. split; [| exact Hempty].
  intros pushRange.
  destruct (Hpush pushRange) as (push & pushNode & Er & Es & Eb & Erange & Ee).
  exists push, pushNode. repeat split; try assumption.
  - rewrite Eb. apply encodeDataPush_minimal. assumption.
  - rewrite Eb. intros other. apply encodeDataPush_shortest.
Qed.

End ReducePushFacts.

(** ** Compiling scripts that refer to each other *)

Section CompileFacts.
Import Ranges Instructions Reduce Resolve Vocabulary.

Context {Operation CompilationData ProgramState : Type}
        `{StackState ProgramState}.
Variable applyOperation :
  Operation -> string -> CompilationData -> CompilationEnvironment Operation ->
  bytes + string.
Variable bigIntToScriptNumber : Z -> bytes.
Variable hexToBin : string -> bytes.
Variable utf8ToBin : string -> bytes.
Variable parseBytecode : bytes -> list AuthenticationInstruction.
Variable authenticationInstructionsAreNotMalformed :
  list AuthenticationInstruction -> bool.
Variable disassembleBytecode : bytes -> string.
Variable encodeDataPush : bytes -> bytes.
Variable parseScript : string -> BtlScriptSegment + list ErrorInformation.
Variable vm : option (AuthenticationVirtualMachine ProgramState).
Variable createState : option (list AuthenticationInstruction -> ProgramState).

Abbreviation compileHere :=
  (Compile.compileScript applyOperation bigIntToScriptNumber hexToBin utf8ToBin
     parseBytecode authenticationInstructionsAreNotMalformed
     disassembleBytecode encodeDataPush parseScript vm createState).
Abbreviation resolveChildHere :=
  (resolveChild bigIntToScriptNumber hexToBin utf8ToBin).
Abbreviation resolveScriptSegmentHere :=
  (resolveScriptSegment bigIntToScriptNumber hexToBin utf8ToBin).
Abbreviation reduceSegmentC :=
  (reduceSegment (ProgramState := ProgramState) parseBytecode
     authenticationInstructionsAreNotMalformed disassembleBytecode
     encodeDataPush).
Abbreviation reduceScriptC :=
  (reduceScript (ProgramState := ProgramState) parseBytecode
     authenticationInstructionsAreNotMalformed disassembleBytecode
     encodeDataPush).

(** Induction on parse trees that reaches into pushes and evaluations. *)
Lemma BtlChild_nested_ind (P : BtlChild -> Prop) :
  (forall mark value, P (Identifier mark value)) ->
  (forall mark segmentMark value, Forall P value -> P (Push mark segmentMark value)) ->
  (forall mark segmentMark value, Forall P value ->
     P (Evaluation mark segmentMark value)) ->
  (forall mark value, P (BigIntLiteralNode mark value)) ->
  (forall mark value, P (HexLiteralNode mark value)) ->
  (forall mark value, P (UTF8LiteralNode mark value)) ->
  (forall mark value, P (CommentNode mark value)) ->
  (forall mark name, P (UnrecognizedNode mark name)) ->
  forall child, P child.
Proof.
  intros Hid Hpush Heval Hbig Hhex Hutf Hcom Hun.
  fix self 1. intros [mark value | mark sm value | mark sm value | | | | |].
  - apply Hid.
  - apply Hpush. induction value as [| c rest IH]; constructor; [apply self | exact IH].
  - apply Heval. induction value as [| c rest IH]; constructor; [apply self | exact IH].
  - apply Hbig.
  - apply Hhex.
  - apply Hutf.
  - apply Hcom.
  - apply Hun.
Qed.

Lemma occursInAll_eq identifier l :
  (fix occursInAll (l : list BtlChild) : bool :=
     match l with
     | [] => false
     | c :: rest => occursIn identifier c || occursInAll rest
     end) l
  = existsb (occursIn identifier) l.
Proof. induction l as [| c rest IH]; [reflexivity |]. cbn. rewrite IH. reflexivity. Qed.

Lemma resolveAll_eq resolveIdentifiers l :
  (fix resolveAll (l : list BtlChild) : list ResolvedSegment :=
     match l with
     | [] => []
     | c :: rest => resolveChildHere resolveIdentifiers c :: resolveAll rest
     end) l
  = List.map (resolveChildHere resolveIdentifiers) l.
Proof. induction l as [| c rest IH]; [reflexivity |]. cbn. rewrite IH. reflexivity. Qed.

(** The nested resolution of a push or an evaluation is
    [resolveScriptSegment] on its inner segment. *)
Lemma resolveChild_push resolveIdentifiers mark segmentMark value :
  resolveChildHere resolveIdentifiers (Push mark segmentMark value)
  = SegmentPush (pluckRange mark)
      (resolveScriptSegmentHere (mkSegment segmentMark value) resolveIdentifiers).
Proof.
  cbn [resolveChild]. unfold resolveScriptSegment. cbn [segment_value segment_mark].
  rewrite resolveAll_eq. reflexivity.
Qed.

Lemma resolveChild_evaluation resolveIdentifiers mark segmentMark value :
  resolveChildHere resolveIdentifiers (Evaluation mark segmentMark value)
  = SegmentEvaluation (pluckRange mark)
      (resolveScriptSegmentHere (mkSegment segmentMark value) resolveIdentifiers).
Proof.
  cbn [resolveChild]. unfold resolveScriptSegment. cbn [segment_value segment_mark].
  rewrite resolveAll_eq. reflexivity.
Qed.



(** A segment in which an identifier occurs that the resolver rejects is
    resolved to a script that holds an error. *)
Lemma resolveScriptSegment_holdsError resolveIdentifiers identifier segment :
  status (resolveIdentifiers identifier) = false ->
  Forall (fun child =>
            occursIn identifier child = true ->
            holdsError (resolveChildHere resolveIdentifiers child) = true)
         (segment_value segment) ->
  existsb (occursIn identifier) (segment_value segment) = true ->
  existsb holdsError (resolveScriptSegmentHere segment resolveIdentifiers) = true.
Proof.
  intros Hstatus Hall Hoccurs. unfold resolveScriptSegment.
  assert (Hmapped :
    existsb holdsError
      (List.map (resolveChildHere resolveIdentifiers) (segment_value segment))
    = true).
  { induction Hall as [| c rest Hc _ IH]; [discriminate |].
    cbn [existsb List.map] in *.
    apply orb_prop in Hoccurs as [Hhere | Hthere].
    - rewrite (Hc Hhere). reflexivity.
    - rewrite (IH Hthere). apply orb_true_r. }
  destruct (segment_value segment) as [| c rest]; [discriminate |].
  cbn [List.map] in *. rewrite len_cons_nonzero. exact Hmapped.
Qed.

Lemma resolveChild_holdsError resolveIdentifiers identifier child :
  status (resolveIdentifiers identifier) = false ->
  occursIn identifier child = true ->
  holdsError (resolveChildHere resolveIdentifiers child) = true.
Proof.
  intros Hstatus.
  induction child as [mark value | mark sm value IH | mark sm value IH | | | | |]
    using BtlChild_nested_ind; try discriminate.
  - cbn [occursIn resolveChild]. intros Heq. apply String.eqb_eq in Heq. subst value.
    destruct (resolveIdentifiers identifier) as [b t src | e t sid];
      [discriminate | reflexivity].
  - cbn [occursIn]. rewrite occursInAll_eq, resolveChild_push. intros Hoccurs.
    cbn [holdsError]. rewrite holdsErrorAny_eq.
    apply (resolveScriptSegment_holdsError resolveIdentifiers identifier
             (mkSegment sm value) Hstatus IH Hoccurs).
  - cbn [occursIn]. rewrite occursInAll_eq, resolveChild_evaluation. intros Hoccurs.
    cbn [holdsError]. rewrite holdsErrorAny_eq.
    apply (resolveScriptSegment_holdsError resolveIdentifiers identifier
             (mkSegment sm value) Hstatus IH Hoccurs).
Qed.



Lemma occursReportedAll_eq evaluations identifier l :
  (fix occursReportedAll (l : list BtlChild) : bool :=
     match l with
     | [] => false
     | c :: rest =>
         occursReported evaluations identifier c || occursReportedAll rest
     end) l
  = existsb (occursReported evaluations identifier) l.
Proof. induction l as [| c rest IH]; [reflexivity |]. cbn. rewrite IH. reflexivity. Qed.


Lemma existsb_impl {A : Type} (f g : A -> bool) l :
  Forall (fun x => f x = true -> g x = true) l ->
  existsb f l = true -> existsb g l = true.
Proof.
  induction 1 as [| x rest Hx _ IH]; [discriminate |].
  cbn [existsb]. intros Hany. apply orb_prop in Hany as [Hhere | Hthere].
  - rewrite (Hx Hhere). reflexivity.
  - rewrite (IH Hthere). apply orb_true_r.
Qed.

(** A reported occurrence is an occurrence. *)
Lemma occursReported_occursIn evaluations identifier child :
  occursReported evaluations identifier child = true ->
  occursIn identifier child = true.
Proof.
  induction child as [mark value | mark sm value IH | mark sm value IH | | | | |]
    using BtlChild_nested_ind; try discriminate.
  - intros Hoccurs. exact Hoccurs.
  - cbn [occursReported occursIn].
    rewrite occursReportedAll_eq, occursInAll_eq. apply existsb_impl. exact IH.
  - cbn [occursReported occursIn].
    rewrite occursReportedAll_eq, occursInAll_eq. intros Hoccurs.
    apply andb_prop in Hoccurs as [_ Hoccurs].
    revert Hoccurs. apply existsb_impl. exact IH.
Qed.



















(** *** Further properties of resolution *)

Lemma noEmptyScriptAll_eq l :
  (fix noEmptyScriptAll (l : list ResolvedSegment) : bool :=
     match l with
     | [] => true
     | s :: rest => noEmptyScript s && noEmptyScriptAll rest
     end) l
  = forallb noEmptyScript l.
Proof. induction l as [| c rest IH]; [reflexivity |]. cbn. rewrite IH. reflexivity. Qed.

Lemma resolveScriptSegment_nonempty segment resolveIdentifiers :
  resolveScriptSegmentHere segment resolveIdentifiers <> [].
Proof.
  unfold resolveScriptSegment.
  destruct (segment_value segment) as [| c rest]; cbn [List.map].
  - discriminate.
  - rewrite len_cons_nonzero. discriminate.
Qed.

Lemma resolveScriptSegment_noEmptyScript segment resolveIdentifiers :
  Forall (fun child => noEmptyScript (resolveChildHere resolveIdentifiers child) = true)
    (segment_value segment) ->
  forallb noEmptyScript (resolveScriptSegmentHere segment resolveIdentifiers) = true.
Proof.
  intros Hall. unfold resolveScriptSegment.
  destruct (len _ =? 0); [reflexivity |].
  induction Hall as [| c rest Hc _ IH]; [reflexivity |].
  cbn [List.map forallb]. rewrite Hc, IH. reflexivity.
Qed.

Lemma resolveChild_noEmptyScript resolveIdentifiers child :
  noEmptyScript (resolveChildHere resolveIdentifiers child) = true.
Proof.
  induction child as [mark value | mark sm value IH | mark sm value IH | | | | |]
    using BtlChild_nested_ind; try reflexivity.
  - cbn [resolveChild].
    destruct (resolveIdentifiers value) as [b [] src | e t sid]; reflexivity.
  - rewrite resolveChild_push. cbn [noEmptyScript]. rewrite noEmptyScriptAll_eq.
    rewrite (resolveScriptSegment_noEmptyScript (mkSegment sm value) _ IH).
    rewrite andb_true_r. apply negb_true_iff, Z.eqb_neq.
    pose proof (resolveScriptSegment_nonempty (mkSegment sm value) resolveIdentifiers).
    unfold len. destruct (resolveScriptSegmentHere _ _); [congruence | simpl; lia].
  - rewrite resolveChild_evaluation. cbn [noEmptyScript]. rewrite noEmptyScriptAll_eq.
    rewrite (resolveScriptSegment_noEmptyScript (mkSegment sm value) _ IH).
    rewrite andb_true_r. apply negb_true_iff, Z.eqb_neq.
    pose proof (resolveScriptSegment_nonempty (mkSegment sm value) resolveIdentifiers).
    unfold len. destruct (resolveScriptSegmentHere _ _); [congruence | simpl; lia].
Qed.

(** X26: [resolveScriptSegment] never returns an empty script, and no push and
    no evaluation of its result, at any depth, has an empty script as its
    value: an empty segment is resolved to one empty comment. *)
Theorem resolveScriptSegment_never_empty segment resolveIdentifiers :
  resolveScriptSegmentHere segment resolveIdentifiers <> []
  /\ forallb noEmptyScript (resolveScriptSegmentHere segment resolveIdentifiers) = true
  /\ (segment_value segment = [] ->
      resolveScriptSegmentHere segment resolveIdentifiers
      = [SegmentComment (pluckRange (segment_mark segment)) EmptyString]).
Proof.
  split; [apply resolveScriptSegment_nonempty |]. split.
  - apply resolveScriptSegment_noEmptyScript. apply List.Forall_forall.
    intros child _. apply resolveChild_noEmptyScript.
  - intros Hempty. unfold resolveScriptSegment. rewrite Hempty. reflexivity.
Qed.

Lemma resolveChild_range resolveIdentifiers child :
  segmentRange (resolveChildHere resolveIdentifiers child)
  = pluckRange (childMark child).
Proof.
  destruct child as [mark value | | | | | | |]; try reflexivity.
  cbn [resolveChild childMark].
  destruct (resolveIdentifiers value) as [b [] src | e t sid]; reflexivity.
Qed.

(** X27: Resolution keeps the shape of the parse tree: a non-empty segment is
    resolved to one resolved segment per child, in order, each with the
    range of its child. *)
Theorem resolveScriptSegment_ranges segment resolveIdentifiers :
  segment_value segment <> [] ->
  List.map segmentRange (resolveScriptSegmentHere segment resolveIdentifiers)
  = List.map (fun child => pluckRange (childMark child)) (segment_value segment).
Proof.
  intros Hne. unfold resolveScriptSegment.
  destruct (segment_value segment) as [| c rest]; [congruence |].
  cbn [List.map]. rewrite len_cons_nonzero. cbn [List.map].
  rewrite resolveChild_range. f_equal.
  rewrite map_map. apply map_ext. intros child. apply resolveChild_range.
Qed.

Lemma resolveChild_local resolve1 resolve2 child :
  (forall identifier, occursIn identifier child = true ->
     resolve1 identifier = resolve2 identifier) ->
  resolveChildHere resolve1 child = resolveChildHere resolve2 child.
Proof.
  induction child as [mark value | mark sm value IH | mark sm value IH | | | | |]
    using BtlChild_nested_ind; intros Hagree; try reflexivity.
  - cbn [resolveChild]. rewrite (Hagree value); [reflexivity |].
    cbn [occursIn]. apply String.eqb_refl.
  - rewrite !resolveChild_push. unfold resolveScriptSegment.
    cbn [segment_value segment_mark].
    replace (List.map (resolveChildHere resolve1) value)
      with (List.map (resolveChildHere resolve2) value); [reflexivity |].
    assert (Hsub : forall identifier, existsb (occursIn identifier) value = true ->
                     resolve1 identifier = resolve2 identifier).
    { intros identifier Ho. apply Hagree. cbn [occursIn].
      rewrite occursInAll_eq. exact Ho. }
    clear Hagree. induction IH as [| c rest Hc _ IHrest]; [reflexivity |].
    cbn [List.map]. rewrite Hc, IHrest; [reflexivity | |].
    + intros identifier Ho. apply Hsub. cbn [existsb]. rewrite Ho. apply orb_true_r.
    + intros identifier Ho. apply Hsub. cbn [existsb]. rewrite Ho. reflexivity.
  - rewrite !resolveChild_evaluation. unfold resolveScriptSegment.
    cbn [segment_value segment_mark].
    replace (List.map (resolveChildHere resolve1) value)
      with (List.map (resolveChildHere resolve2) value); [reflexivity |].
    assert (Hsub : forall identifier, existsb (occursIn identifier) value = true ->
                     resolve1 identifier = resolve2 identifier).
    { intros identifier Ho. apply Hagree. cbn [occursIn].
      rewrite occursInAll_eq. exact Ho. }
    clear Hagree. induction IH as [| c rest Hc _ IHrest]; [reflexivity |].
    cbn [List.map]. rewrite Hc, IHrest; [reflexivity | |].
    + intros identifier Ho. apply Hsub. cbn [existsb]. rewrite Ho. apply orb_true_r.
    + intros identifier Ho. apply Hsub. cbn [existsb]. rewrite Ho. reflexivity.
Qed.

(** X28: Resolution consults the resolver on the identifiers that occur in the
    segment and on nothing else: two resolvers that agree on them resolve
    the segment to the same script. *)
Theorem resolveScriptSegment_local resolve1 resolve2 segment :
  (forall identifier,
     existsb (occursIn identifier) (segment_value segment) = true ->
     resolve1 identifier = resolve2 identifier) ->
  resolveScriptSegmentHere segment resolve1
  = resolveScriptSegmentHere segment resolve2.
Proof.
  intros Hagree. unfold resolveScriptSegment.
  replace (List.map (resolveChildHere resolve1) (segment_value segment))
    with (List.map (resolveChildHere resolve2) (segment_value segment));
    [reflexivity |].
  induction (segment_value segment) as [| c rest IH]; [reflexivity |].
  cbn [List.map]. rewrite IH.
  - rewrite (resolveChild_local resolve1 resolve2 c); [reflexivity |].
    intros identifier Ho. apply Hagree. cbn [existsb]. rewrite Ho. reflexivity.
  - intros identifier Ho. apply Hagree. cbn [existsb]. rewrite Ho. apply orb_true_r.
Qed.

(** X29: Resolution followed by reduction always returns a node; when the
    resolver rejects an identifier that occurs in the segment, the node
    carries errors. *)
Theorem reduce_resolved_segment segment resolveIdentifiers :
  exists node,
    reduceScriptC (resolveScriptSegmentHere segment resolveIdentifiers) vm createState
    = Some node
    /\ forall identifier,
         existsb (occursIn identifier) (segment_value segment) = true ->
         status (resolveIdentifiers identifier) = false ->
         exists errs, errors node = Some errs /\ errs <> [].
Proof.
  pose proof (resolveScriptSegment_nonempty segment resolveIdentifiers) as Hne.
  destruct (reduceSegments_total parseBytecode authenticationInstructionsAreNotMalformed
              disassembleBytecode encodeDataPush vm createState
              (resolveScriptSegmentHere segment resolveIdentifiers))
    as (children & Ec & Fc & Rc).
  destruct (reduceScript_of_children parseBytecode
              authenticationInstructionsAreNotMalformed disassembleBytecode
              encodeDataPush vm createState _ children Hne Ec Rc)
    as (merged & _ & Er).
  eexists. split; [exact Er |].
  intros identifier Hoccurs Hstatus.
  assert (Hholds : existsb holdsError
                     (resolveScriptSegmentHere segment resolveIdentifiers) = true).
  { apply (resolveScriptSegment_holdsError resolveIdentifiers identifier segment
             Hstatus); [| exact Hoccurs].
    apply List.Forall_forall. intros child _.
    apply resolveChild_holdsError. exact Hstatus. }
  destruct (reduceScript_holdsError parseBytecode
              authenticationInstructionsAreNotMalformed disassembleBytecode
              encodeDataPush vm createState
              (resolveScriptSegmentHere segment resolveIdentifiers))
    as (node & errs & En & Ee & Hnonempty); [| exact Hholds |].
  { apply List.Forall_forall. intros s _.
    apply reduceSegment_holdsError. }
  rewrite Er in En. injection En as <-.
  exists errs. auto.
Qed.

(** X30: A push of the parse tree, resolved and reduced, is always the encoded
    push of the reduction of its resolved content; an empty push [<>] is
    resolved to one empty comment and so reduces to the encoded push of no
    bytes, not to no bytes. *)
Theorem reduce_resolved_push resolveIdentifiers mark segmentMark value :
  exists content node,
    reduceScriptC (resolveScriptSegmentHere (mkSegment segmentMark value)
                     resolveIdentifiers) vm createState = Some content
    /\ reduceSegmentC vm createState
         (resolveChildHere resolveIdentifiers (Push mark segmentMark value))
       = Some node
    /\ bytecode node = encodeDataPush (bytecode content)
    /\ errors node = errors content
    /\ range node = pluckRange mark
    /\ (value = [] -> bytecode content = [] /\ bytecode node = encodeDataPush []).
Proof.
  rewrite resolveChild_push.
  pose proof (resolveScriptSegment_nonempty (mkSegment segmentMark value)
                resolveIdentifiers) as Hne.
  destruct (reduceSegments_total parseBytecode authenticationInstructionsAreNotMalformed
              disassembleBytecode encodeDataPush vm createState
              (resolveScriptSegmentHere (mkSegment segmentMark value) resolveIdentifiers))
    as (children & Ec & Fc & Rc).
  destruct (reduceScript_of_children parseBytecode
              authenticationInstructionsAreNotMalformed disassembleBytecode
              encodeDataPush vm createState _ children Hne Ec Rc)
    as (merged & _ & Er).
  rewrite reduceSegment_push.
  destruct (resolveScriptSegmentHere (mkSegment segmentMark value) resolveIdentifiers)
    as [| s rest] eqn:Eres; [congruence |].
  rewrite len_cons_nonzero, Er. cbn [mbind option_bind].
  eexists. eexists. split; [reflexivity |]. split; [reflexivity |].
  cbn [bytecode errors range].
  split; [reflexivity |]. split; [reflexivity |]. split; [reflexivity |].
  intros ->. unfold resolveScriptSegment in Eres. cbn in Eres.
  injection Eres as <- <-. cbn in Ec. injection Ec as <-.
  split; reflexivity.
Qed.
End CompileFacts.

(** ** Concrete runs of the resolver, the reducer and the compiler *)

Section CompilerRuns.
Import Ranges Instructions Reduce Resolve Vocabulary Collaborators Scenarios.








(** Scenario 3 of the specification: compiling [a] when [a] and [b] refer
    to each other yields a single error, which traces to the
    circular-dependency error listing [a, b]. *)
Lemma compile_mutual_cycle fuel :
  compile (3 + fuel) "a" (environmentOf scriptsAB None)
  = CompilationResultError
      [mkErrorInformation
         (reductionMessage
            ("Compilation error in resolved script, " ++ quoted "b" ++ ": "
             ++ reductionMessage
                  ("Compilation error in resolved script, " ++ quoted "a" ++ ": "
                   ++ reductionMessage
                        (circularDependencyMessage "b" ["a"; "b"])
                   ++ " [1, 1]")
             ++ " [1, 1]"))%string
         (rangeAt 1 2)].
Proof. vm_compute. reflexivity. Qed.

Abbreviation reduceScriptHere :=
  (reduceScript (ProgramState := PushState) parseBytecode
     authenticationInstructionsAreNotMalformed disassembleBytecode
     encodeDataPush).
Abbreviation reduceSegmentHere :=
  (reduceSegment (ProgramState := PushState) parseBytecode
     authenticationInstructionsAreNotMalformed disassembleBytecode
     encodeDataPush).

(** Scenario 2 of the specification: [<'abc'>] reduces to
    [0x03 0x61 0x62 0x63], the minimal push encoding of the three bytes. *)
Lemma reduceScript_concatenates_witness :
  pushABC <> []
  /\ (exists children node,
        reduceScriptHere pushABC None None = Some node
        /\ source node = Some children
        /\ bytecode node = flattenBinArray (List.map bytecode children)
        /\ bytecode node = [Byte.x03; Byte.x61; Byte.x62; Byte.x63]
        /\ mergeRanges (List.map range children) = Some (range node)
        /\ errors node = childErrors children)
  /\ exists push pushNode,
       reduceScriptHere pushABC None None = Some push
       /\ reduceSegmentHere None None (SegmentPush (rangeAt 0 9) pushABC)
          = Some pushNode
       /\ bytecode pushNode = encodeDataPush (bytecode push)
       /\ bytecode pushNode
          = [Byte.x04; Byte.x03; Byte.x61; Byte.x62; Byte.x63]
       /\ MinimalPushEncoding (bytecode push) (bytecode pushNode).
Proof.
  assert (Hne : pushABC <> []) by discriminate.
  split; [exact Hne |].
  destruct (reduceScript_concatenates (ProgramState := PushState) parseBytecode
              authenticationInstructionsAreNotMalformed disassembleBytecode
              None None pushABC Hne)
    as ((children & node & Er & _ & Es & Eb & _ & Em & Ee) & Hpush & _).
  split.
  - exists children, node. repeat split; try assumption.
    vm_compute in Er. injection Er as <-. reflexivity.
  - destruct (Hpush (rangeAt 0 9))
      as (push & pushNode & Er' & Es' & Eb' & Hminimal & _).
    exists push, pushNode. split; [exact Er' |]. split; [exact Es' |].
    split; [exact Eb' |]. split.
    + vm_compute in Es'. injection Es' as <-. reflexivity.
    + apply Hminimal. vm_compute in Er'. injection Er' as <-. reflexivity.
Defined.

(** The payload [0x81], the number -1, is pushed by [OP_1NEGATE]. *)
Example encodeDataPush_negative_one :
  encodeDataPush [Byte.x81] = [Byte.x4f]
  /\ MinimalPushEncoding [Byte.x81] [Byte.x4f].
Proof.
  split; [reflexivity |].
  apply (encodeDataPush_minimal [Byte.x81]). reflexivity.
Qed.

(** The push encoding is never empty. *)
Lemma encodeDataPush_nonempty data : encodeDataPush data <> [].
Proof.
  unfold encodeDataPush. destruct data as [| x [| y rest]].
  - discriminate.
  - destruct ((1 <=? byteToZ x) && (byteToZ x <=? 16)); [discriminate |].
    destruct (byteToZ x =? 129); discriminate.
  - repeat match goal with |- context [if ?c then _ else _] => destruct c end;
      discriminate.
Qed.

(** C7 (as stated) fails on a Push segment with an empty value: its
    bytecode is empty, which is the push encoding of no byte array at all,
    and there is no reduced child, since reducing the empty script
    throws. *)
Lemma reduce_empty_push_is_empty :
  let node := mkNode (ProgramState := PushState) [] None (rangeAt 1 3)
                (Some [emptyReductionTraceNode (rangeAt 1 3)]) None in
  reduceScriptHere [SegmentPush (rangeAt 1 3) []] None None = Some node
  /\ reduceSegmentHere None None (SegmentPush (rangeAt 1 3) [])
     = Some (emptyReductionTraceNode (rangeAt 1 3))
  /\ bytecode (emptyReductionTraceNode (ProgramState := PushState) (rangeAt 1 3)) = []
  /\ (forall child, encodeDataPush child <> [])
  /\ reduceScriptHere [] None None = None.
Proof.
  repeat split. exact encodeDataPush_nonempty.
Qed.

Lemma reduceSegment_evaluation_spec_witness :
  evaluatedPush <> []
  /\ reduceSegmentHere None (Some pushCreateState)
       (SegmentEvaluation (rangeAt 1 12) evaluatedPush)
     = Some (mkNode []
               (Some [mkErrorInformation
                  "Both a VM and a createState method are required to reduce evaluations."
                  (rangeAt 1 12)])
               (rangeAt 1 12) None None)
  /\ exists node lastSample state,
       reduceSegmentHere (Some pushVM) (Some pushCreateState)
         (SegmentEvaluation (rangeAt 1 12) evaluatedPush) = Some node
       /\ errors node = None
       /\ (samples node ≫= last) = Some lastSample
       /\ sample_state lastSample = Some state
       /\ bytecode node = default [] (topStackItem (stack state))
       /\ bytecode node = [Byte.x01; Byte.x02].
Proof.
  assert (Hne : evaluatedPush <> []) by discriminate.
  split; [exact Hne |]. split.
  - apply (proj2 (reduceSegment_evaluation_spec parseBytecode
                    authenticationInstructionsAreNotMalformed disassembleBytecode
                    encodeDataPush None (Some pushCreateState) (rangeAt 1 12)
                    evaluatedPush) Hne).
    left. reflexivity.
  - destruct (proj2 (reduceSegment_evaluation_spec parseBytecode
                       authenticationInstructionsAreNotMalformed
                       disassembleBytecode encodeDataPush (Some pushVM)
                       (Some pushCreateState) (rangeAt 1 12) evaluatedPush)
                Hne) as [_ Hboth].
    destruct (Hboth pushVM pushCreateState eq_refl eq_refl)
      as (reductionTrace & nodes & evaluated & node
          & Er & Es & Ee & En & Esamples & Hclean & _).
    assert (Hmerged : default [] (errors reductionTrace)
                      ++ default [] (se_errors evaluated) = []).
    { vm_compute in Er. injection Er as <-.
      cbn [source] in Es. injection Es as <-.
      vm_compute in Ee. injection Ee as <-. reflexivity. }
    destruct (Hclean Hmerged) as (Hnone & lastSample & state & El & Est & Eb).
    exists node, lastSample, state.
    rewrite Esamples. cbn [mbind option_bind].
    repeat split; try assumption.
    vm_compute in En. injection En as <-. reflexivity.
Defined.

(** C6 (as stated) fails on an Evaluation segment with an empty value: with
    neither a VM nor a state factory it reduces to empty bytecode without
    any error. *)
Lemma reduce_empty_evaluation_without_vm :
  reduceSegmentHere None None (SegmentEvaluation (rangeAt 1 4) [])
  = Some (emptyReductionTraceNode (rangeAt 1 4))
  /\ errors (emptyReductionTraceNode (ProgramState := PushState) (rangeAt 1 4))
     = None
  /\ bytecode (emptyReductionTraceNode (ProgramState := PushState) (rangeAt 1 4))
     = [].
Proof. repeat split. Qed.

(** [identifier.split('.')] on an identifier with two dots. *)
Example split_dot_sample :
  split_dot "owner.signature.all_outputs"
  = ["owner"; "signature"; "all_outputs"]%string.
Proof. reflexivity. Qed.

(** A built-in variable without its operation table is a variable error,
    not an unknown identifier. *)
Example builtin_without_operations :
  createIdentifierResolver applyNoOperation compileStub tt
    (environmentOf scriptsAB None) (Some "a") "current_block_height"
  = Declared
      (ResolutionError
         ("The " ++ quoted "current_block_height"
          ++ " variable type can not be resolved because the "
          ++ quoted "currentBlockHeight"
          ++ " operation has not been included in this compiler's CompilationEnvironment.")%string
         error_variable None).
Proof. reflexivity. Qed.


(** *** Runs of the further properties *)

Lemma reduceScript_ignores_comments_witness :
  exists node kept,
    reduceScriptHere commentedPush None None = Some node
    /\ reduceScriptHere pushABC None None = Some kept
    /\ bytecode kept = bytecode node
    /\ errors kept = errors node.
Proof.
  apply (reduceScript_ignores_comments parseBytecode
           authenticationInstructionsAreNotMalformed disassembleBytecode
           encodeDataPush None None commentedPush).
  discriminate.
Defined.

Lemma reduceSegment_without_evaluations_witness :
  reduceSegmentHere (Some pushVM) (Some pushCreateState) pushOfUnknown
  = reduceSegmentHere None None pushOfUnknown.
Proof.
  apply (reduceSegment_without_evaluations parseBytecode
           authenticationInstructionsAreNotMalformed disassembleBytecode
           encodeDataPush (Some pushVM) (Some pushCreateState) None None
           pushOfUnknown).
  reflexivity.
Defined.

Lemma reduceSegment_errors_iff_holdsError_witness :
  exists n,
    reduceSegmentHere None None pushOfUnknown = Some n
    /\ (errors n = None <-> holdsError pushOfUnknown = false).
Proof.
  apply (reduceSegment_errors_iff_holdsError parseBytecode
           authenticationInstructionsAreNotMalformed disassembleBytecode
           encodeDataPush None None pushOfUnknown).
  reflexivity.
Defined.

(** The stand-in machine stops at [OP_ADD]: the second sample has no
    state, and the error cites the first sample and its state. *)
Lemma evaluateInstructionAggregations_outcome_witness :
  exists state,
    stateError state = Some "unsupported opcode"
    /\ evaluateInstructionAggregations aggregationsAddOne pushVM pushCreateState
       = EvaluationError
           [mkErrorInformation "Failed to reduce evaluation: unsupported opcode"
              (rangeAt 1 6)]
           [mkSample (rangeAt 1 6) (Some state); mkSample (rangeAt 8 11) None]
    /\ evaluateInstructionAggregations aggregationsAddOne silentVM pushCreateState
       = EvaluationError
           [mkErrorInformation
              "Failed to reduce evaluation: vm.debug produced no valid program states."
              (rangeAt 1 6)]
           [mkSample (rangeAt 1 6) None; mkSample (rangeAt 8 11) None].
Proof.
  pose proof (evaluateInstructionAggregations_outcome aggregationsAddOne pushVM
                pushCreateState) as (_ & _ & Hcite).
  pose proof (evaluateInstructionAggregations_outcome aggregationsAddOne silentVM
                pushCreateState) as (_ & Hfirst & _).
  pose (stopped :=
    pushStep
      (pushCreateState [mkInstruction Byte.x93 None false;
                        mkInstruction Byte.x51 None false])
      (mkInstruction Byte.x93 None false)).
  exists stopped. split; [reflexivity |]. split.
  - rewrite (Hcite [] (mkSample (rangeAt 1 6) (Some stopped)) stopped
               (mkSample (rangeAt 8 11) None) [] eq_refl
               (List.Forall_nil _) eq_refl eq_refl).
    reflexivity.
  - rewrite (Hfirst (mkSample (rangeAt 1 6) None) [mkSample (rangeAt 8 11) None]
               eq_refl eq_refl).
    reflexivity.
Defined.

Lemma sampledEvaluate_without_bytecode_witness :
  sampledEvaluateReductionTraceNodes (ProgramState := PushState) parseBytecode
    authenticationInstructionsAreNotMalformed disassembleBytecode
    [emptyReductionTraceNode (rangeAt 3 3)] pushVM pushCreateState
  = Some (mkSampled [] None
            [mkSample (rangeAt 3 3) (Some (pushCreateState []))]).
Proof.
  assert (Hnodes : Forall (fun n : @ScriptReductionTraceNode PushState => bytecode n = [])
                     [emptyReductionTraceNode (rangeAt 3 3)])
    by (constructor; [reflexivity | constructor]).
  rewrite (sampledEvaluate_without_bytecode parseBytecode
             authenticationInstructionsAreNotMalformed disassembleBytecode
             (emptyReductionTraceNode (rangeAt 3 3)) [] pushVM pushCreateState
             eq_refl Hnodes).
  reflexivity.
Defined.

Lemma resolveScriptSegment_never_empty_witness :
  resolveSegment (mkSegment (markAt 1 1) []) resolverAB
  = [SegmentComment (rangeAt 1 1) EmptyString].
Proof.
  apply (resolveScriptSegment_never_empty (fun _ => []) (fun _ => []) (fun _ => [])
           (mkSegment (markAt 1 1) []) resolverAB).
  reflexivity.
Defined.

Lemma resolveScriptSegment_ranges_witness :
  List.map segmentRange (resolveSegment treePushOne resolverAB) = [rangeAt 1 7].
Proof.
  apply (resolveScriptSegment_ranges (fun _ => []) (fun _ => []) (fun _ => [])
           treePushOne resolverAB).
  discriminate.
Defined.

(** The two environments agree on [OP_1], the one identifier of
    [<OP_1>]. *)
Lemma resolveScriptSegment_local_witness :
  resolveSegment treePushOne resolverAB = resolveSegment treePushOne resolverAA.
Proof.
  apply (resolveScriptSegment_local (fun _ => []) (fun _ => []) (fun _ => [])
           resolverAB resolverAA treePushOne).
  intros identifier Hoccurs.
  change ((String.eqb "OP_1" identifier || false) || false = true) in Hoccurs.
  rewrite !orb_false_r in Hoccurs. apply String.eqb_eq in Hoccurs. subst identifier.
  reflexivity.
Defined.

(** [foo] is no opcode, no variable and no script. *)
Lemma reduce_resolved_segment_witness :
  exists node errs,
    reduceScriptHere (resolveSegment treeUnknown resolverAB)
      (Some pushVM) (Some pushCreateState) = Some node
    /\ errors node = Some errs /\ errs <> [].
Proof.
  destruct (reduce_resolved_segment (fun _ => []) (fun _ => []) (fun _ => [])
              parseBytecode authenticationInstructionsAreNotMalformed
              disassembleBytecode encodeDataPush
              (Some pushVM) (Some pushCreateState) treeUnknown resolverAB)
    as (node & En & Herrors).
  destruct (Herrors "foo" eq_refl eq_refl) as (errs & Ee & Hne).
  exists node, errs. auto.
Defined.

(** The empty push [<>] compiles to [OP_0]. *)
Lemma reduce_resolved_push_witness :
  exists node,
    reduceSegmentHere (Some pushVM) (Some pushCreateState)
      (resolveChild (fun _ => []) (fun _ => []) (fun _ => []) resolverAB
         (Push (markAt 1 3) (markAt 2 2) []))
    = Some node
    /\ bytecode node = [Byte.x00].
Proof.
  destruct (reduce_resolved_push (fun _ => []) (fun _ => []) (fun _ => [])
              parseBytecode authenticationInstructionsAreNotMalformed
              disassembleBytecode encodeDataPush
              (Some pushVM) (Some pushCreateState) resolverAB
              (markAt 1 3) (markAt 2 2) [])
    as (content & node & _ & En & _ & _ & _ & Hempty).
  exists node. split; [exact En |].
  destruct (Hempty eq_refl) as [_ ->]. reflexivity.
Defined.
End CompilerRuns.
